(** * smugit: conflict parsing, classification and automated resolution

    A shallow embedding of the merge-conflict core of smugit
    (packages/cli/src/git: analyzer, plugins, registry, resolver;
    packages/shared: types and utils) together with the theorems that
    settle the properties stated for it.

    Strings.  A JavaScript string is a sequence of UTF-16 code units.  The
    embedding uses [string], whose characters are the 256 values of [ascii];
    they stand for the code units 0..255.  Every predicate on characters
    below (white space, line terminators, word characters) is the
    restriction of the ECMAScript one to that range.

    Regular expressions.  Each expression of the source is written as the
    matcher it denotes, with the reason why the matcher is exact next to
    it.

    Effects.  A method that may throw returns an [Outcome]; the resolver's
    asynchronous methods are functions of the world (the working tree and
    the index) that return an outcome and the new world.  The awaits of the
    source run one after the other, so each is a plain call.

    The host.  [path.join] and [localeCompare] belong to Node and to the
    locale; the definitions that use them take them as parameters.
    [Array.prototype.sort] is a stable sort.  A plugin is given the
    context's [readFile] and nothing else, so it can read the working tree
    and cannot write it; its [supports] is a total predicate. *)

From Stdlib Require Import Ascii String NArith ZArith Lia.
From stdpp Require Import base option list sorting strings gmap pretty.

(** ** ECMAScript string primitives *)

Module Js.

Definition code (c : ascii) : N := N_of_ascii c.

(** [\s] in a regular expression and the characters removed by
    [String.prototype.trim]: WhiteSpace and LineTerminator.  Below 256
    these are TAB, LF, VT, FF, CR, SPACE and NBSP. *)
Definition isWhiteSpace (c : ascii) : bool :=
  match code c with
  | 9 | 10 | 11 | 12 | 13 | 32 | 160 => true
  | _ => false
  end%N.

(** LineTerminator: what [.] refuses and where [$] stops under the [m]
    flag.  Below 256: LF and CR. *)
Definition isLineTerminator (c : ascii) : bool :=
  match code c with
  | 10 | 13 => true
  | _ => false
  end%N.

(** [\d] *)
Definition isDigit (c : ascii) : bool :=
  ((48 <=? code c) && (code c <=? 57))%N.

(** [\w]: [A-Za-z0-9_] *)
Definition isWordChar (c : ascii) : bool :=
  (isDigit c
   || ((65 <=? code c) && (code c <=? 90))
   || ((97 <=? code c) && (code c <=? 122))
   || (code c =? 95))%N.

Definition LF : ascii := "010"%char.
Definition TAB : ascii := "009"%char.
Definition SPACE : ascii := " "%char.

Definition isEmpty (s : string) : bool :=
  match s with "" => true | _ => false end.

(** [s.trimStart()] *)
Fixpoint trimStart (s : string) : string :=
  match s with
  | "" => ""
  | String c s' => if isWhiteSpace c then trimStart s' else s
  end.

(** [s.trimEnd()] *)
Definition trimEnd (s : string) : string :=
  String.rev (trimStart (String.rev s)).

(** [s.trim()] *)
Definition trim (s : string) : string := trimEnd (trimStart s).

(** [s.startsWith(p)] *)
Fixpoint startsWith (s p : string) : bool :=
  match p, s with
  | "", _ => true
  | String a p', String b s' => if Ascii.eqb a b then startsWith s' p' else false
  | String _ _, "" => false
  end.

(** [s.endsWith(p)] *)
Definition endsWith (s p : string) : bool :=
  startsWith (String.rev s) (String.rev p).

(** [s.includes(p)] *)
Fixpoint includes (s p : string) : bool :=
  startsWith s p ||
  match s with
  | "" => false
  | String _ s' => includes s' p
  end.

Fixpoint drop (n : nat) (s : string) : string :=
  match n, s with
  | 0, _ => s
  | S n', String _ s' => drop n' s'
  | S _, "" => ""
  end.

(** The text before and after the first occurrence of [p] in [s], as
    [s.indexOf(p)] locates it; [None] when [p] does not occur. *)
Fixpoint cut (s p : string) : option (string * string) :=
  if startsWith s p then Some ("", drop (String.length p) s)
  else match s with
       | "" => None
       | String c s' =>
           match cut s' p with
           | Some (before, after) => Some (String c before, after)
           | None => None
           end
       end.

(** [s.split('\n')] *)
Fixpoint splitLines (s : string) : list string :=
  match s with
  | "" => [""]
  | String c s' =>
      if Ascii.eqb c LF then "" :: splitLines s'
      else match splitLines s' with
           | l :: ls => String c l :: ls
           | [] => [String c ""]
           end
  end.

(** [parts.join(sep)] *)
Fixpoint join (sep : string) (parts : list string) : string :=
  match parts with
  | [] => ""
  | [p] => p
  | p :: ps => p +:+ sep +:+ join sep ps
  end.

Definition NL : string := String LF "".

(** [s.replace(/\s+/g, ' ')]: every maximal run of white space becomes
    one space. *)
Fixpoint collapseFrom (inRun : bool) (s : string) : string :=
  match s with
  | "" => ""
  | String c s' =>
      if isWhiteSpace c
      then (if inRun then collapseFrom true s'
            else String SPACE (collapseFrom true s'))
      else String c (collapseFrom false s')
  end.

Definition collapseSpaces (s : string) : string := collapseFrom false s.

End Js.

(** ** Shared types (packages/shared: types.ts) *)

Inductive ConflictType : Set :=
  | CONTENT | WHITESPACE | IMPORT | STRUCTURAL | SEMANTIC.

Inductive ConflictComplexity : Set :=
  | TRIVIAL | SIMPLE | MODERATE | COMPLEX.

Global Instance ConflictType_eq_dec : EqDecision ConflictType.
Proof. solve_decision. Defined.

Global Instance ConflictComplexity_eq_dec : EqDecision ConflictComplexity.
Proof. solve_decision. Defined.

Global Instance ConflictType_countable : Countable ConflictType.
Proof.
  refine (inj_countable'
    (λ t, match t with
          | CONTENT => 0 | WHITESPACE => 1 | IMPORT => 2
          | STRUCTURAL => 3 | SEMANTIC => 4
          end)
    (λ n, match n with
          | 0 => CONTENT | 1 => WHITESPACE | 2 => IMPORT
          | 3 => STRUCTURAL | _ => SEMANTIC
          end) _).
  by intros [].
Defined.

(** [conflictMarkers: { start, separator, end }]; [end] is reserved in
    Rocq, hence the prefix. *)
Record ConflictMarkers : Set := {
  m_start : string;
  m_separator : string;
  m_end : string;
}.

Record ConflictHunk : Set := {
  startLine : nat;
  endLine : nat;
  baseContent : string;
  currentContent : string;
  incomingContent : string;
  conflictMarkers : ConflictMarkers;
}.

Record GitConflict : Set := {
  file : string;
  type : ConflictType;
  hunks : list ConflictHunk;
  complexity : ConflictComplexity;
  explanation : option string;
  autoResolvable : bool;
}.

(** ** The hunk parser (GitAnalyzer.parseConflictHunks)

    The source walks an index [i] over [lines = content.split('\n')] with
    nested [while] loops.  Each loop is a function on the index here; the
    fuel bounds the number of iterations, and every iteration advances [i],
    so [length lines] iterations always suffice. *)

Module Parser.
Import Js.

(** [while (i < lines.length && !lines[i].startsWith(stop))
      { acc.push(lines[i]); i++; }] *)
Fixpoint collectUntil (fuel : nat) (lines : list string) (stop : string)
    (i : nat) (acc : list string) : nat * list string :=
  match fuel with
  | 0 => (i, acc)
  | S fuel' =>
      match lines !! i with
      | None => (i, acc)
      | Some l =>
          if startsWith l stop then (i, acc)
          else collectUntil fuel' lines stop (i + 1) (acc ++ [l])
      end
  end.

(** The loop that collects the current side, lines 322-336.  On a
    [|||||||] line it advances, gathers the base lines up to the next
    [=======] line, and then runs the loop's trailing [i++]. *)
Fixpoint collectCurrent (fuel : nat) (lines : list string) (i : nat)
    (currentContent : list string) (baseContent : string)
    : nat * list string * string :=
  match fuel with
  | 0 => (i, currentContent, baseContent)
  | S fuel' =>
      match lines !! i with
      | None => (i, currentContent, baseContent)
      | Some l =>
          if startsWith l "=======" then (i, currentContent, baseContent)
          else if startsWith l "|||||||" then
            let '(j, baseLines) :=
              collectUntil (length lines) lines "=======" (i + 1) [] in
            collectCurrent fuel' lines (j + 1) currentContent (join NL baseLines)
          else
            collectCurrent fuel' lines (i + 1) (currentContent ++ [l]) baseContent
      end
  end.

(** The outer loop, lines 307-368. *)
Fixpoint scan (fuel : nat) (lines : list string) (i : nat)
    (hunks : list ConflictHunk) : list ConflictHunk :=
  match fuel with
  | 0 => hunks
  | S fuel' =>
      match lines !! i with
      | None => hunks
      | Some line =>
          if startsWith line "<<<<<<<" then
            let startLine := i in
            let '(i1, currentContent, baseContent) :=
              collectCurrent (length lines) lines (i + 1) [] "" in
            match lines !! i1 with
            | Some sep =>
                if startsWith sep "=======" then
                  let '(i2, incomingContent) :=
                    collectUntil (length lines) lines ">>>>>>>" (i1 + 1) [] in
                  match lines !! i2 with
                  | Some e =>
                      if startsWith e ">>>>>>>" then
                        scan fuel' lines (i2 + 1)
                          (hunks ++
                           [ {| startLine := startLine + 1;
                                endLine := i2 + 1;
                                baseContent := baseContent;
                                currentContent := join NL currentContent;
                                incomingContent := join NL incomingContent;
                                conflictMarkers :=
                                  {| m_start := line;
                                     m_separator := sep;
                                     m_end := e |} |} ])
                      else scan fuel' lines (i2 + 1) hunks
                  | None => scan fuel' lines (i2 + 1) hunks
                  end
                else scan fuel' lines (i1 + 1) hunks
            | None => scan fuel' lines (i1 + 1) hunks
            end
          else scan fuel' lines (i + 1) hunks
      end
  end.

Definition parseConflictHunks (content : string) : list ConflictHunk :=
  let lines := splitLines content in
  scan (length lines) lines 0 [].

End Parser.

(** ** Well-formed conflict layouts

    A description of the files the parser is meant for, used to state what
    it returns.  A two-way region is a start marker, the current lines, a
    separator, the incoming lines and an end marker; a file is a sequence of
    regions, each preceded by ordinary text, followed by ordinary text. *)

Module Layout.
Import Js.

Record Region : Set := {
  r_start : string;
  r_current : list string;
  r_separator : string;
  r_incoming : list string;
  r_end : string;
}.

Definition regionLines (r : Region) : list string :=
  r_start r :: r_current r ++ r_separator r :: r_incoming r ++ [r_end r].

Definition File : Set := (list (list string * Region) * list string)%type.

Fixpoint segmentsLines (segs : list (list string * Region)) : list string :=
  match segs with
  | [] => []
  | (gap, r) :: segs' => gap ++ regionLines r ++ segmentsLines segs'
  end.

Definition fileLines (f : File) : list string :=
  segmentsLines f.1 ++ f.2.

Definition plainLine (l : string) : Prop := startsWith l "<<<<<<<" = false.

Definition currentLine (l : string) : Prop :=
  startsWith l "=======" = false ∧ startsWith l "|||||||" = false.

Definition incomingLine (l : string) : Prop := startsWith l ">>>>>>>" = false.

Record wfRegion (r : Region) : Prop := {
  wf_start : startsWith (r_start r) "<<<<<<<" = true;
  wf_current : Forall currentLine (r_current r);
  wf_separator : startsWith (r_separator r) "=======" = true;
  wf_incoming : Forall incomingLine (r_incoming r);
  wf_end : startsWith (r_end r) ">>>>>>>" = true;
}.

Definition wfFile (f : File) : Prop :=
  Forall (λ seg, Forall plainLine seg.1 ∧ wfRegion seg.2) f.1
  ∧ Forall plainLine f.2.

(** The hunk a region at 0-based line [s] stands for. *)
Definition hunkOf (s : nat) (r : Region) : ConflictHunk :=
  {| startLine := s + 1;
     endLine := s + 1 + length (r_current r) + 1 + length (r_incoming r) + 1;
     baseContent := "";
     currentContent := join NL (r_current r);
     incomingContent := join NL (r_incoming r);
     conflictMarkers :=
       {| m_start := r_start r;
          m_separator := r_separator r;
          m_end := r_end r |} |}.

Fixpoint hunksFrom (off : nat) (segs : list (list string * Region))
    : list ConflictHunk :=
  match segs with
  | [] => []
  | (gap, r) :: segs' =>
      let s := off + length gap in
      hunkOf s r :: hunksFrom (s + length (regionLines r)) segs'
  end.

(** A file with a single region, in three-way style: text, the start
    marker, the current lines, the [|||||||] line, the base lines, the
    separator, and what follows it (incoming lines, end marker, text). *)
Record ThreeWayFile : Set := {
  t_gap : list string;
  t_start : string;
  t_current : list string;
  t_baseMarker : string;
  t_base : list string;
  t_separator : string;
  t_incoming : list string;
  t_end : string;
  t_tail : list string;
}.

Definition threeWayLines (f : ThreeWayFile) : list string :=
  t_gap f ++ t_start f :: t_current f ++ t_baseMarker f :: t_base f
  ++ t_separator f :: t_incoming f ++ t_end f :: t_tail f.

(** The three-way files the parser is followed on.  The four marker
    lines are markers; no line of the text before or after the region
    begins with [<<<<<<<]; no current line begins with [=======] or
    [|||||||], no base line with [=======], no incoming line with
    [>>>>>>>].  Moreover no line after the separator begins with
    [=======] or [|||||||]: the loop over the current side would take
    such a line for the separator, or for another base marker.  This is
    narrower than "the only region of the file is in three-way
    style". *)
Record wfThreeWay (f : ThreeWayFile) : Prop := {
  wt_gap : Forall plainLine (t_gap f);
  wt_start : startsWith (t_start f) "<<<<<<<" = true;
  wt_current : Forall currentLine (t_current f);
  wt_baseMarker : startsWith (t_baseMarker f) "|||||||" = true;
  wt_base : Forall (λ l, startsWith l "=======" = false) (t_base f);
  wt_separator : startsWith (t_separator f) "=======" = true;
  wt_incoming : Forall (λ l, incomingLine l ∧ currentLine l) (t_incoming f);
  wt_end : startsWith (t_end f) ">>>>>>>" = true;
  wt_tail : Forall (λ l, plainLine l ∧ currentLine l) (t_tail f);
}.

(** What the property asks of a hunk of a file with the given lines: the
    three marker texts are lines of the file, the start and end markers at
    the recorded positions and the separator in between. *)
Definition hunkFaithful (lines : list string) (h : ConflictHunk) : Prop :=
  startLine h ≤ endLine h
  ∧ lines !! (startLine h - 1) = Some (m_start (conflictMarkers h))
  ∧ lines !! (endLine h - 1) = Some (m_end (conflictMarkers h))
  ∧ ∃ k, startLine h < k < endLine h
         ∧ lines !! (k - 1) = Some (m_separator (conflictMarkers h)).

End Layout.

(** ** Regular expressions of the source, as matchers

    Each regular expression of the source is written out as the function it
    denotes.  In all of them the pieces that follow one another start with
    disjoint character classes, so the backtracking matcher has a single way
    to match and the direct functions below are exact. *)

Module Re.
Import Js.

(** [re.test(s)] for an unanchored expression: some suffix of [s] matches
    at its start. *)
Fixpoint anywhere (matchesHere : string → bool) (s : string) : bool :=
  matchesHere s ||
  match s with
  | "" => false
  | String _ s' => anywhere matchesHere s'
  end.

Definition startsWithWordChar (s : string) : bool :=
  match s with
  | String c _ => isWordChar c
  | "" => false
  end.

Definition startsWithSpace (s : string) : bool :=
  match s with
  | String c _ => isWhiteSpace c
  | "" => false
  end.

Definition keywords : list string :=
  ["if"; "else"; "for"; "while"; "switch"; "try"; "catch"].

(** [/\b(if|else|for|while|switch|try|catch)\b/]: [prevWord] tells whether
    the character before the current position is a word character. *)
Fixpoint controlKeyword (prevWord : bool) (s : string) : bool :=
  (negb prevWord &&
   existsb (λ k, startsWith s k
                 && negb (startsWithWordChar (drop (String.length k) s)))
     keywords) ||
  match s with
  | "" => false
  | String c s' => controlKeyword (isWordChar c) s'
  end.

(** [/function\s*\(/] *)
Definition functionCall (s : string) : bool :=
  anywhere (λ t, startsWith t "function"
                 && startsWith (trimStart (drop 8 t)) "(") s.

(** [/=>\s*{/] *)
Definition arrowBody (s : string) : bool :=
  anywhere (λ t, startsWith t "=>"
                 && startsWith (trimStart (drop 2 t)) "{") s.

(** [/class\s+\w+/] *)
Definition classDecl (s : string) : bool :=
  anywhere (λ t, startsWith t "class"
                 && startsWithSpace (drop 5 t)
                 && startsWithWordChar (trimStart (drop 5 t))) s.

(** [/async\s+/] *)
Definition asyncMarker (s : string) : bool :=
  anywhere (λ t, startsWith t "async" && startsWithSpace (drop 5 t)) s.

Fixpoint dropWhile (p : ascii → bool) (s : string) : string :=
  match s with
  | "" => ""
  | String c s' => if p c then dropWhile p s' else s
  end.

Definition isBullet (c : ascii) : bool :=
  match c with
  | "-" | "*" | "+" => true
  | _ => false
  end%char.

(** [/^\s*(?:[-*+]|\d+\.)\s+/] *)
Definition bulletPattern (s : string) : bool :=
  match trimStart s with
  | String c rest =>
      if isBullet c then startsWithSpace rest
      else if isDigit c then
        match dropWhile isDigit rest with
        | String "."%char rest' => startsWithSpace rest'
        | _ => false
        end
      else false
  | "" => false
  end.

Definition isKeyChar (c : ascii) : bool :=
  isWordChar c
  || match c with "." | "-" => true | _ => false end%char.

Definition isQuote (c : ascii) : bool :=
  match c with
  | "034" | "'" => true
  | _ => false
  end%char.

Definition dropOptionalQuote (s : string) : string :=
  match s with
  | String c s' => if isQuote c then s' else s
  | "" => ""
  end.

Definition isAssign (c : ascii) : bool :=
  match c with
  | ":" | "=" => true
  | _ => false
  end%char.

(** [kvPattern]: at the start, white space, an optional single or double
    quote, one or more key characters ([\w], [.] or [-]), an optional
    quote, white space, then [:] or [=]. *)
Definition kvPattern (s : string) : bool :=
  match dropOptionalQuote (trimStart s) with
  | String c rest =>
      if isKeyChar c then
        match trimStart (dropOptionalQuote (dropWhile isKeyChar rest)) with
        | String d _ => isAssign d
        | "" => false
        end
      else false
  | "" => false
  end.

End Re.

(** ** Shared utilities (packages/shared: utils.ts) *)

Module Shared.
Import Js.

Definition TRIVIAL_AUTO_TYPES : gset ConflictType :=
  {[ WHITESPACE; IMPORT; STRUCTURAL ]}.

Definition isAutoResolvable (type : ConflictType)
    (complexity : ConflictComplexity) : bool :=
  if decide (complexity = TRIVIAL) then
    bool_decide (type ∈ TRIVIAL_AUTO_TYPES)
  else if bool_decide (complexity = SIMPLE)
          && (bool_decide (type = WHITESPACE)
              || bool_decide (type = IMPORT)
              || bool_decide (type = STRUCTURAL))
  then true
  else false.

Definition generateConflictExplanation (type : ConflictType) (file : string)
    (_currentContent _incomingContent : string) : string :=
  match type with
  | WHITESPACE =>
      "Whitespace differences in " +:+ file +:+ ". Usually safe to auto-resolve."
  | IMPORT =>
      "Import statement conflicts in " +:+ file
      +:+ ". Different import order or style."
  | STRUCTURAL =>
      "Structural changes in " +:+ file
      +:+ ". Code organization differs between branches."
  | SEMANTIC =>
      "Semantic conflicts in " +:+ file
      +:+ ". Logic or behavior differs between branches."
  | CONTENT =>
      "Content conflicts in " +:+ file +:+ ". Manual review recommended."
  end.

Definition isWhitespaceOnly (content1 content2 : string) : bool :=
  let normalized1 := trim (collapseSpaces content1) in
  let normalized2 := trim (collapseSpaces content2) in
  bool_decide (normalized1 = normalized2).

Definition hasComplexLogic (content : string) : bool :=
  existsb (λ pattern, pattern content)
    [ Re.controlKeyword false; Re.functionCall; Re.arrowBody;
      Re.classDecl; Re.asyncMarker ].

Definition analyzeConflictComplexity (currentContent incomingContent : string)
    : ConflictComplexity :=
  let currentLines := length (splitLines currentContent) in
  let incomingLines := length (splitLines incomingContent) in
  let totalLines := currentLines `max` incomingLines in
  if (totalLines <=? 1) || isWhitespaceOnly currentContent incomingContent
  then TRIVIAL
  else if (totalLines <=? 5)
          && negb (hasComplexLogic currentContent)
          && negb (hasComplexLogic incomingContent)
  then SIMPLE
  else if totalLines <=? 20 then MODERATE
  else COMPLEX.

End Shared.

(** ** Line heuristics

    [splitLines], [isSubsetLines], [isLikelyList] and [isKeyValueBlock] are
    written twice in the source, with the same text: as private methods of
    GitAnalyzer (analyze.ts) and as functions of the builtin plugins
    (builtin.ts).  Both users share the definitions below. *)

Module Lines.
Import Js.

Definition nonEmpty (s : string) : bool := negb (isEmpty s).

(** [xs.map(line => line.trim()).filter(Boolean)] *)
Definition meaningful (xs : list string) : list string :=
  filter (λ l, nonEmpty l = true) (trim <$> xs).

Definition isSubsetLines (source target : list string) : bool :=
  let targetSet : gset string := list_to_set (meaningful target) in
  let meaningfulSource := meaningful source in
  if length meaningfulSource =? 0 then true
  else forallb (λ line, bool_decide (line ∈ targetSet)) meaningfulSource.

(** The loop shared by [isLikelyList] and [isKeyValueBlock]: blank lines
    are skipped, a line that fails the pattern ends the loop with [false],
    and the result is whether some line passed. *)
Fixpoint everyEntry (pattern : string → bool) (hasEntries : bool)
    (lines : list string) : bool :=
  match lines with
  | [] => hasEntries
  | line :: rest =>
      let trimmed := trim line in
      if isEmpty trimmed then everyEntry pattern hasEntries rest
      else if negb (pattern trimmed) then false
      else everyEntry pattern true rest
  end.

Definition isLikelyList (lines : list string) : bool :=
  everyEntry Re.bulletPattern false lines.

Definition isKeyValueBlock (lines : list string) : bool :=
  everyEntry Re.kvPattern false lines.

End Lines.

(** ** The classifier (GitAnalyzer, analyze.ts) *)

Module Analyzer.
Import Js Lines.

(** One match of
    [/<<<<<<< .*?\n(.*?)\n=======\n(.*?)\n>>>>>>> .*?\n/s]: the matched
    text, the two groups and the text after the match.  Every lazy [.*?]
    (with the [s] flag the dot takes any character) stops at the first
    place where the literal after it occurs: a later stop leaves a shorter
    remainder for the rest of the expression, so it matches only if the
    first one does. *)
Definition matchBlock (s : string)
    : option (string * string * string * string) :=
  '(_, r0) ← cut s "<<<<<<< ";
  '(header, r1) ← cut r0 NL;
  '(current, r2) ← cut r1 (NL +:+ "=======" +:+ NL);
  '(incoming, r3) ← cut r2 (NL +:+ ">>>>>>> ");
  '(trailer, r4) ← cut r3 NL;
  Some ("<<<<<<< " +:+ header +:+ NL +:+ current +:+ NL +:+ "=======" +:+ NL
        +:+ incoming +:+ NL +:+ ">>>>>>> " +:+ trailer +:+ NL,
        current, incoming, r4).

(** [content.match(/.../gs)]: the successive matches, each search starting
    where the previous match ended.  A match is never empty, so there are
    at most [String.length content] of them. *)
Fixpoint matchAllBlocks (fuel : nat) (s : string) : list string :=
  match fuel with
  | 0 => []
  | S fuel' =>
      match matchBlock s with
      | Some (block, _, _, rest) => block :: matchAllBlocks fuel' rest
      | None => []
      end
  end.

Definition detectConflictType (_filePath content : string) : ConflictType :=
  if includes content "import " || includes content "require(" then IMPORT
  else
    let conflictBlocks := matchAllBlocks (String.length content) content in
    let hasOnlyWhitespace :=
      forallb (λ block,
        match matchBlock block with
        | Some (_, current, incoming, _) =>
            bool_decide (trim (collapseSpaces current)
                         = trim (collapseSpaces incoming))
        | None => true
        end) conflictBlocks in
    if negb (length conflictBlocks =? 0) && hasOnlyWhitespace then WHITESPACE
    else if includes content "class " || includes content "function "
            || includes content "interface "
    then STRUCTURAL
    else CONTENT.

Definition determineOverallComplexity (hunks : list ConflictHunk)
    : ConflictComplexity :=
  if length hunks =? 0 then TRIVIAL
  else
    let complexities :=
      (λ hunk, Shared.analyzeConflictComplexity
                 (currentContent hunk) (incomingContent hunk)) <$> hunks in
    if bool_decide (COMPLEX ∈ complexities) then COMPLEX
    else if bool_decide (MODERATE ∈ complexities) then MODERATE
    else if bool_decide (SIMPLE ∈ complexities) then SIMPLE
    else TRIVIAL.

Definition isSimpleContentPattern (hunk : ConflictHunk) : bool :=
  let trimmedCurrent := trim (currentContent hunk) in
  let trimmedIncoming := trim (incomingContent hunk) in
  if isEmpty trimmedCurrent || isEmpty trimmedIncoming then true
  else if bool_decide (trimmedCurrent = trimmedIncoming) then true
  else
    let normalizedCurrent := collapseSpaces trimmedCurrent in
    let normalizedIncoming := collapseSpaces trimmedIncoming in
    if bool_decide (normalizedCurrent = normalizedIncoming) then true
    else
      let currentLines := splitLines (currentContent hunk) in
      let incomingLines := splitLines (incomingContent hunk) in
      if isSubsetLines currentLines incomingLines
         || isSubsetLines incomingLines currentLines then true
      else if isLikelyList currentLines && isLikelyList incomingLines then true
      else if isKeyValueBlock currentLines && isKeyValueBlock incomingLines
      then true
      else false.

Definition canAutoResolveContent (hunks : list ConflictHunk) : bool :=
  forallb isSimpleContentPattern hunks.

(** [analyzeFileConflict(filePath)], given the text that [fs.readFile]
    returned for the file. *)
Definition analyzeFileConflict (filePath content : string) : GitConflict :=
  let hunks := Parser.parseConflictHunks content in
  let type := detectConflictType filePath content in
  let complexity := determineOverallComplexity hunks in
  let baseAutoResolvable := Shared.isAutoResolvable type complexity in
  let contentAutoResolvable :=
    if bool_decide (type = CONTENT) && negb (bool_decide (complexity = COMPLEX))
    then canAutoResolveContent hunks
    else false in
  {| file := filePath;
     type := type;
     hunks := hunks;
     complexity := complexity;
     explanation :=
       Some (Shared.generateConflictExplanation type filePath
               (join NL (currentContent <$> hunks))
               (join NL (incomingContent <$> hunks)));
     autoResolvable := baseAutoResolvable || contentAutoResolvable |}.

End Analyzer.


(** ** Effects

    A call that may throw returns an [Outcome].  The thrown value is kept
    as the text [String(error)] gives for it, which is what the resolver
    interpolates into its report: ["Error: " + message] for an [Error]. *)

Definition exn : Set := string.

Inductive Outcome (A : Type) : Type :=
  | Ok (a : A)
  | Throw (e : exn).

Arguments Ok {A} a.
Arguments Throw {A} e.

(** ** Plugin interface (plugins/types.ts) *)

Module Plugin.

Record ConflictResolutionContext : Type := {
  repoPath : string;
  readFile : string → Outcome string;
}.

Record PluginResolution : Set := {
  content : string;
  notes : option (list string);
}.

Record ConflictResolutionPlugin : Type := {
  name : string;
  priority : option Z;
  supports : GitConflict → bool;
  resolve : GitConflict → ConflictResolutionContext
            → Outcome (option PluginResolution);
}.

End Plugin.

(** ** Replacing a conflict span

    Both the builtin plugins and the fallback replace a hunk with
    [text.replace(new RegExp(escapeRegExp(start) + "[\\s\\S]*?"
    + escapeRegExp(end), 's'), replacement)]. *)

Module Span.
Import Js.

(** The replacement is a string, so [replace] expands its dollar patterns.
    The expression has no capture group: only [$$], [$&], [$`] and [$']
    are special, and any other dollar sign stands for itself. *)
Fixpoint substitute (matched before after replacement : string) : string :=
  match replacement with
  | "" => ""
  | String "$" (String "$" rest) =>
      "$" +:+ substitute matched before after rest
  | String "$" (String "&" rest) =>
      matched +:+ substitute matched before after rest
  | String "$" (String "`" rest) =>
      before +:+ substitute matched before after rest
  | String "$" (String "'" rest) =>
      after +:+ substitute matched before after rest
  | String c rest => String c (substitute matched before after rest)
  end.

(** The escaped markers match themselves, and the lazy middle stops at the
    first occurrence of the end marker after the start marker.  If no end
    marker follows the first start marker, none follows a later one, and
    the text is returned as it is. *)
Definition replaceSpan (text startMarker endMarker replacement : string)
    : string :=
  match cut text startMarker with
  | None => text
  | Some (before, afterStart) =>
      match cut afterStart endMarker with
      | None => text
      | Some (middle, after) =>
          let matched := startMarker +:+ middle +:+ endMarker in
          before +:+ substitute matched before after replacement +:+ after
      end
  end.

End Span.

(** ** Array.prototype.sort

    The sort is stable (ECMAScript 2019).  With a consistent comparator its
    result is determined; stable insertion computes it. *)

Module JsArray.

Section Sort.
Context {A : Type} (compare : A → A → Z).

Fixpoint insertSorted (x : A) (sorted : list A) : list A :=
  match sorted with
  | [] => [x]
  | y :: rest =>
      if (compare x y <=? 0)%Z then x :: y :: rest
      else y :: insertSorted x rest
  end.

Fixpoint sort (xs : list A) : list A :=
  match xs with
  | [] => []
  | x :: rest => insertSorted x (sort rest)
  end.

End Sort.

End JsArray.

(** ** Builtin plugins (plugins/builtin.ts) *)

Module Builtin.
Import Js Lines.

(** [hunk.conflictMarkers] spans are replaced one hunk after the other.
    The replacers of the source take the index of the hunk and begin by
    reading [conflict.hunks[index]]; here they are given that hunk.  A
    replacer may throw. *)
Fixpoint replaceEach (replacer : ConflictHunk → Outcome string)
    (hs : list ConflictHunk) (resolvedContent : string) : Outcome string :=
  match hs with
  | [] => Ok resolvedContent
  | hunk :: rest =>
      match replacer hunk with
      | Throw e => Throw e
      | Ok replacement =>
          replaceEach replacer rest
            (Span.replaceSpan resolvedContent
               (m_start (conflictMarkers hunk)) (m_end (conflictMarkers hunk))
               replacement)
      end
  end.

Definition replaceConflictBlocks (conflict : GitConflict)
    (context : Plugin.ConflictResolutionContext)
    (replacer : ConflictHunk → Outcome string) : Outcome string :=
  match Plugin.readFile context (file conflict) with
  | Throw e => Throw e
  | Ok content => replaceEach replacer (hunks conflict) content
  end.

(** [.replace(/\t/g, '  ')] *)
Fixpoint expandTabs (s : string) : string :=
  match s with
  | "" => ""
  | String c s' =>
      if Ascii.eqb c TAB then String SPACE (String SPACE (expandTabs s'))
      else String c (expandTabs s')
  end.

Fixpoint copies (c : ascii) (n : nat) (s : string) : string :=
  match n with
  | 0 => s
  | S n' => String c (copies c n' s)
  end.

(** [.replace(/[ ]+$/gm, '')]: a maximal run of spaces goes when a line
    terminator or the end of the text follows it.  [pending] counts the
    spaces of the current run. *)
Fixpoint stripTrailingSpaces (pending : nat) (s : string) : string :=
  match s with
  | "" => ""
  | String c s' =>
      if Ascii.eqb c SPACE then stripTrailingSpaces (S pending) s'
      else if isLineTerminator c then String c (stripTrailingSpaces 0 s')
      else copies SPACE pending (String c (stripTrailingSpaces 0 s'))
  end.

(** [.replace(/\n{3,}/g, '\n\n')]: a maximal run of three or more line
    feeds becomes two.  [run] counts the line feeds of the current run. *)
Fixpoint squeezeBlankLines (run : nat) (s : string) : string :=
  match s with
  | "" => copies LF (run `min` 2) ""
  | String c s' =>
      if Ascii.eqb c LF then squeezeBlankLines (S run) s'
      else copies LF (run `min` 2) (String c (squeezeBlankLines 0 s'))
  end.

Definition normalizeWhitespace (content : string) : string :=
  squeezeBlankLines 0 (stripTrailingSpaces 0 (expandTabs content)).

Definition extractImports (content : string) : list string :=
  let lines := splitLines content in
  let trimmedLines := trim <$> lines in
  filter (λ trimmed,
            startsWith trimmed "import "
            || (startsWith trimmed "const " && includes trimmed "require(")
            = true)
    trimmedLines.

(** The loop of [mergeImports] over [[...current, ...incoming]]. *)
Fixpoint mergeSeen (imports : list string) (seen : gset string)
    (merged : list string) : list string :=
  match imports with
  | [] => merged
  | imp :: rest =>
      let normalized := trim (collapseSpaces imp) in
      if bool_decide (normalized ∈ seen) then mergeSeen rest seen merged
      else mergeSeen rest ({[ normalized ]} ∪ seen) (merged ++ [imp])
  end.

Definition mergeImports (current incoming : list string) : list string :=
  mergeSeen (current ++ incoming) ∅ [].

(** [String.prototype.localeCompare] belongs to the host and depends on its
    locale; the import sorter is stated for any such comparison. *)
Definition importOrder (localeCompare : string → string → Z)
    (a b : string) : Z :=
  let aIsExternal := negb (includes a "./") && negb (includes a "../") in
  let bIsExternal := negb (includes b "./") && negb (includes b "../") in
  if aIsExternal && negb bIsExternal then (-1)%Z
  else if negb aIsExternal && bIsExternal then 1%Z
  else localeCompare a b.

Definition sortImports (localeCompare : string → string → Z)
    (imports : list string) : list string :=
  JsArray.sort (importOrder localeCompare) imports.

(** [pushLine] of [mergeListLines], folded over the lines. *)
Fixpoint pushLines (lines : list string) (seen : gset string)
    (merged : list string) : gset string * list string :=
  match lines with
  | [] => (seen, merged)
  | line :: rest =>
      if isEmpty (trim line) then pushLines rest seen (merged ++ [line])
      else
        let normalized := trim line in
        if bool_decide (normalized ∈ seen) then pushLines rest seen merged
        else pushLines rest ({[ normalized ]} ∪ seen) (merged ++ [trimEnd line])
  end.

Definition mergeListLines (currentLines incomingLines : list string) : string :=
  let '(seen, merged) := pushLines currentLines ∅ [] in
  let '(_, merged) := pushLines incomingLines seen merged in
  join NL merged.

Record KeyValueEntry : Set := {
  key : string;
  prefix : string;
  value : string;
  suffix : string;
  line : string;
  raw : bool;
}.

Fixpoint takeWhile (p : ascii → bool) (s : string) : string :=
  match s with
  | "" => ""
  | String c s' => if p c then String c (takeWhile p s') else ""
  end.

Definition takeOptionalQuote (s : string) : string :=
  match s with
  | String c _ => if Re.isQuote c then String c "" else ""
  | "" => ""
  end.

(** [\s*,?\s*] up to the end of the text. *)
Definition isSuffixText (s : string) : bool :=
  match trimStart s with
  | "" => true
  | String c s' => Ascii.eqb c "," && isEmpty (trimStart s')
  end.

(** The lazy value group followed by the suffix group and [$]: the value is
    the shortest text, free of line terminators, that leaves a suffix. *)
Fixpoint splitValue (rest : string) : option (string * string) :=
  if isSuffixText rest then Some ("", rest)
  else match rest with
       | "" => None
       | String c rest' =>
           if isLineTerminator c then None
           else match splitValue rest' with
                | Some (v, s) => Some (String c v, s)
                | None => None
                end
       end.

(** The two matches of [parseKeyValueLine].  The first has three groups:
    the prefix (white space, an optional quote, one or more key characters
    [\w], [.] or [-], an optional quote, white space, [:] or [=], white
    space), the lazy value and the suffix.  The second takes the key out of
    the prefix: its group is the run of key characters. *)
Definition parseKeyValueLine (line : string) : option KeyValueEntry :=
  let ws1 := takeWhile isWhiteSpace line in
  let s1 := Re.dropWhile isWhiteSpace line in
  let q1 := takeOptionalQuote s1 in
  let s2 := Re.dropOptionalQuote s1 in
  let k := takeWhile Re.isKeyChar s2 in
  let s3 := Re.dropWhile Re.isKeyChar s2 in
  let q2 := takeOptionalQuote s3 in
  let s4 := Re.dropOptionalQuote s3 in
  let ws2 := takeWhile isWhiteSpace s4 in
  let s5 := Re.dropWhile isWhiteSpace s4 in
  if isEmpty k then None
  else match s5 with
       | String a s6 =>
           if Re.isAssign a then
             let ws3 := takeWhile isWhiteSpace s6 in
             let rest := Re.dropWhile isWhiteSpace s6 in
             match splitValue rest with
             | Some (value, suffix) =>
                 Some {| key := k;
                         prefix := ws1 +:+ q1 +:+ k +:+ q2 +:+ ws2
                                   +:+ String a "" +:+ ws3;
                         value := value;
                         suffix := suffix;
                         line := line;
                         raw := false |}
             | None => None
             end
           else None
       | "" => None
       end.

Definition blankPrefix : string := "__blank__".

Definition blankEntry (placeholder line : string) : KeyValueEntry :=
  {| key := placeholder; prefix := ""; value := ""; suffix := "";
     line := line; raw := true |}.

(** [processLine]: [entries] is the Map, [order] the array of keys; [None]
    stands for the result [false]. *)
Definition processLine (line : string) (preferIncoming : bool)
    (st : gmap string KeyValueEntry * list string)
    : option (gmap string KeyValueEntry * list string) :=
  let '(entries, order) := st in
  if isEmpty (trim line) then
    let placeholder := blankPrefix +:+ pretty (length order) in
    match entries !! placeholder with
    | None =>
        Some (<[placeholder := blankEntry placeholder line]> entries,
              order ++ [placeholder])
    | Some _ =>
        if preferIncoming
        then Some (<[placeholder := blankEntry placeholder line]> entries, order)
        else Some (entries, order)
    end
  else
    match parseKeyValueLine line with
    | None => None
    | Some parsed =>
        match entries !! key parsed with
        | None => Some (<[key parsed := parsed]> entries, order ++ [key parsed])
        | Some _ =>
            if preferIncoming
            then Some (<[key parsed := parsed]> entries, order)
            else Some (entries, order)
        end
    end.

Fixpoint processLines (lines : list string) (preferIncoming : bool)
    (st : gmap string KeyValueEntry * list string)
    : option (gmap string KeyValueEntry * list string) :=
  match lines with
  | [] => Some st
  | line :: rest =>
      match processLine line preferIncoming st with
      | None => None
      | Some st' => processLines rest preferIncoming st'
      end
  end.

(** [suffix.replace(/,\s*$/, '')]: the first comma that only white space
    follows goes, with that white space. *)
Fixpoint dropTrailingComma (s : string) : string :=
  match s with
  | "" => ""
  | String c s' =>
      if Ascii.eqb c "," && isEmpty (trimStart s') then ""
      else String c (dropTrailingComma s')
  end.

Definition renderEntry (isJsonStyle : bool) (lastStructuredKey : option string)
    (entries : gmap string KeyValueEntry) (k : string) : string :=
  match entries !! k with
  | None => ""
  | Some entry =>
      if raw entry then line entry
      else
        let suffix0 := suffix entry in
        let suffix1 :=
          if isJsonStyle && negb (bool_decide (Some k = lastStructuredKey))
             && negb (endsWith (trim suffix0) ",")
          then trimEnd suffix0 +:+ ","
          else suffix0 in
        let suffix2 :=
          if isJsonStyle && bool_decide (Some k = lastStructuredKey)
             && endsWith (trim suffix1) ","
          then dropTrailingComma suffix1
          else suffix1 in
        trimEnd (prefix entry +:+ value entry +:+ suffix2)
  end.

(** [entry !== undefined && !entry.raw] *)
Definition isStructured (entries : gmap string KeyValueEntry) (k : string)
    : bool :=
  match entries !! k with
  | Some entry => negb (raw entry)
  | None => false
  end.

Definition mergeKeyValueLines (currentLines incomingLines : list string)
    : option string :=
  match processLines currentLines false (∅, []) with
  | None => None
  | Some st =>
      match processLines incomingLines true st with
      | None => None
      | Some (entries, order) =>
          let structuredKeys :=
            filter (λ k, isStructured entries k = true) order in
          let lastStructuredKey := last structuredKeys in
          let isJsonStyle :=
            existsb (λ k, match entries !! k with
                          | Some entry => includes (prefix entry) (String "034" "")
                          | None => false
                          end) structuredKeys in
          Some (join NL
                  (renderEntry isJsonStyle lastStructuredKey entries <$> order))
      end
  end.

(** [computeContentReplacement(conflict, hunkIndex)].  It is called with
    the indices of [conflict.hunks] only (from [every] and from
    [replaceConflictBlocks]), and reads nothing of the conflict but
    [conflict.hunks[hunkIndex]], which it is given here.  [None] is
    [undefined]. *)
Definition computeContentReplacement (hunk : ConflictHunk) : option string :=
  let trimmedCurrent := trim (currentContent hunk) in
  let trimmedIncoming := trim (incomingContent hunk) in
  if isEmpty trimmedCurrent && isEmpty trimmedIncoming then Some ""
  else if isEmpty trimmedCurrent then Some (incomingContent hunk)
  else if isEmpty trimmedIncoming then Some (currentContent hunk)
  else if bool_decide (trimmedCurrent = trimmedIncoming)
  then Some (currentContent hunk)
  else
    let normalizedCurrent := normalizeWhitespace trimmedCurrent in
    let normalizedIncoming := normalizeWhitespace trimmedIncoming in
    if bool_decide (normalizedCurrent = normalizedIncoming)
    then Some (normalizeWhitespace (currentContent hunk))
    else
      let currentLines := splitLines (currentContent hunk) in
      let incomingLines := splitLines (incomingContent hunk) in
      if isSubsetLines currentLines incomingLines
      then Some (join NL incomingLines)
      else if isSubsetLines incomingLines currentLines
      then Some (join NL currentLines)
      else if isLikelyList currentLines && isLikelyList incomingLines
      then Some (mergeListLines currentLines incomingLines)
      else if isKeyValueBlock currentLines && isKeyValueBlock incomingLines
      then mergeKeyValueLines currentLines incomingLines
      else None.

Definition whitespacePlugin : Plugin.ConflictResolutionPlugin :=
  {| Plugin.name := "whitespace-normalizer";
     Plugin.priority := Some 10%Z;
     Plugin.supports conflict := bool_decide (type conflict = WHITESPACE);
     Plugin.resolve conflict context :=
       match replaceConflictBlocks conflict context
               (λ hunk, Ok (normalizeWhitespace (incomingContent hunk))) with
       | Throw e => Throw e
       | Ok resolvedContent =>
           Ok (Some {| Plugin.content := resolvedContent;
                       Plugin.notes :=
                         Some ["Normalized whitespace differences"] |})
       end |}.

Definition importPlugin (localeCompare : string → string → Z)
    : Plugin.ConflictResolutionPlugin :=
  {| Plugin.name := "import-merge";
     Plugin.priority := Some 20%Z;
     Plugin.supports conflict := bool_decide (type conflict = IMPORT);
     Plugin.resolve conflict context :=
       match replaceConflictBlocks conflict context
               (λ hunk,
                  let currentImports := extractImports (currentContent hunk) in
                  let incomingImports := extractImports (incomingContent hunk) in
                  let mergedImports := mergeImports currentImports incomingImports in
                  let sortedImports := sortImports localeCompare mergedImports in
                  Ok (join NL sortedImports)) with
       | Throw e => Throw e
       | Ok resolvedContent =>
           Ok (Some {| Plugin.content := resolvedContent;
                       Plugin.notes :=
                         Some ["Merged and sorted import statements"] |})
       end |}.

(** [replacements] receives one entry per replacer call that returned, so
    after [replaceConflictBlocks] has returned it holds one entry per
    hunk. *)
Definition simpleContentPlugin : Plugin.ConflictResolutionPlugin :=
  {| Plugin.name := "simple-content-merge";
     Plugin.priority := Some 30%Z;
     Plugin.supports conflict :=
       if negb (bool_decide (type conflict = CONTENT)) then false
       else if bool_decide (complexity conflict = COMPLEX) then false
       else forallb (λ hunk, bool_decide (computeContentReplacement hunk ≠ None))
              (hunks conflict);
     Plugin.resolve conflict context :=
       match replaceConflictBlocks conflict context
               (λ hunk,
                  match computeContentReplacement hunk with
                  | None =>
                      Throw "Error: Simple content plugin could not compute replacement"
                  | Some replacement => Ok replacement
                  end) with
       | Throw e => Throw e
       | Ok resolvedContent =>
           let replacements := omap computeContentReplacement (hunks conflict) in
           let notes :=
             if length (hunks conflict) =? length replacements
             then ["Merged compatible content blocks"]
             else [] in
           Ok (Some {| Plugin.content := resolvedContent;
                       Plugin.notes := Some notes |})
       end |}.

Definition builtinPlugins (localeCompare : string → string → Z)
    : list Plugin.ConflictResolutionPlugin :=
  [ whitespacePlugin; importPlugin localeCompare; simpleContentPlugin ].

End Builtin.


(** ** Plugin registry (plugins/registry.ts)

    [registry] is a module-level [Map] from names to plugins.  A [Map]
    keeps its keys in insertion order, and [set] on a key that is present
    replaces the value where it stands: an association list in that
    order. *)

Module Registry.

Definition Registry : Type := list (string * Plugin.ConflictResolutionPlugin).

(** [map.set(k, v)] *)
Fixpoint mapSet {V : Type} (k : string) (v : V) (m : list (string * V))
    : list (string * V) :=
  match m with
  | [] => [(k, v)]
  | (k', v') :: rest =>
      if bool_decide (k' = k) then (k, v) :: rest
      else (k', v') :: mapSet k v rest
  end.

Definition registerConflictResolutionPlugin
    (plugin : Plugin.ConflictResolutionPlugin) (registry : Registry) : Registry :=
  mapSet (Plugin.name plugin) plugin registry.

(** [plugin.priority ?? 100] *)
Definition priorityOf (plugin : Plugin.ConflictResolutionPlugin) : Z :=
  default 100%Z (Plugin.priority plugin).

Definition byPriority (a b : Plugin.ConflictResolutionPlugin) : Z :=
  let priorityA := priorityOf a in
  let priorityB := priorityOf b in
  (priorityA - priorityB)%Z.

Definition getConflictResolutionPlugins (registry : Registry)
    : list Plugin.ConflictResolutionPlugin :=
  JsArray.sort byPriority (snd <$> registry).

End Registry.

(** ** The resolver (git/resolver.ts) *)

Module Resolver.
Import Js.

(** The part of the environment the resolver acts on: the files of the
    working tree by full path, the paths that cannot be written, and the
    paths staged in the index. *)
Record World : Type := {
  files : gmap string string;
  unwritable : gset string;
  staged : list string;
}.

(** An asynchronous method: it may read and change the world, and it
    returns or throws. *)
Definition Eff (A : Type) : Type := World → Outcome A * World.

Definition ret {A : Type} (a : A) : Eff A := λ w, (Ok a, w).

Definition throw {A : Type} (e : exn) : Eff A := λ w, (Throw e, w).

Definition bind {A B : Type} (m : Eff A) (k : A → Eff B) : Eff B :=
  λ w, match m w with
       | (Ok a, w') => k a w'
       | (Throw e, w') => (Throw e, w')
       end.

(** [try { m } catch (error) { handler }] *)
Definition tryCatch {A : Type} (m : Eff A) (handler : exn → Eff A) : Eff A :=
  λ w, match m w with
       | (Ok a, w') => (Ok a, w')
       | (Throw e, w') => handler e w'
       end.

Notation "'let*' x ':=' m 'in' k" := (bind m (λ x, k))
  (at level 10, x name, m at level 100, k at level 200).

Inductive Fallback : Set := incoming | current | both | none.

Global Instance Fallback_eq_dec : EqDecision Fallback.
Proof. solve_decision. Defined.

(** The text a template literal gives for a strategy. *)
Definition strategyName (s : Fallback) : string :=
  match s with
  | incoming => "incoming"
  | current => "current"
  | both => "both"
  | none => "none"
  end.

Record FallbackEntry : Set := {
  fa_file : string;
  fa_strategy : Fallback;
}.

Record ResolvedByEntry : Set := {
  rb_file : string;
  rb_plugin : string;
  rb_notes : option (list string);
}.

Record ResolutionResult : Set := {
  success : bool;
  resolvedFiles : list string;
  failedFiles : list string;
  errors : list string;
  fallbackApplied : list FallbackEntry;
  warnings : list string;
  notes : list string;
  resolvedBy : list ResolvedByEntry;
}.

(** What [runPlugins] returns when a plugin resolved the conflict. *)
Record PluginOutcome : Type := {
  o_content : string;
  o_plugin : Plugin.ConflictResolutionPlugin;
  o_notes : option (list string);
}.

(** The object [{ content: resolution.content, plugin, notes:
    resolution.notes }] that [runPlugins] returns when [plugin] answers
    with [resolution]. *)
Definition outcomeOf (plugin : Plugin.ConflictResolutionPlugin)
    (resolution : Plugin.PluginResolution) : PluginOutcome :=
  {| o_content := Plugin.content resolution;
     o_plugin := plugin;
     o_notes := Plugin.notes resolution |}.

(** [combineBothVersions]: [push] applied to a segment. *)
Definition pushSegment (segment : string)
    (st : gset string * list string) : gset string * list string :=
  let '(seen, segments) := st in
  if isEmpty (trim segment) then (seen, segments)
  else
    let normalized := trim (collapseSpaces segment) in
    if bool_decide (normalized ∈ seen) then (seen, segments)
    else ({[ normalized ]} ∪ seen, segments ++ [trimEnd segment]).

Definition combineBothVersions (hunk : ConflictHunk) : string :=
  let st := pushSegment (currentContent hunk) (∅, []) in
  let '(_, segments) := pushSegment (incomingContent hunk) st in
  if length segments =? 0 then ""
  else join NL segments.

(** The loop of [applyFallbackStrategy] over the hunks; [None] is the
    [return undefined] of the [default] case. *)
Fixpoint fallbackEach (strategy : Fallback) (hs : list ConflictHunk)
    (resolvedContent : string) : option string :=
  match hs with
  | [] => Some resolvedContent
  | hunk :: rest =>
      let replacement :=
        match strategy with
        | incoming => Some (incomingContent hunk)
        | current => Some (currentContent hunk)
        | both => Some (combineBothVersions hunk)
        | none => None
        end in
      match replacement with
      | None => None
      | Some replacement =>
          fallbackEach strategy rest
            (Span.replaceSpan resolvedContent
               (m_start (conflictMarkers hunk)) (m_end (conflictMarkers hunk))
               replacement)
      end
  end.

Section Instance.

(** [path.join] of the host, and the resolver's [repoPath]. *)
Variable pathJoin : string → string → string.
Variable repoPath : string.

Definition readError (fullPath : string) : exn :=
  "Error: ENOENT: no such file or directory, open '" +:+ fullPath +:+ "'".

Definition writeError (fullPath : string) : exn :=
  "Error: EACCES: permission denied, open '" +:+ fullPath +:+ "'".

Definition readFile (filePath : string) : Eff string :=
  λ w,
    let fullPath := pathJoin repoPath filePath in
    match files w !! fullPath with
    | Some text => (Ok text, w)
    | None => (Throw (readError fullPath), w)
    end.

(** The world once [content] is written at [filePath]. *)
Definition written (filePath content : string) (w : World) : World :=
  {| files := <[pathJoin repoPath filePath := content]> (files w);
     unwritable := unwritable w;
     staged := staged w |}.

Definition writeResolvedFile (filePath content : string) : Eff unit :=
  λ w,
    let fullPath := pathJoin repoPath filePath in
    if bool_decide (fullPath ∈ unwritable w) then (Throw (writeError fullPath), w)
    else (Ok tt, written filePath content w).

(** [git.add(file)] for each file. *)
Fixpoint stageResolvedFiles (fs : list string) : Eff unit :=
  match fs with
  | [] => ret tt
  | f :: rest =>
      let* _ := (λ w, (Ok tt, {| files := files w;
                                 unwritable := unwritable w;
                                 staged := staged w ++ [f] |})) in
      stageResolvedFiles rest
  end.

(** [createContext]: the context reads through the resolver, at the time
    of the call. *)
Definition createContext (w : World) : Plugin.ConflictResolutionContext :=
  {| Plugin.repoPath := repoPath;
     Plugin.readFile filePath := (readFile filePath w).1 |}.

Fixpoint runPlugins (conflict : GitConflict)
    (plugins : list Plugin.ConflictResolutionPlugin)
    : Eff (option PluginOutcome) :=
  match plugins with
  | [] => ret None
  | plugin :: rest =>
      if negb (Plugin.supports plugin conflict) then runPlugins conflict rest
      else
        let* resolution :=
          (λ w, (Plugin.resolve plugin conflict (createContext w), w)) in
        match resolution with
        | Some resolution =>
            ret (Some (outcomeOf plugin resolution))
        | None => runPlugins conflict rest
        end
  end.

Definition applyFallbackStrategy (conflict : GitConflict) (strategy : Fallback)
    : Eff (option string) :=
  let* content := readFile (file conflict) in
  ret (fallbackEach strategy (hunks conflict) content).

Definition emptyResult : ResolutionResult :=
  {| success := true;
     resolvedFiles := [];
     failedFiles := [];
     errors := [];
     fallbackApplied := [];
     warnings := [];
     notes := [];
     resolvedBy := [] |}.

(** The pushes of the plugin branch, lines 76-85. *)
Definition recordPlugin (conflict : GitConflict) (pluginOutcome : PluginOutcome)
    (result : ResolutionResult) : ResolutionResult :=
  {| success := success result;
     resolvedFiles := resolvedFiles result ++ [file conflict];
     failedFiles := failedFiles result;
     errors := errors result;
     fallbackApplied := fallbackApplied result;
     warnings := warnings result;
     notes :=
       notes result ++
       match o_notes pluginOutcome with
       | Some ns => (λ note, file conflict +:+ ": " +:+ note) <$> ns
       | None => []
       end;
     resolvedBy :=
       resolvedBy result ++
       [ {| rb_file := file conflict;
            rb_plugin := Plugin.name (o_plugin pluginOutcome);
            rb_notes := o_notes pluginOutcome |} ] |}.

Definition fallbackWarning (fallbackStrategy : Fallback) (f : string) : string :=
  "Applied fallback strategy " +:+ String "034" (strategyName fallbackStrategy)
  +:+ String "034" " to " +:+ f +:+ ". Review before committing.".

(** The pushes of the fallback branch, lines 98-103. *)
Definition recordFallback (conflict : GitConflict) (fallbackStrategy : Fallback)
    (result : ResolutionResult) : ResolutionResult :=
  {| success := success result;
     resolvedFiles := resolvedFiles result ++ [file conflict];
     failedFiles := failedFiles result;
     errors := errors result;
     fallbackApplied :=
       fallbackApplied result ++
       [ {| fa_file := file conflict; fa_strategy := fallbackStrategy |} ];
     warnings :=
       warnings result ++ [ fallbackWarning fallbackStrategy (file conflict) ];
     notes := notes result;
     resolvedBy := resolvedBy result |}.

Definition warningOf (entry : FallbackEntry) : string :=
  fallbackWarning (fa_strategy entry) (fa_file entry).

(** The entry of [resolvedBy] for a plugin outcome. *)
Definition resolvedByOf (conflict : GitConflict) (o : PluginOutcome)
    : ResolvedByEntry :=
  {| rb_file := file conflict;
     rb_plugin := Plugin.name (o_plugin o);
     rb_notes := o_notes o |}.

(** The pushes shared by the two failure paths. *)
Definition recordFailure (conflict : GitConflict) (message : string)
    (result : ResolutionResult) : ResolutionResult :=
  {| success := false;
     resolvedFiles := resolvedFiles result;
     failedFiles := failedFiles result ++ [file conflict];
     errors := errors result ++ [message];
     fallbackApplied := fallbackApplied result;
     warnings := warnings result;
     notes := notes result;
     resolvedBy := resolvedBy result |}.

Definition noStrategyMessage (f : string) : string :=
  "No automated strategy matched " +:+ f +:+ ".".

Definition failedMessage (f : string) (error : exn) : string :=
  "Failed to resolve " +:+ f +:+ ": " +:+ error.

(** A string is truthy when it is not empty. *)
Definition truthy (s : string) : bool := negb (isEmpty s).

(** The body of the [try] block for one conflict, lines 69-111.  [result]
    is the object built so far; the block changes it only after its last
    call that can throw, so a handler sees it as it was when the
    iteration began. *)
Definition tryResolve (plugins : list Plugin.ConflictResolutionPlugin)
    (dryRun : bool) (fallbackStrategy : option Fallback)
    (conflict : GitConflict) (result : ResolutionResult)
    : Eff ResolutionResult :=
  let* pluginOutcome := runPlugins conflict plugins in
  match pluginOutcome with
  | Some pluginOutcome =>
      let* _ :=
        (if negb dryRun
         then writeResolvedFile (file conflict) (o_content pluginOutcome)
         else ret tt) in
      ret (recordPlugin conflict pluginOutcome result)
  | None =>
      let noMatch :=
        ret (recordFailure conflict (noStrategyMessage (file conflict)) result) in
      match fallbackStrategy with
      | Some fallbackStrategy =>
          let* fallbackContent := applyFallbackStrategy conflict fallbackStrategy in
          match fallbackContent with
          | Some fallbackContent =>
              if truthy fallbackContent then
                let* _ :=
                  (if negb dryRun
                   then writeResolvedFile (file conflict) fallbackContent
                   else ret tt) in
                ret (recordFallback conflict fallbackStrategy result)
              else noMatch
          | None => noMatch
          end
      | None => noMatch
      end
  end.

(** One iteration of the loop: the [try] block and its [catch]. *)
Definition resolveOne (plugins : list Plugin.ConflictResolutionPlugin)
    (dryRun : bool) (fallbackStrategy : option Fallback)
    (conflict : GitConflict) (result : ResolutionResult)
    : Eff ResolutionResult :=
  tryCatch (tryResolve plugins dryRun fallbackStrategy conflict result)
    (λ error,
       ret (recordFailure conflict (failedMessage (file conflict) error) result)).

Fixpoint resolveAll (plugins : list Plugin.ConflictResolutionPlugin)
    (dryRun : bool) (fallbackStrategy : option Fallback)
    (conflicts : list GitConflict) (result : ResolutionResult)
    : Eff ResolutionResult :=
  match conflicts with
  | [] => ret result
  | conflict :: rest =>
      let* result' := resolveOne plugins dryRun fallbackStrategy conflict result in
      resolveAll plugins dryRun fallbackStrategy rest result'
  end.

(** [fallback === 'none' ? undefined : fallback] *)
Definition strategyOf (fallback : Fallback) : option Fallback :=
  if bool_decide (fallback = none) then None else Some fallback.

(** [autoResolveConflicts(conflicts, dryRun, fallback)], with the content
    of the module-level registry at the time of the call. *)
Definition autoResolveConflicts (registry : Registry.Registry)
    (conflicts : list GitConflict) (dryRun : bool) (fallback : Fallback)
    : Eff ResolutionResult :=
  let result := emptyResult in
  let fallbackStrategy := strategyOf fallback in
  let plugins := Registry.getConflictResolutionPlugins registry in
  resolveAll plugins dryRun fallbackStrategy conflicts result.

(** *** One iteration, case by case

    The four ways an iteration of the loop can go, with the result object
    and the world it leaves: a plugin resolved the conflict; the fallback
    did; nothing matched; something threw and the handler ran. *)

Definition canWrite (dryRun : bool) (conflict : GitConflict) (w : World)
    : Prop :=
  dryRun = true ∨ pathJoin repoPath (file conflict) ∉ unwritable w.

Definition afterWrite (dryRun : bool) (conflict : GitConflict)
    (content : string) (w : World) : World :=
  if dryRun then w else written (file conflict) content w.

Inductive Step (plugins : list Plugin.ConflictResolutionPlugin)
    (dryRun : bool) (fallbackStrategy : option Fallback)
    (conflict : GitConflict) (result : ResolutionResult) (w : World)
    : ResolutionResult → World → Prop :=
  | ByPlugin o :
      runPlugins conflict plugins w = (Ok (Some o), w) →
      canWrite dryRun conflict w →
      Step plugins dryRun fallbackStrategy conflict result w
        (recordPlugin conflict o result)
        (afterWrite dryRun conflict (o_content o) w)
  | ByFallback s text :
      runPlugins conflict plugins w = (Ok None, w) →
      fallbackStrategy = Some s →
      applyFallbackStrategy conflict s w = (Ok (Some text), w) →
      truthy text = true →
      canWrite dryRun conflict w →
      Step plugins dryRun fallbackStrategy conflict result w
        (recordFallback conflict s result)
        (afterWrite dryRun conflict text w)
  | NoMatch :
      runPlugins conflict plugins w = (Ok None, w) →
      (fallbackStrategy = None
       ∨ ∃ s, fallbackStrategy = Some s
              ∧ (applyFallbackStrategy conflict s w = (Ok None, w)
                 ∨ applyFallbackStrategy conflict s w = (Ok (Some ""), w))) →
      Step plugins dryRun fallbackStrategy conflict result w
        (recordFailure conflict (noStrategyMessage (file conflict)) result) w
  | Thrown e :
      (tryResolve plugins dryRun fallbackStrategy conflict result w).1
      = Throw e →
      Step plugins dryRun fallbackStrategy conflict result w
        (recordFailure conflict (failedMessage (file conflict) e) result) w.

(** A plugin is local to a conflict when its answer depends on the
    conflicted file only, not on the other files the context can read. *)
Definition localTo (plugin : Plugin.ConflictResolutionPlugin)
    (conflict : GitConflict) : Prop :=
  ∀ w1 w2,
    files w1 !! pathJoin repoPath (file conflict)
    = files w2 !! pathJoin repoPath (file conflict) →
    Plugin.resolve plugin conflict (createContext w1)
    = Plugin.resolve plugin conflict (createContext w2).

(** Two worlds that differ at the conflicted file at most. *)
Definition sameElsewhere (conflict : GitConflict) (w w' : World) : Prop :=
  unwritable w' = unwritable w
  ∧ staged w' = staged w
  ∧ ∀ path, path ≠ pathJoin repoPath (file conflict) →
      files w' !! path = files w !! path.

(** The claim that an exception leaves the run: the run throws [e]. *)
Definition propagates {A : Type} (m : Eff A) (w : World) (e : exn) : Prop :=
  (m w).1 = Throw e.

End Instance.

(** How a result accounts for the conflicts [seen]: every fallback entry
    has its warning and there is no other warning; the fallback entries
    carry the strategy of the run; the resolved files are those of the
    plugin entries and of the fallback entries; and each conflict is in
    exactly one of [resolvedBy], [fallbackApplied] and [failedFiles]. *)
Definition accounted (fallbackStrategy : option Fallback)
    (seen : list GitConflict) (r : ResolutionResult) : Prop :=
  warnings r = warningOf <$> fallbackApplied r
  ∧ Forall (λ e, fallbackStrategy = Some (fa_strategy e)) (fallbackApplied r)
  ∧ resolvedFiles r
    ≡ₚ (rb_file <$> resolvedBy r) ++ (fa_file <$> fallbackApplied r)
  ∧ (rb_file <$> resolvedBy r) ++ (fa_file <$> fallbackApplied r)
    ++ failedFiles r ≡ₚ file <$> seen.

(** The module-level state of resolver.ts and registry.ts. *)
Record ModuleState : Type := {
  registry : Registry.Registry;
  builtinsRegistered : bool;
}.

Definition initialState : ModuleState :=
  {| registry := []; builtinsRegistered := false |}.

Definition ensureBuiltinPluginsRegistered
    (localeCompare : string → string → Z) (st : ModuleState) : ModuleState :=
  if negb (builtinsRegistered st) then
    {| registry :=
         foldl (λ reg plugin, Registry.registerConflictResolutionPlugin plugin reg)
           (registry st) (Builtin.builtinPlugins localeCompare);
       builtinsRegistered := true |}
  else st.

(** [new ConflictResolver(repoPath)]: what the constructor does to the
    module-level state. *)
Definition construct (localeCompare : string → string → Z) (st : ModuleState)
    : ModuleState :=
  ensureBuiltinPluginsRegistered localeCompare st.

End Resolver.

(** ** Sample inputs *)

Module Samples.
Import Js.

(** One three-way region (diff3 style), as git writes it. *)
Definition threeWay : string :=
  join NL [ "<<<<<<< HEAD"; "a"; "||||||| base"; "b"; "======="; "c";
            ">>>>>>> other"; "" ].

(** The same file, as a layout. *)
Definition threeWayFile : Layout.ThreeWayFile :=
  {| Layout.t_gap := [];
     Layout.t_start := "<<<<<<< HEAD";
     Layout.t_current := ["a"];
     Layout.t_baseMarker := "||||||| base";
     Layout.t_base := ["b"];
     Layout.t_separator := "=======";
     Layout.t_incoming := ["c"];
     Layout.t_end := ">>>>>>> other";
     Layout.t_tail := [""] |}.

(** A three-way region followed by text and a two-way region. *)
Definition threeWayThenTwoWay : string :=
  join NL [ "<<<<<<< HEAD"; "a"; "||||||| base"; "b"; "======="; "c";
            ">>>>>>> other"; "x";
            "<<<<<<< HEAD"; "d"; "======="; "e"; ">>>>>>> other"; "" ].

(** Two two-way regions with text around them. *)
Definition twoWayFile : Layout.File :=
  ([ (["intro"],
      {| Layout.r_start := "<<<<<<< HEAD";
         Layout.r_current := ["a"];
         Layout.r_separator := "=======";
         Layout.r_incoming := ["c"; "d"];
         Layout.r_end := ">>>>>>> other" |});
     ([],
      {| Layout.r_start := "<<<<<<< HEAD";
         Layout.r_current := [];
         Layout.r_separator := "=======";
         Layout.r_incoming := ["e"];
         Layout.r_end := ">>>>>>> other" |}) ],
   ["outro"; ""]).

Definition twoWay : string := join NL (Layout.fileLines twoWayFile).

(** A file with one conflict: twenty-one lines [a] against the two lines
    [a], [b]. *)
Definition longContent : string :=
  join NL ([ "<<<<<<< HEAD" ] ++ replicate 21 "a"
           ++ [ "======="; "a"; "b"; ">>>>>>> feature"; "" ]).

(** A file whose two sides differ in spacing only. *)
Definition spacingContent : string :=
  join NL [ "<<<<<<< HEAD"; "a  b"; "======="; "a b"; ">>>>>>> feature"; "" ].

(** A file with a function on both sides. *)
Definition functionContent : string :=
  join NL [ "<<<<<<< HEAD"; "function area(r) {"; "  return 3 * r * r;"; "}";
            "======="; "function area(r) {"; "  return 4 * r * r;"; "}";
            ">>>>>>> feature"; "" ].

(** A file with two short notes. *)
Definition notesContent : string :=
  join NL [ "<<<<<<< HEAD"; "- milk"; "- eggs"; "======="; "- milk";
            "- bread"; ">>>>>>> feature"; "" ].

(** The sample files, analysed. *)
Definition spacingConflict : GitConflict :=
  Analyzer.analyzeFileConflict "a.txt" spacingContent.

Definition functionConflict : GitConflict :=
  Analyzer.analyzeFileConflict "area.js" functionContent.

Definition longConflict : GitConflict :=
  Analyzer.analyzeFileConflict "notes.txt" longContent.

Definition notesConflict : GitConflict :=
  Analyzer.analyzeFileConflict "list.md" notesContent.

Definition plainMarkers : ConflictMarkers :=
  {| m_start := "<<<<<<< HEAD"; m_separator := "=======";
     m_end := ">>>>>>> feature" |}.



Definition kvCurrent : list string := [ "a: 1,"; "b: 2," ].
Definition kvIncoming : list string := [ "b: 3,"; "c: 4," ].

(** The same entries with the first key in double quotes. *)
Definition jsonCurrent : list string :=
  [ String "034" "a" +:+ String "034" ": 1,"; "b: 2," ].

(** A host for the samples: paths joined with a slash, strings compared
    by code unit. *)
Definition joinPath (a b : string) : string := a +:+ "/" +:+ b.

Definition codeOrder (a b : string) : Z :=
  match String.compare a b with
  | Lt => (-1)%Z
  | Eq => 0%Z
  | Gt => 1%Z
  end.

(** The registry once a resolver has been constructed. *)
Definition builtinRegistry : Registry.Registry :=
  Resolver.registry (Resolver.construct codeOrder Resolver.initialState).

(** A working tree with the spacing file and the function file. *)
Definition twoFiles : Resolver.World :=
  {| Resolver.files :=
       {[ "/repo/a.txt" := spacingContent; "/repo/area.js" := functionContent ]};
     Resolver.unwritable := ∅;
     Resolver.staged := [] |}.

Definition twoConflicts : list GitConflict :=
  [ spacingConflict; functionConflict ].

(** A plugin that claims every conflict and then throws, with the message
    of the simple-content plugin. *)
Definition brokenPlugin : Plugin.ConflictResolutionPlugin :=
  {| Plugin.name := "broken";
     Plugin.priority := None;
     Plugin.supports _ := true;
     Plugin.resolve _ _ :=
       Throw "Error: Simple content plugin could not compute replacement" |}.

Definition brokenRegistry : Registry.Registry :=
  Registry.registerConflictResolutionPlugin brokenPlugin builtinRegistry.

(** A second plugin for whitespace conflicts, of priority 20. *)
Definition keepCurrentPlugin : Plugin.ConflictResolutionPlugin :=
  {| Plugin.name := "keep-current";
     Plugin.priority := Some 20%Z;
     Plugin.supports conflict := bool_decide (type conflict = WHITESPACE);
     Plugin.resolve conflict context :=
       match Builtin.replaceConflictBlocks conflict context
               (λ hunk, Ok (currentContent hunk)) with
       | Throw e => Throw e
       | Ok resolvedContent =>
           Ok (Some {| Plugin.content := resolvedContent;
                       Plugin.notes := None |})
       end |}.

Definition twoWhitespaceRegistry : Registry.Registry :=
  Registry.registerConflictResolutionPlugin keepCurrentPlugin builtinRegistry.

(** A file that is one conflict and nothing else, with an empty incoming
    side and no line feed after the end marker. *)
Definition emptiedContent : string :=
  join NL [ "<<<<<<< HEAD"; "class A {}"; "======="; ">>>>>>> theirs" ].

Definition emptiedConflict : GitConflict :=
  Analyzer.analyzeFileConflict "a.ts" emptiedContent.

Definition emptiedWorld : Resolver.World :=
  {| Resolver.files := {[ "/repo/a.ts" := emptiedContent ]};
     Resolver.unwritable := ∅;
     Resolver.staged := [] |}.

(** The run over the spacing conflict alone, with the broken plugin
    registered: its result and the world it leaves. *)
Definition spacingRun : Outcome Resolver.ResolutionResult * Resolver.World :=
  Resolver.resolveAll joinPath "/repo"
    (Registry.getConflictResolutionPlugins brokenRegistry) false
    (Resolver.strategyOf Resolver.current) [spacingConflict]
    Resolver.emptyResult twoFiles.

Definition afterSpacingResult : Resolver.ResolutionResult :=
  match spacingRun.1 with
  | Ok r => r
  | Throw _ => Resolver.emptyResult
  end.

Definition afterSpacing : Resolver.World := spacingRun.2.

(** What the whitespace plugin answers for the spacing conflict. *)
Definition spacingResolution : Plugin.PluginResolution :=
  {| Plugin.content := join NL [ "a b"; "" ];
     Plugin.notes := Some [ "Normalized whitespace differences" ] |}.

(** A region that is opened and separated, and never closed. *)
Definition unterminated : string :=
  join NL [ "intro"; "<<<<<<< HEAD"; "a"; "======="; "b"; "" ].

(** A context in which every file reads as [notesContent]. *)
Definition notesContext : Plugin.ConflictResolutionContext :=
  {| Plugin.repoPath := "/repo";
     Plugin.readFile _ := Ok notesContent |}.

Definition someImports : list string :=
  [ "import b from './b'"; "import a from 'a'"; "import c from '../c'";
    "import z from 'z'" ].

(** A line of a settings file, and the text its conflict block stands
    in. *)
Definition settingLine : string := "  name = smugit ,".

Definition blockText : string :=
  join NL [ "x"; "<<<<<<< HEAD"; "a"; "======="; "b"; ">>>>>>> other"; "y" ].

(** A commit message with a description of more than fifty characters. *)
Definition longMessage : string :=
  "fix(parser): keep the separator line of a region that has a base section".


(** A hunk whose incoming side adds a line to the current side. *)
Definition growingHunk : ConflictHunk :=
  {| startLine := 1; endLine := 6; baseContent := "";
     currentContent := "alpha";
     incomingContent := join NL [ "  alpha"; "beta" ];
     conflictMarkers := plainMarkers |}.

(** The working tree of [twoFiles] with the spacing file write-protected. *)
Definition readOnlyFiles : Resolver.World :=
  {| Resolver.files := Resolver.files twoFiles;
     Resolver.unwritable := {[ "/repo/a.txt" ]};
     Resolver.staged := [] |}.

End Samples.

(** ** The auto-resolvability table, as stated

    The table of the specification, read on an analysed conflict: true for
    (TRIVIAL, WHITESPACE) and for (SIMPLE, STRUCTURAL); for (COMPLEX,
    CONTENT) true exactly when every hunk passes the simple-content test. *)

Definition statedTable (c : GitConflict) : Prop :=
  (complexity c = TRIVIAL → type c = WHITESPACE → autoResolvable c = true)
  ∧ (complexity c = SIMPLE → type c = STRUCTURAL → autoResolvable c = true)
  ∧ (type c = CONTENT → complexity c = COMPLEX →
     autoResolvable c = Analyzer.canAutoResolveContent (hunks c)).

(** ** The two merge rules, as stated *)


(** The keys and the value of a key in a merged block, read back with the
    parser of the merge itself. *)
Definition keysOf (text : string) : list string :=
  Builtin.key <$> omap Builtin.parseKeyValueLine (Js.splitLines text).

Definition valueOf (k text : string) : option string :=
  Builtin.value <$>
    head (filter (λ e, Builtin.key e = k)
            (omap Builtin.parseKeyValueLine (Js.splitLines text))).

Definition endsWithComma (l : string) : Prop := Js.endsWith l "," = true.

(** The key-value example as the specification words it: keys a, b, c;
    b is 3; every line but the last ends with a comma and the last does
    not. *)
Definition statedKeyValueMerge (merged : option string) : Prop :=
  ∃ text, merged = Some text
    ∧ keysOf text = ["a"; "b"; "c"]
    ∧ valueOf "b" text = Some "3"
    ∧ (∀ i l, Js.splitLines text !! i = Some l →
         i + 1 < length (Js.splitLines text) → endsWithComma l)
    ∧ (∀ l, last (Js.splitLines text) = Some l → ¬ endsWithComma l).

(** ** What is asked of parsed hunks *)

Module HunkShape.
Import Js.

(** The three markers of a hunk are marker lines. *)
Definition markersPrefixed (h : ConflictHunk) : Prop :=
  startsWith (m_start (conflictMarkers h)) "<<<<<<<" = true
  ∧ startsWith (m_separator (conflictMarkers h)) "=======" = true
  ∧ startsWith (m_end (conflictMarkers h)) ">>>>>>>" = true.

(** Hunks in the order of the file, none reaching into the next. *)
Definition inOrder (hs : list ConflictHunk) : Prop :=
  StronglySorted (λ a b, endLine a < startLine b) hs.

(** A hunk lies inside a file of [n] lines and spans three lines at
    least. *)
Definition within (n : nat) (h : ConflictHunk) : Prop :=
  1 ≤ startLine h ∧ startLine h + 2 ≤ endLine h ∧ endLine h ≤ n.

End HunkShape.

(** ** Vocabulary of the further properties *)

(** A text that does not end in white space. *)
Definition endsClean (s : string) : Prop :=
  match String.rev s with
  | String c _ => Js.isWhiteSpace c = false
  | "" => True
  end.

(** The hunk with its two sides exchanged. *)
Definition swapSides (h : ConflictHunk) : ConflictHunk :=
  {| startLine := startLine h;
     endLine := endLine h;
     baseContent := baseContent h;
     currentContent := incomingContent h;
     incomingContent := currentContent h;
     conflictMarkers := conflictMarkers h |}.

(** The complexity [determineOverallComplexity] computes for one hunk. *)
Definition hunkComplexity (h : ConflictHunk) : ConflictComplexity :=
  Shared.analyzeConflictComplexity (currentContent h) (incomingContent h).

(** The complexities from least to greatest. *)
Definition rank (c : ConflictComplexity) : nat :=
  match c with
  | TRIVIAL => 0
  | SIMPLE => 1
  | MODERATE => 2
  | COMPLEX => 3
  end.

(** What [mergeImports] compares imports by: the import with its runs of
    white space collapsed, trimmed. *)
Definition importKey (imp : string) : string :=
  Js.trim (Js.collapseSpaces imp).

(** An import that [sortImports] counts as external: it contains neither
    [./] nor [../]. *)
Definition isExternal (imp : string) : bool :=
  negb (Js.includes imp "./") && negb (Js.includes imp "../").

(** A comparison function the sort can rely on: equal arguments compare
    equal, exchanging the arguments reverses the outcome, and "not after"
    is transitive. *)
Definition consistent {A : Type} (compare : A → A → Z) : Prop :=
  (∀ a, compare a a = 0%Z)
  ∧ (∀ a b, (0 < compare a b)%Z → (compare b a < 0)%Z)
  ∧ (∀ a b, (compare a b < 0)%Z → (0 < compare b a)%Z)
  ∧ (∀ a b c, (compare a b ≤ 0)%Z → (compare b c ≤ 0)%Z → (compare a c ≤ 0)%Z).

(** The three passes of [normalizeWhitespace], started in any state of
    the last two. *)
Definition passes (run pending : nat) (s : string) : string :=
  Builtin.squeezeBlankLines run
    (Builtin.stripTrailingSpaces pending (Builtin.expandTabs s)).

(** The line [mergeListLines] pushes for a line it keeps: a blank line as
    it is, any other line without its trailing white space. *)
Definition keptLine (line : string) : string :=
  if Js.isEmpty (Js.trim line) then line else Js.trimEnd line.

(** A line that is empty once trimmed. *)
Definition blank (line : string) : Prop := Js.isEmpty (Js.trim line) = true.

Global Instance blank_dec line : Decision (blank line).
Proof. unfold blank. apply _. Defined.

(** No line feed in the text. *)
Definition oneLine (s : string) : Prop := Js.includes s Js.NL = false.

(** A plugin passes a conflict on when it does not support it or
    declines it. *)
Definition passesOn (context : Plugin.ConflictResolutionContext)
    (conflict : GitConflict) (plugin : Plugin.ConflictResolutionPlugin)
    : Prop :=
  Plugin.supports plugin conflict = false
  ∨ Plugin.resolve plugin conflict context = Ok None.

(** Every plugin of the registry is filed under its own name, and no
    name is filed twice. *)
Definition keyed (registry : Registry.Registry) : Prop :=
  Forall (λ entry, entry.1 = Plugin.name entry.2) registry
  ∧ NoDup registry.*1.

(** ** Commit helpers (shared utils.ts) *)

Module Commits.
Import Js.

(** A group of alternatives followed by [next], at the start of the text:
    what follows the first alternative that fits.  In both uses below no
    alternative followed by [next] is the beginning of another, so at
    most one alternative fits and the order does not matter. *)
Fixpoint afterFirst (alternatives : list string) (next s : string)
    : option string :=
  match alternatives with
  | [] => None
  | a :: rest =>
      if startsWith s (a +:+ next)
      then Some (drop (String.length (a +:+ next)) s)
      else afterFirst rest next s
  end.

Definition notDash (c : ascii) : bool := negb (Ascii.eqb c "-").

Definition scopePrefixes : list string :=
  [ "feature"; "feat"; "fix"; "hotfix"; "bugfix" ].

(** The first pattern of [extractScopeFromBranch]: one of the prefixes, a
    slash, and the group, the longest run of characters other than [-],
    which must not be empty. *)
Definition prefixedScope (branchName : string) : option string :=
  match afterFirst scopePrefixes "/" branchName with
  | Some rest =>
      let scope := Builtin.takeWhile notDash rest in
      if isEmpty scope then None else Some scope
  | None => None
  end.

(** The second pattern: the text before the first slash, which must not
    be empty. *)
Definition leadingSegment (branchName : string) : option string :=
  match cut branchName "/" with
  | Some (segment, _) => if isEmpty segment then None else Some segment
  | None => None
  end.

(** [None] is [undefined]. *)
Definition extractScopeFromBranch (branchName : string) : option string :=
  match prefixedScope branchName with
  | Some scope => Some scope
  | None => leadingSegment branchName
  end.

Definition commitTypes : list string :=
  [ "feat"; "fix"; "docs"; "style"; "refactor"; "test"; "chore" ].

(** A colon, a space and [.{1,50}]: one character at least that is not a
    line terminator.  The pattern is not anchored at its end, so nothing
    is asked of what follows. *)
Definition colonDescription (s : string) : bool :=
  match s with
  | String ":" (String " " (String c _)) => negb (isLineTerminator c)
  | _ => false
  end.

(** The scope group after its opening parenthesis: one character or more,
    none a line terminator, then a closing parenthesis that the colon part
    follows.  [test] asks whether some closing parenthesis will do;
    [seen] tells that a character of the scope has been read. *)
Fixpoint scopeThenColon (seen : bool) (s : string) : bool :=
  (seen && match s with
           | String ")" rest => colonDescription rest
           | _ => false
           end)
  || match s with
     | "" => false
     | String c s' => negb (isLineTerminator c) && scopeThenColon true s'
     end.

Definition isValidConventionalCommit (message : string) : bool :=
  match afterFirst commitTypes "" message with
  | Some rest =>
      colonDescription rest
      || match rest with
         | String "(" inner => scopeThenColon false inner
         | _ => false
         end
  | None => false
  end.

End Commits.


(** ** A conflict evaluated in a given working tree

    What an iteration of [autoResolveConflicts] computes for a conflict
    when the working tree is [w]: the outcome of the first plugin that
    answers, if one does; otherwise, whether the fallback strategy gives
    a text that is not empty. *)

Section Evaluated.
Variable pathJoin : string → string → string.
Variable repoPath : string.
Variable plugins : list Plugin.ConflictResolutionPlugin.
Variable fallbackStrategy : option Resolver.Fallback.
Variable w : Resolver.World.

Definition pluginAnswer (conflict : GitConflict)
    : option Resolver.PluginOutcome :=
  match (Resolver.runPlugins pathJoin repoPath conflict plugins w).1 with
  | Ok (Some o) => Some o
  | _ => None
  end.

Definition fallbackAnswers (conflict : GitConflict) : bool :=
  match (Resolver.runPlugins pathJoin repoPath conflict plugins w).1,
        fallbackStrategy with
  | Ok None, Some s =>
      match (Resolver.applyFallbackStrategy pathJoin repoPath conflict s w).1
      with
      | Ok (Some text) => Resolver.truthy text
      | _ => false
      end
  | _, _ => false
  end.

Definition resolvedIn (conflict : GitConflict) : bool :=
  match pluginAnswer conflict with
  | Some _ => true
  | None => fallbackAnswers conflict
  end.

End Evaluated.

(** C7 as the specification words it: the dry run returns, lists in
    [resolvedFiles] what the run that is not dry lists there, and leaves
    the conflicted files and the index as they were. *)
Definition statedDryRun (pathJoin : string → string → string)
    (repoPath : string) (registry : Registry.Registry)
    (conflicts : list GitConflict) (fallback : Resolver.Fallback)
    (w : Resolver.World) : Prop :=
  ∃ dry real wd wr,
    Resolver.autoResolveConflicts pathJoin repoPath registry conflicts true
      fallback w = (Ok dry, wd)
    ∧ Resolver.autoResolveConflicts pathJoin repoPath registry conflicts false
        fallback w = (Ok real, wr)
    ∧ Resolver.resolvedFiles dry = Resolver.resolvedFiles real
    ∧ Resolver.staged wd = Resolver.staged w
    ∧ ∀ c, c ∈ conflicts →
        Resolver.files wd !! pathJoin repoPath (file c)
        = Resolver.files w !! pathJoin repoPath (file c).

(** ** Elements kept by position

    [idx] lists, in increasing order, the positions of [l] at which the
    element is kept, where [keep earlier x] tells whether [x] is kept
    after the elements [earlier]; [elementsAt l idx] are the elements at
    these positions. *)

Definition keptPositions {A : Type} (keep : list A → A → Prop)
    (l : list A) (idx : list nat) : Prop :=
  StronglySorted lt idx
  ∧ ∀ i, i ∈ idx ↔ ∃ x, l !! i = Some x ∧ keep (take i l) x.

Definition elementsAt {A : Type} (l : list A) (idx : list nat) : list A :=
  omap (λ i, l !! i) idx.

(* ================================================================== *)
(** * Properties *)
(* ================================================================== *)

(** ** The parser on well-formed two-way layouts *)

(** ** The primitives on small inputs *)

Section Primitives.
Import Js.

Example splitLines_trailing : splitLines (join NL ["a"; "b"; ""]) = ["a"; "b"; ""].
Proof. reflexivity. Qed.

Example splitLines_empty : splitLines "" = [""].
Proof. reflexivity. Qed.

Example trim_both_ends :
  trim (String TAB " a  b " +:+ NL) = "a  b".
Proof. reflexivity. Qed.

Example collapseSpaces_runs :
  collapseSpaces (" a" +:+ NL +:+ String TAB "b  c ") = " a b c ".
Proof. reflexivity. Qed.

Example cut_first : cut "x<<a>>y<<b>>" "<<" = Some ("x", "a>>y<<b>>").
Proof. reflexivity. Qed.

Example replaceSpan_first_span :
  Span.replaceSpan "x<<a>>y<<b>>" "<<" ">>" "R" = "xRy<<b>>".
Proof. reflexivity. Qed.

Example replaceSpan_dollar_patterns :
  Span.replaceSpan "x<<a>>y" "<<" ">>" "[$&|$`|$'|$$|$1]" = "x[<<a>>|x|y|$|$1]y".
Proof. reflexivity. Qed.

Example replaceSpan_no_end : Span.replaceSpan "x<<a" "<<" ">>" "R" = "x<<a".
Proof. reflexivity. Qed.

Example normalizeWhitespace_example :
  Builtin.normalizeWhitespace
    (String "a" (String TAB "b  ") +:+ NL +:+ "c " +:+ NL +:+ NL +:+ NL +:+ NL
     +:+ "d ")
  = "a  b" +:+ NL +:+ "c" +:+ NL +:+ NL +:+ "d".
Proof. reflexivity. Qed.

Example parseKeyValueLine_example :
  Builtin.parseKeyValueLine "  'a.b' =  x y ,  "
  = Some {| Builtin.key := "a.b";
            Builtin.prefix := "  'a.b' =  ";
            Builtin.value := "x y";
            Builtin.suffix := " ,  ";
            Builtin.line := "  'a.b' =  x y ,  ";
            Builtin.raw := false |}.
Proof. reflexivity. Qed.

Example parseKeyValueLine_no_key : Builtin.parseKeyValueLine ": 1" = None.
Proof. reflexivity. Qed.

Example bulletPattern_examples :
  Re.bulletPattern "- a" = true ∧ Re.bulletPattern "12. a" = true
  ∧ Re.bulletPattern "-a" = false ∧ Re.bulletPattern "12 a" = false.
Proof. by repeat split. Qed.

Example hasComplexLogic_examples :
  Shared.hasComplexLogic "if (x) y" = true
  ∧ Shared.hasComplexLogic "notify(x)" = false
  ∧ Shared.hasComplexLogic "function (a)" = true
  ∧ Shared.hasComplexLogic "function f(a)" = false
  ∧ Shared.hasComplexLogic "x => { y }" = true
  ∧ Shared.hasComplexLogic "class A" = true
  ∧ Shared.hasComplexLogic "async f" = true.
Proof. by repeat split. Qed.

Example mergeListLines_example :
  Builtin.mergeListLines ["- a"; ""; "- b  "] ["- b"; "- c"; ""]
  = join NL ["- a"; ""; "- b"; "- c"; ""].
Proof. vm_compute. reflexivity. Qed.

Example sort_is_stable :
  JsArray.sort (λ a b : Z * string, (a.1 - b.1)%Z)
    [(20, "b"); (10, "a"); (20, "c"); (10, "d")]%Z
  = [(10, "a"); (10, "d"); (20, "b"); (20, "c")]%Z.
Proof. reflexivity. Qed.

Example builtin_view_order :
  Plugin.name <$> Registry.getConflictResolutionPlugins Samples.builtinRegistry
  = ["whitespace-normalizer"; "import-merge"; "simple-content-merge"].
Proof. reflexivity. Qed.

(** Constructing a second resolver leaves the registry as it is. *)
Example construct_twice :
  Resolver.registry
    (Resolver.construct Samples.codeOrder
       (Resolver.construct Samples.codeOrder Resolver.initialState))
  = Samples.builtinRegistry.
Proof. reflexivity. Qed.

End Primitives.

Ltac app_eq :=
  repeat (rewrite <- ?app_assoc; cbn [app]; try reflexivity; f_equal).

Section ParserFacts.
Import Js Parser Layout.

Lemma lookup_at_length (pre : list string) x rest :
  (pre ++ x :: rest) !! length pre = Some x.
Proof. by rewrite list_lookup_middle. Qed.

Lemma collectUntil_body stop body : ∀ fuel pre l rest acc,
  Forall (λ x, startsWith x stop = false) body →
  startsWith l stop = true →
  length body ≤ fuel →
  collectUntil fuel (pre ++ body ++ l :: rest) stop (length pre) acc
  = (length pre + length body, acc ++ body).
Proof.
  induction body as [|b body IH]; intros fuel pre l rest acc Hb Hl Hf.
  - simpl. rewrite Nat.add_0_r, app_nil_r.
    destruct fuel as [|fuel]; simpl; [done|].
    by rewrite lookup_at_length, Hl.
  - apply Forall_cons in Hb as [Hb1 Hb].
    destruct fuel as [|fuel]; simpl in Hf; [lia|].
    simpl. rewrite lookup_at_length, Hb1.
    replace (pre ++ b :: body ++ l :: rest)
      with ((pre ++ [b]) ++ body ++ l :: rest) by by rewrite <- app_assoc.
    replace (length pre + 1) with (length (pre ++ [b]))
      by (rewrite length_app; simpl; lia).
    rewrite IH; [|done|done|lia].
    rewrite length_app, <- app_assoc. simpl. f_equal. lia.
Qed.

Lemma collectCurrent_body body : ∀ fuel pre l rest acc base,
  Forall currentLine body →
  startsWith l "=======" = true →
  length body ≤ fuel →
  collectCurrent fuel (pre ++ body ++ l :: rest) (length pre) acc base
  = (length pre + length body, acc ++ body, base).
Proof.
  induction body as [|b body IH]; intros fuel pre l rest acc base Hb Hl Hf.
  - simpl app. rewrite Nat.add_0_r, app_nil_r.
    destruct fuel as [|fuel]; [done|].
    cbn [collectCurrent]. by rewrite lookup_at_length, Hl.
  - apply Forall_cons in Hb as [[Hb1 Hb2] Hb].
    destruct fuel as [|fuel]; simpl in Hf; [lia|].
    cbn [collectCurrent]. simpl app. rewrite lookup_at_length, Hb1, Hb2.
    replace (pre ++ b :: body ++ l :: rest)
      with ((pre ++ [b]) ++ body ++ l :: rest) by by rewrite <- app_assoc.
    replace (length pre + 1) with (length (pre ++ [b]))
      by (rewrite length_app; simpl; lia).
    rewrite IH; [|done|done|lia].
    rewrite length_app, <- app_assoc. simpl. do 2 f_equal. lia.
Qed.

Lemma scan_past_end fuel (lines : list string) i acc :
  length lines ≤ i → scan fuel lines i acc = acc.
Proof.
  intros Hi. destruct fuel; [done|]. simpl.
  by rewrite lookup_ge_None_2.
Qed.

Lemma scan_gap gap : ∀ fuel pre rest acc,
  Forall plainLine gap →
  length gap ≤ fuel →
  scan fuel (pre ++ gap ++ rest) (length pre) acc
  = scan (fuel - length gap) (pre ++ gap ++ rest) (length pre + length gap) acc.
Proof.
  induction gap as [|g gap IH]; intros fuel pre rest acc Hg Hf.
  - simpl. by rewrite Nat.sub_0_r, Nat.add_0_r.
  - apply Forall_cons in Hg as [Hg1 Hg].
    destruct fuel as [|fuel]; simpl in Hf; [lia|].
    cbn [scan]. simpl app. rewrite lookup_at_length. rewrite Hg1.
    replace (pre ++ g :: gap ++ rest)
      with ((pre ++ [g]) ++ gap ++ rest) by by rewrite <- app_assoc.
    replace (length pre + 1) with (length (pre ++ [g]))
      by (rewrite length_app; simpl; lia).
    rewrite IH; [|done|lia].
    rewrite length_app. simpl. f_equal. lia.
Qed.

Lemma length_regionLines r :
  length (regionLines r) = length (r_current r) + length (r_incoming r) + 3.
Proof.
  unfold regionLines. simpl. rewrite length_app. simpl.
  rewrite length_app. simpl. lia.
Qed.

Lemma scan_region r : ∀ fuel pre rest acc,
  wfRegion r →
  scan (S fuel) (pre ++ regionLines r ++ rest) (length pre) acc
  = scan fuel (pre ++ regionLines r ++ rest)
      (length pre + length (regionLines r)) (acc ++ [hunkOf (length pre) r]).
Proof.
  intros fuel pre rest acc [Hs Hc Hsep Hi He].
  set (lines := pre ++ regionLines r ++ rest).
  assert (Hlen : length lines
    = length pre + (length (r_current r) + length (r_incoming r) + 3)
      + length rest).
  { unfold lines. rewrite !length_app, length_regionLines. lia. }
  assert (E1 : lines = pre ++ r_start r ::
      (r_current r ++ r_separator r :: r_incoming r ++ [r_end r]) ++ rest)
    by done.
  assert (E2 : lines = (pre ++ [r_start r]) ++ r_current r
      ++ r_separator r :: (r_incoming r ++ r_end r :: rest)).
  { rewrite E1. rewrite <- !app_assoc. simpl. do 3 f_equal.
    by rewrite <- app_assoc. }
  assert (E3 : lines = (pre ++ r_start r :: r_current r ++ [r_separator r])
      ++ r_incoming r ++ r_end r :: rest).
  { rewrite E2. rewrite <- !app_assoc. simpl. by rewrite <- app_assoc. }
  assert (E4 : lines
      = (pre ++ r_start r :: r_current r ++ r_separator r :: r_incoming r)
        ++ r_end r :: rest).
  { rewrite E3. rewrite <- !app_assoc. simpl. f_equal. f_equal.
    by rewrite <- !app_assoc. }
  cbn [scan].
  rewrite E1 at 1. rewrite lookup_at_length, Hs.
  replace (length pre + 1) with (length (pre ++ [r_start r]))
    by (rewrite length_app; simpl; lia).
  rewrite E2 at 2.
  rewrite collectCurrent_body; [|done|done|lia].
  simpl app at 1.
  set (i1 := length (pre ++ [r_start r]) + length (r_current r)).
  assert (Hi1 : i1 = length ((pre ++ [r_start r]) ++ r_current r)).
  { unfold i1. rewrite !length_app. simpl. lia. }
  assert (L1 : lines !! i1 = Some (r_separator r)).
  { rewrite Hi1, E2, (app_assoc (pre ++ [r_start r])).
    apply lookup_at_length. }
  rewrite L1, Hsep.
  replace (i1 + 1)
    with (length (pre ++ r_start r :: r_current r ++ [r_separator r])).
  2:{ rewrite Hi1. rewrite !length_app. simpl. rewrite !length_app. simpl. lia. }
  rewrite E3 at 2.
  rewrite collectUntil_body; [|done|done|lia].
  simpl app at 1.
  set (i2 := length (pre ++ r_start r :: r_current r ++ [r_separator r])
             + length (r_incoming r)).
  assert (Hi2 : i2
    = length (pre ++ r_start r :: r_current r ++ r_separator r :: r_incoming r)).
  { unfold i2. rewrite !length_app. simpl. rewrite !length_app. simpl. lia. }
  assert (L2 : lines !! i2 = Some (r_end r)).
  { rewrite Hi2, E4. apply lookup_at_length. }
  rewrite L2, He.
  assert (Hi2' : i2 = length pre + length (r_current r) + length (r_incoming r) + 2).
  { rewrite Hi2. rewrite !length_app. simpl. rewrite !length_app. simpl. lia. }
  f_equal.
  - rewrite length_regionLines. lia.
  - f_equal. unfold hunkOf. cbn [app]. rewrite Hi2', length_app.
    simpl.
    by replace (length pre + length (r_current r) + length (r_incoming r) + 2 + 1)
      with (length pre + 1 + length (r_current r) + 1 + length (r_incoming r) + 1)
      by lia.
Qed.

Lemma scan_segments segs : ∀ fuel pre tail acc,
  Forall (λ seg, Forall plainLine seg.1 ∧ wfRegion seg.2) segs →
  Forall plainLine tail →
  length (segmentsLines segs ++ tail) ≤ fuel →
  scan fuel (pre ++ segmentsLines segs ++ tail) (length pre) acc
  = acc ++ hunksFrom (length pre) segs.
Proof.
  induction segs as [|[gap r] segs IH]; intros fuel pre tail acc Hsegs Htail Hf.
  - simpl in *. rewrite app_nil_r.
    replace (pre ++ tail) with (pre ++ tail ++ []) by by rewrite app_nil_r.
    rewrite scan_gap; [|done|done].
    apply scan_past_end. rewrite !length_app. simpl. lia.
  - apply Forall_cons in Hsegs as [[Hgap Hr] Hsegs].
    simpl in Hgap, Hr. cbn [segmentsLines] in *.
    rewrite !length_app, length_regionLines in Hf.
    rewrite <- !app_assoc.
    rewrite scan_gap; [|done|lia].
    destruct (fuel - length gap) as [|fuel'] eqn:Ef; [lia|].
    rewrite (app_assoc pre gap).
    replace (length pre + length gap) with (length (pre ++ gap))
      by by rewrite length_app.
    rewrite scan_region; [|done].
    rewrite (app_assoc (pre ++ gap)).
    replace (length (pre ++ gap) + length (regionLines r))
      with (length ((pre ++ gap) ++ regionLines r)) by by rewrite length_app.
    rewrite IH; [|done|done|rewrite length_app; lia].
    cbn [hunksFrom]. rewrite <- app_assoc. cbn [app].
    by rewrite !length_app.
Qed.

(** On a file that is a sequence of well-formed two-way regions the parser
    returns one hunk per region, in order, with the region's position,
    contents and marker lines. *)
Lemma parse_two_way_layout content f :
  wfFile f →
  splitLines content = fileLines f →
  parseConflictHunks content = hunksFrom 0 f.1.
Proof.
  intros [Hsegs Htail] Hsplit. unfold parseConflictHunks.
  rewrite Hsplit. unfold fileLines.
  apply (scan_segments f.1 _ [] f.2 []); done.
Qed.

End ParserFacts.

(** ** The parser on a three-way region *)

Section ParserThreeWay.
Import Js Parser Layout.

Lemma collectCurrent_lines body : ∀ fuel pre rest acc base,
  Forall currentLine body →
  length body ≤ fuel →
  collectCurrent fuel (pre ++ body ++ rest) (length pre) acc base
  = collectCurrent (fuel - length body) (pre ++ body ++ rest)
      (length pre + length body) (acc ++ body) base.
Proof.
  induction body as [|b body IH]; intros fuel pre rest acc base Hb Hf.
  - simpl. by rewrite Nat.sub_0_r, Nat.add_0_r, app_nil_r.
  - apply Forall_cons in Hb as [[Hb1 Hb2] Hb].
    destruct fuel as [|fuel]; simpl in Hf; [lia|].
    cbn [collectCurrent]. simpl app. rewrite lookup_at_length, Hb1, Hb2.
    replace (pre ++ b :: body ++ rest)
      with ((pre ++ [b]) ++ body ++ rest) by app_eq.
    replace (length pre + 1) with (length (pre ++ [b]))
      by (rewrite length_app; simpl; lia).
    rewrite IH; [|done|lia].
    replace (length (pre ++ [b]) + length body)
      with (length pre + length (b :: body))
      by (rewrite length_app; simpl; lia).
    replace ((acc ++ [b]) ++ body) with (acc ++ b :: body) by app_eq.
    done.
Qed.

Lemma collectCurrent_to_end rest fuel pre acc base :
  Forall currentLine rest →
  length rest ≤ fuel →
  collectCurrent fuel (pre ++ rest) (length pre) acc base
  = (length pre + length rest, acc ++ rest, base).
Proof.
  intros Hrest Hf.
  replace (pre ++ rest) with (pre ++ rest ++ []) by by rewrite app_nil_r.
  rewrite collectCurrent_lines; [|done|done].
  destruct (fuel - length rest); simpl; [done|].
  rewrite lookup_ge_None_2; [done|].
  rewrite !length_app. simpl. lia.
Qed.

Lemma base_marker_not_separator l :
  startsWith l "|||||||" = true → startsWith l "=======" = false.
Proof.
  destruct l as [|c l]; cbn [startsWith]; [done|].
  destruct (Ascii.eqb_spec "|" c) as [<-|]; [by intros _|done].
Qed.

Lemma end_marker_current l :
  startsWith l ">>>>>>>" = true → currentLine l.
Proof.
  unfold currentLine.
  destruct l as [|c l]; cbn [startsWith]; [done|].
  destruct (Ascii.eqb_spec ">" c) as [<-|]; [by intros _|done].
Qed.

(** X5.  A file whose only region has a base section, and in which no
    line after the separator of that region begins with [=======] or
    [|||||||], yields no hunk: the loop over the current side steps over
    the separator and runs to the end of the file. *)
Lemma three_way_region_dropped content f :
  wfThreeWay f →
  splitLines content = threeWayLines f →
  parseConflictHunks content = [].
Proof.
  intros [Hgap Hs Hcur Hbm Hbase Hsep Hinc Hend Htail] Hsplit.
  unfold parseConflictHunks. rewrite Hsplit.
  set (lines := threeWayLines f).
  set (rest := t_incoming f ++ t_end f :: t_tail f).
  assert (Hrest : Forall currentLine rest).
  { apply Forall_app. split.
    - eapply Forall_impl; [exact Hinc|]. by intros l [_ ?].
    - constructor; [by apply end_marker_current|].
      eapply Forall_impl; [exact Htail|]. by intros l [_ ?]. }
  assert (Hlen : length lines
    = length (t_gap f) + 1 + length (t_current f) + 1 + length (t_base f)
      + 1 + length rest).
  { unfold lines, threeWayLines, rest.
    repeat (rewrite length_app || cbn [length]). lia. }
  assert (E0 : lines = [] ++ t_gap f ++ (t_start f :: t_current f
      ++ t_baseMarker f :: t_base f ++ t_separator f :: rest)) by done.
  rewrite E0 at 2. rewrite (scan_gap (t_gap f)); [|done|lia].
  rewrite <- E0. simpl length at 2. simpl Nat.add.
  destruct (length lines - length (t_gap f)) as [|fuel] eqn:Ef; [lia|].
  cbn [scan].
  assert (E1 : lines = t_gap f ++ t_start f :: (t_current f
      ++ t_baseMarker f :: t_base f ++ t_separator f :: rest)) by done.
  rewrite E1 at 1. rewrite lookup_at_length, Hs.
  assert (E2 : lines = (t_gap f ++ [t_start f]) ++ t_current f
      ++ (t_baseMarker f :: t_base f ++ t_separator f :: rest)).
  { rewrite E1. app_eq. }
  replace (length (t_gap f) + 1) with (length (t_gap f ++ [t_start f]))
    by (rewrite length_app; simpl; lia).
  rewrite E2 at 2. rewrite collectCurrent_lines; [|done|lia].
  rewrite <- E2.
  destruct (length lines - length (t_current f)) as [|fuel1] eqn:Ef1; [lia|].
  cbn [collectCurrent app].
  assert (E3 : lines = ((t_gap f ++ [t_start f]) ++ t_current f)
      ++ t_baseMarker f :: (t_base f ++ t_separator f :: rest)).
  { rewrite E1. app_eq. }
  replace (length (t_gap f ++ [t_start f]) + length (t_current f))
    with (length ((t_gap f ++ [t_start f]) ++ t_current f))
    by by rewrite length_app.
  rewrite E3 at 1. rewrite lookup_at_length.
  rewrite (base_marker_not_separator _ Hbm), Hbm.
  assert (E4 : lines = (((t_gap f ++ [t_start f]) ++ t_current f)
      ++ [t_baseMarker f]) ++ t_base f ++ t_separator f :: rest).
  { rewrite E1. app_eq. }
  replace (length ((t_gap f ++ [t_start f]) ++ t_current f) + 1)
    with (length (((t_gap f ++ [t_start f]) ++ t_current f)
                  ++ [t_baseMarker f]))
    by (rewrite (length_app _ [_]); simpl; lia).
  rewrite E4 at 2. rewrite collectUntil_body; [|done|done|lia].
  cbn [app].
  assert (E5 : lines = ((((t_gap f ++ [t_start f]) ++ t_current f)
      ++ [t_baseMarker f]) ++ t_base f ++ [t_separator f]) ++ rest).
  { rewrite E1. app_eq. }
  replace (length (((t_gap f ++ [t_start f]) ++ t_current f)
                   ++ [t_baseMarker f]) + length (t_base f) + 1)
    with (length ((((t_gap f ++ [t_start f]) ++ t_current f)
                   ++ [t_baseMarker f]) ++ t_base f ++ [t_separator f])).
  2:{ rewrite !length_app. simpl. lia. }
  rewrite E5 at 1. rewrite collectCurrent_to_end; [|done|].
  2:{ revert Ef1. rewrite Hlen. lia. }
  rewrite lookup_ge_None_2.
  2:{ rewrite E5 at 1. rewrite (length_app _ rest). lia. }
  apply scan_past_end. rewrite E5 at 1. rewrite (length_app _ rest). lia.
Qed.

Lemma three_way_region_dropped_witness :
  (wfThreeWay Samples.threeWayFile
   ∧ splitLines Samples.threeWay = threeWayLines Samples.threeWayFile)
  ∧ parseConflictHunks Samples.threeWay = [].
Proof.
  assert (Hwf : wfThreeWay Samples.threeWayFile).
  { split; simpl; repeat constructor. }
  assert (Hs : splitLines Samples.threeWay
               = threeWayLines Samples.threeWayFile) by reflexivity.
  split; [done|].
  exact (three_way_region_dropped Samples.threeWay Samples.threeWayFile Hwf Hs).
Defined.

End ParserThreeWay.

(** ** The parser on any text *)

Section ParserTotal.
Import Js Parser Layout.

Lemma collectUntil_ge fuel lines stop : ∀ i acc,
  i ≤ (collectUntil fuel lines stop i acc).1.
Proof.
  induction fuel as [|fuel IH]; intros i acc; simpl; [done|].
  destruct (lines !! i) as [l|]; [|done].
  destruct (startsWith l stop); [done|].
  specialize (IH (i + 1) (acc ++ [l])). lia.
Qed.

Lemma collectCurrent_ge fuel lines : ∀ i cur base,
  i ≤ (collectCurrent fuel lines i cur base).1.1.
Proof.
  induction fuel as [|fuel IH]; intros i cur base; simpl; [done|].
  destruct (lines !! i) as [l|]; [|done].
  destruct (startsWith l "======="); [done|].
  destruct (startsWith l "|||||||").
  - pose proof (collectUntil_ge (length lines) lines "=======" (i + 1) []) as Hj.
    destruct (collectUntil (length lines) lines "=======" (i + 1) [])
      as [j baseLines]. simpl in Hj.
    specialize (IH (j + 1) cur (join NL baseLines)). lia.
  - specialize (IH (i + 1) (cur ++ [l]) base). lia.
Qed.

(** The fuel does not cut a loop short: every iteration advances the
    index, so any fuel that covers the lines left gives the same result. *)
Lemma collectUntil_fuel lines stop f1 : ∀ f2 i acc,
  length lines ≤ i + f1 → length lines ≤ i + f2 →
  collectUntil f1 lines stop i acc = collectUntil f2 lines stop i acc.
Proof.
  induction f1 as [|f1 IH]; intros f2 i acc H1 H2.
  - destruct f2; simpl; [done|].
    by rewrite lookup_ge_None_2 by lia.
  - destruct f2 as [|f2]; simpl.
    + by rewrite lookup_ge_None_2 by lia.
    + destruct (lines !! i) as [l|]; [|done].
      destruct (startsWith l stop); [done|].
      apply IH; lia.
Qed.

Lemma collectCurrent_fuel lines f1 : ∀ f2 i cur base,
  length lines ≤ i + f1 → length lines ≤ i + f2 →
  collectCurrent f1 lines i cur base = collectCurrent f2 lines i cur base.
Proof.
  induction f1 as [|f1 IH]; intros f2 i cur base H1 H2.
  - destruct f2; simpl; [done|].
    by rewrite lookup_ge_None_2 by lia.
  - destruct f2 as [|f2]; simpl.
    + by rewrite lookup_ge_None_2 by lia.
    + destruct (lines !! i) as [l|]; [|done].
      destruct (startsWith l "======="); [done|].
      destruct (startsWith l "|||||||").
      * pose proof (collectUntil_ge (length lines) lines "=======" (i + 1) [])
          as Hj.
        destruct (collectUntil (length lines) lines "=======" (i + 1) [])
          as [j baseLines]. simpl in Hj.
        apply IH; lia.
      * apply IH; lia.
Qed.

Lemma scan_fuel lines f1 : ∀ f2 i acc,
  length lines ≤ i + f1 → length lines ≤ i + f2 →
  scan f1 lines i acc = scan f2 lines i acc.
Proof.
  induction f1 as [|f1 IH]; intros f2 i acc H1 H2.
  - destruct f2; simpl; [done|].
    by rewrite lookup_ge_None_2 by lia.
  - destruct f2 as [|f2]; simpl.
    + by rewrite lookup_ge_None_2 by lia.
    + destruct (lines !! i) as [l|]; [|done].
      destruct (startsWith l "<<<<<<<"); [|apply IH; lia].
      pose proof (collectCurrent_ge (length lines) lines (i + 1) [] "") as H1'.
      destruct (collectCurrent (length lines) lines (i + 1) [] "")
        as [[i1 cur] base]. simpl in H1'.
      destruct (lines !! i1) as [sep|]; [|apply IH; lia].
      destruct (startsWith sep "======="); [|apply IH; lia].
      pose proof (collectUntil_ge (length lines) lines ">>>>>>>" (i1 + 1) [])
        as H2'.
      destruct (collectUntil (length lines) lines ">>>>>>>" (i1 + 1) [])
        as [i2 inc]. simpl in H2'.
      destruct (lines !! i2) as [e|]; [|apply IH; lia].
      destruct (startsWith e ">>>>>>>"); apply IH; lia.
Qed.

(** More fuel than [parseConflictHunks] gives the loop changes nothing. *)
Lemma parseConflictHunks_fuel content extra :
  scan (length (splitLines content) + extra) (splitLines content) 0 []
  = parseConflictHunks content.
Proof. unfold parseConflictHunks. apply scan_fuel; lia. Qed.

(** Whatever the text, every hunk the parser returns has
    [startLine ≤ endLine] and carries the lines of the text at its start
    and end positions, and a line in between, as its markers. *)
Lemma scan_faithful lines fuel : ∀ i acc,
  Forall (hunkFaithful lines) acc →
  Forall (hunkFaithful lines) (scan fuel lines i acc).
Proof.
  induction fuel as [|fuel IH]; intros i acc Hacc; simpl; [done|].
  destruct (lines !! i) as [l|] eqn:El; [|done].
  destruct (startsWith l "<<<<<<<"); [|by apply IH].
  pose proof (collectCurrent_ge (length lines) lines (i + 1) [] "") as H1.
  destruct (collectCurrent (length lines) lines (i + 1) [] "")
    as [[i1 cur] base]. simpl in H1.
  destruct (lines !! i1) as [sep|] eqn:Esep; [|by apply IH].
  destruct (startsWith sep "======="); [|by apply IH].
  pose proof (collectUntil_ge (length lines) lines ">>>>>>>" (i1 + 1) []) as H2.
  destruct (collectUntil (length lines) lines ">>>>>>>" (i1 + 1) [])
    as [i2 inc]. simpl in H2.
  destruct (lines !! i2) as [e|] eqn:Ee; [|by apply IH].
  destruct (startsWith e ">>>>>>>"); [|by apply IH].
  apply IH. apply Forall_app. split; [done|].
  constructor; [|constructor].
  unfold hunkFaithful. simpl.
  split; [lia|]. split; [by replace (i + 1 - 1) with i by lia|].
  split; [by replace (i2 + 1 - 1) with i2 by lia|].
  exists (i1 + 1). split; [lia|]. by replace (i1 + 1 - 1) with i1 by lia.
Qed.

Lemma hunks_faithful content :
  Forall (hunkFaithful (splitLines content)) (parseConflictHunks content).
Proof. apply scan_faithful. constructor. Qed.

End ParserTotal.

Section ParserPositions.
Import Js Parser Layout.

Lemma hunkOf_faithful pre r rest :
  hunkFaithful (pre ++ regionLines r ++ rest) (hunkOf (length pre) r).
Proof.
  unfold hunkFaithful, hunkOf, regionLines. simpl.
  split; [lia|]. split; [|split].
  - replace (length pre + 1 - 1) with (length pre) by lia.
    apply lookup_at_length.
  - replace (length pre + 1 + length (r_current r) + 1
             + length (r_incoming r) + 1 - 1)
      with (length (pre ++ r_start r :: r_current r
                    ++ r_separator r :: r_incoming r)).
    2:{ rewrite !length_app. simpl. rewrite !length_app. simpl. lia. }
    replace (pre ++ r_start r :: (r_current r ++ r_separator r
                                  :: r_incoming r ++ [r_end r]) ++ rest)
      with ((pre ++ r_start r :: r_current r ++ r_separator r :: r_incoming r)
            ++ r_end r :: rest).
    { apply lookup_at_length. }
    app_eq.
  - exists (length pre + 1 + length (r_current r) + 1). split; [lia|].
    replace (length pre + 1 + length (r_current r) + 1 - 1)
      with (length (pre ++ r_start r :: r_current r)).
    2:{ rewrite !length_app. simpl. lia. }
    replace (pre ++ r_start r :: (r_current r ++ r_separator r
                                  :: r_incoming r ++ [r_end r]) ++ rest)
      with ((pre ++ r_start r :: r_current r)
            ++ r_separator r :: r_incoming r ++ r_end r :: rest).
    { apply lookup_at_length. }
    app_eq.
Qed.

Lemma hunksFrom_faithful segs : ∀ pre tail,
  Forall (hunkFaithful (pre ++ segmentsLines segs ++ tail))
    (hunksFrom (length pre) segs).
Proof.
  induction segs as [|[gap r] segs IH]; intros pre tail; [constructor|].
  cbn [hunksFrom segmentsLines]. constructor.
  - replace (length pre + length gap) with (length (pre ++ gap))
      by by rewrite length_app.
    replace (pre ++ (gap ++ regionLines r ++ segmentsLines segs) ++ tail)
      with ((pre ++ gap) ++ regionLines r ++ segmentsLines segs ++ tail)
      by by rewrite <- !app_assoc.
    apply hunkOf_faithful.
  - replace (length pre + length gap + length (regionLines r))
      with (length ((pre ++ gap) ++ regionLines r))
      by by rewrite !length_app.
    replace (pre ++ (gap ++ regionLines r ++ segmentsLines segs) ++ tail)
      with (((pre ++ gap) ++ regionLines r) ++ segmentsLines segs ++ tail)
      by by rewrite <- !app_assoc.
    apply IH.
Qed.

Lemma length_hunksFrom segs : ∀ off, length (hunksFrom off segs) = length segs.
Proof.
  induction segs as [|[gap r] segs IH]; intros off; [done|].
  cbn [hunksFrom length]. by rewrite IH.
Qed.

(** Where C1 holds: a file made of [N] well-formed two-way regions (no
    base section) yields exactly [N] hunks; every hunk has
    [startLine ≤ endLine], and its three marker texts are the lines of the
    file at [startLine], at a line in between, and at [endLine]. *)
Theorem two_way_regions_parsed content f :
  wfFile f →
  splitLines content = fileLines f →
  length (parseConflictHunks content) = length f.1
  ∧ Forall (hunkFaithful (splitLines content)) (parseConflictHunks content).
Proof.
  intros Hwf Hsplit.
  rewrite (parse_two_way_layout content f Hwf Hsplit).
  split; [apply length_hunksFrom|].
  rewrite Hsplit. unfold fileLines.
  apply (hunksFrom_faithful f.1 [] f.2).
Qed.

End ParserPositions.

Section ParserOnSamples.
Import Js Parser Layout.

Lemma two_way_regions_parsed_witness :
  (wfFile Samples.twoWayFile
   ∧ splitLines Samples.twoWay = fileLines Samples.twoWayFile)
  ∧ length (parseConflictHunks Samples.twoWay) = 2
  ∧ Forall (hunkFaithful (splitLines Samples.twoWay))
      (parseConflictHunks Samples.twoWay).
Proof.
  assert (Hwf : wfFile Samples.twoWayFile).
  { split; [|repeat constructor].
    repeat first [ apply Forall_nil_2 | apply Forall_cons_2 ];
      (split; [repeat constructor|]); split; repeat constructor. }
  assert (Hs : splitLines Samples.twoWay = fileLines Samples.twoWayFile)
    by reflexivity.
  split; [done|].
  apply (two_way_regions_parsed Samples.twoWay Samples.twoWayFile Hwf Hs).
Defined.

(** C1, where the code departs from it.  The file [threeWayThenTwoWay] has
    two well-formed conflict regions, the first with a base section; the
    parser returns one hunk for it, not two.  That hunk starts at the
    first region and ends at the second, and its current side holds the
    first region's incoming line and end marker. *)
Theorem parse_three_way_then_two_way :
  splitLines Samples.threeWayThenTwoWay
  = [ "<<<<<<< HEAD"; "a"; "||||||| base"; "b"; "======="; "c";
      ">>>>>>> other"; "x";
      "<<<<<<< HEAD"; "d"; "======="; "e"; ">>>>>>> other"; "" ]
  ∧ parseConflictHunks Samples.threeWayThenTwoWay
    = [ {| startLine := 1;
           endLine := 13;
           baseContent := "b";
           currentContent :=
             join NL ["a"; "c"; ">>>>>>> other"; "x"; "<<<<<<< HEAD"; "d"];
           incomingContent := "e";
           conflictMarkers :=
             {| m_start := "<<<<<<< HEAD";
                m_separator := "=======";
                m_end := ">>>>>>> other" |} |} ].
Proof. split; reflexivity. Qed.

(** C2, where the code departs from it.  [threeWay] is one well-formed
    three-way region: current side [a], base [b] after the [|||||||] line,
    incoming side [c].  The parser emits no hunk for it: after the base
    lines the loop steps over the [=======] line, so the separator is
    never seen. *)
Theorem parse_three_way_region :
  splitLines Samples.threeWay
  = [ "<<<<<<< HEAD"; "a"; "||||||| base"; "b"; "======="; "c";
      ">>>>>>> other"; "" ]
  ∧ parseConflictHunks Samples.threeWay = [].
Proof. split; reflexivity. Qed.

End ParserOnSamples.

(** ** The auto-resolvability flag *)

Section AutoResolvable.
Import Js Analyzer.

Lemma isAutoResolvable_content complexity :
  Shared.isAutoResolvable CONTENT complexity = false.
Proof. by destruct complexity. Qed.

(** C3 as stated fails on [longContent]: the conflict is CONTENT and
    COMPLEX, its only hunk passes the simple-content test (every current
    line occurs on the incoming side), and the flag is false. *)
Lemma stated_table_counterexample :
  type Samples.longConflict = CONTENT
  ∧ complexity Samples.longConflict = COMPLEX
  ∧ canAutoResolveContent (hunks Samples.longConflict) = true
  ∧ autoResolvable Samples.longConflict = false
  ∧ ¬ statedTable Samples.longConflict.
Proof.
  assert (E : type Samples.longConflict = CONTENT
    ∧ complexity Samples.longConflict = COMPLEX
    ∧ canAutoResolveContent (hunks Samples.longConflict) = true
    ∧ autoResolvable Samples.longConflict = false)
    by (vm_compute; done).
  destruct E as (Ht & Hc & Hp & Ha).
  repeat split; try done.
  intros (_ & _ & H). specialize (H Ht Hc). congruence.
Qed.

(** C3, amended: the flag computed by [analyzeFileConflict] is true for
    every conflict classified (TRIVIAL, WHITESPACE) and for every conflict
    classified (SIMPLE, STRUCTURAL); for type CONTENT it is false whenever
    the complexity is COMPLEX, and for any other complexity it is true
    exactly when every hunk passes the simple-content-pattern test. *)
Theorem autoResolvable_table filePath content :
  let c := analyzeFileConflict filePath content in
  (complexity c = TRIVIAL → type c = WHITESPACE → autoResolvable c = true)
  ∧ (complexity c = SIMPLE → type c = STRUCTURAL → autoResolvable c = true)
  ∧ (type c = CONTENT → complexity c = COMPLEX → autoResolvable c = false)
  ∧ (type c = CONTENT → complexity c ≠ COMPLEX →
     autoResolvable c = canAutoResolveContent (hunks c)).
Proof.
  cbn [analyzeFileConflict complexity type autoResolvable hunks].
  set (t := detectConflictType filePath content).
  set (k := determineOverallComplexity (Parser.parseConflictHunks content)).
  repeat split.
  - intros -> ->. done.
  - intros -> ->. done.
  - intros -> ->. done.
  - intros -> Hk. rewrite isAutoResolvable_content.
    rewrite bool_decide_true by done.
    by rewrite (bool_decide_false _ Hk).
Qed.

Lemma autoResolvable_table_witness :
  (complexity Samples.spacingConflict = TRIVIAL
   ∧ type Samples.spacingConflict = WHITESPACE
   ∧ autoResolvable Samples.spacingConflict = true)
  ∧ (complexity Samples.functionConflict = SIMPLE
     ∧ type Samples.functionConflict = STRUCTURAL
     ∧ autoResolvable Samples.functionConflict = true)
  ∧ (type Samples.longConflict = CONTENT
     ∧ complexity Samples.longConflict = COMPLEX
     ∧ autoResolvable Samples.longConflict = false)
  ∧ (type Samples.notesConflict = CONTENT
     ∧ complexity Samples.notesConflict ≠ COMPLEX
     ∧ autoResolvable Samples.notesConflict
       = canAutoResolveContent (hunks Samples.notesConflict)).
Proof.
  assert (E1 : complexity Samples.spacingConflict = TRIVIAL
               ∧ type Samples.spacingConflict = WHITESPACE)
    by (vm_compute; done).
  assert (E2 : complexity Samples.functionConflict = SIMPLE
               ∧ type Samples.functionConflict = STRUCTURAL)
    by (vm_compute; done).
  assert (E3 : type Samples.longConflict = CONTENT
               ∧ complexity Samples.longConflict = COMPLEX)
    by (vm_compute; done).
  assert (E4 : type Samples.notesConflict = CONTENT
               ∧ complexity Samples.notesConflict ≠ COMPLEX)
    by (vm_compute; done).
  destruct E1 as [E1a E1b], E2 as [E2a E2b], E3 as [E3a E3b], E4 as [E4a E4b].
  split; [|split; [|split]].
  - split; [done|]. split; [done|].
    exact (proj1 (autoResolvable_table "a.txt" Samples.spacingContent) E1a E1b).
  - split; [done|]. split; [done|].
    exact (proj1 (proj2 (autoResolvable_table "area.js" Samples.functionContent))
             E2a E2b).
  - split; [done|]. split; [done|].
    exact (proj1 (proj2 (proj2 (autoResolvable_table "notes.txt"
                                  Samples.longContent))) E3a E3b).
  - split; [done|]. split; [done|].
    exact (proj2 (proj2 (proj2 (autoResolvable_table "list.md"
                                  Samples.notesContent))) E4a E4b).
Defined.

End AutoResolvable.

(** ** The simple-content heuristic *)

Section SimpleContent.
Import Js Builtin.





(** C9 as stated fails: the merge of the example keeps the comma of the
    last line. *)
Lemma stated_key_value_merge_counterexample :
  ¬ statedKeyValueMerge (mergeKeyValueLines Samples.kvCurrent Samples.kvIncoming).
Proof.
  intros (text & Ht & _ & _ & _ & Hlast).
  assert (E : mergeKeyValueLines Samples.kvCurrent Samples.kvIncoming
              = Some (join NL ["a: 1,"; "b: 3,"; "c: 4,"]))
    by (vm_compute; reflexivity).
  rewrite E in Ht. injection Ht as <-.
  apply (Hlast "c: 4,"); reflexivity.
Qed.

(** C9, amended: the key-value merge of current lines [a: 1,], [b: 2,] and
    incoming lines [b: 3,], [c: 4,] is the three lines [a: 1,], [b: 3,],
    [c: 4,]: keys in the order a, b, c, the value of b taken from incoming,
    and every line, the last one too, ends with a comma. *)
Theorem key_value_merge_example :
  ∃ text,
    mergeKeyValueLines Samples.kvCurrent Samples.kvIncoming = Some text
    ∧ splitLines text = ["a: 1,"; "b: 3,"; "c: 4,"]
    ∧ keysOf text = ["a"; "b"; "c"]
    ∧ valueOf "b" text = Some "3"
    ∧ Forall endsWithComma (splitLines text).
Proof.
  exists (join NL ["a: 1,"; "b: 3,"; "c: 4,"]).
  split; [vm_compute; reflexivity|].
  split; [reflexivity|]. split; [vm_compute; reflexivity|].
  split; [vm_compute; reflexivity|].
  repeat constructor.
Qed.

(** With a key in double quotes the block counts as JSON-like, and the
    comma of the last line goes. *)
Lemma key_value_merge_json_example :
  ∃ text,
    mergeKeyValueLines Samples.jsonCurrent Samples.kvIncoming = Some text
    ∧ splitLines text
      = [String "034" "a" +:+ String "034" ": 1,"; "b: 3,"; "c: 4"].
Proof.
  eexists. split; vm_compute; reflexivity.
Qed.

End SimpleContent.

(** ** The ordered view of the registry *)

Section SortFacts.
Context {A : Type} (rank : A → Z).

Let byRank (a b : A) : Z := (rank a - rank b)%Z.

Lemma insertSorted_perm x l : JsArray.insertSorted byRank x l ≡ₚ x :: l.
Proof.
  induction l as [|y l IH]; [done|]. simpl.
  destruct (byRank x y <=? 0)%Z; [done|].
  rewrite IH. apply Permutation_swap.
Qed.

Lemma sort_perm l : JsArray.sort byRank l ≡ₚ l.
Proof.
  induction l as [|x l IH]; [done|]. simpl.
  by rewrite insertSorted_perm, IH.
Qed.

Abbreviation ascending := (StronglySorted (λ a b, (rank a ≤ rank b)%Z)).

Lemma insertSorted_ascending x l :
  ascending l → ascending (JsArray.insertSorted byRank x l).
Proof.
  induction l as [|y l IH]; intros Hl; simpl.
  - by repeat constructor.
  - apply StronglySorted_inv in Hl as [Hl Hy].
    destruct (byRank x y <=? 0)%Z eqn:E.
    + apply Z.leb_le in E. unfold byRank in E.
      constructor; [by constructor|].
      constructor; [lia|].
      eapply Forall_impl; [exact Hy|]. simpl. intros z Hz. lia.
    + apply Z.leb_gt in E. unfold byRank in E.
      constructor; [by apply IH|].
      rewrite insertSorted_perm. constructor; [lia|done].
Qed.

Lemma sort_ascending l : ascending (JsArray.sort byRank l).
Proof.
  induction l as [|x l IH]; simpl; [constructor|].
  by apply insertSorted_ascending.
Qed.

(** Stability: the elements of one rank keep the order they had. *)
Lemma insertSorted_stable k x l :
  filter (λ a, rank a = k) (JsArray.insertSorted byRank x l)
  = filter (λ a, rank a = k) (x :: l).
Proof.
  induction l as [|y l IH]; [done|]. simpl.
  destruct (byRank x y <=? 0)%Z eqn:E; [done|].
  apply Z.leb_gt in E. unfold byRank in E.
  rewrite !filter_cons in *.
  destruct (decide (rank y = k)) as [Hy|Hy];
    destruct (decide (rank x = k)) as [Hx|Hx];
    rewrite IH; try done.
  lia.
Qed.

Lemma sort_stable k l :
  filter (λ a, rank a = k) (JsArray.sort byRank l)
  = filter (λ a, rank a = k) l.
Proof.
  induction l as [|x l IH]; [done|]. simpl.
  rewrite insertSorted_stable, !filter_cons, IH. done.
Qed.

End SortFacts.

(** ** The plugin pipeline *)

Section Pipeline.
Import Resolver.
Variable pathJoin : string → string → string.
Variable repoPath : string.

Abbreviation runPlugins' := (runPlugins pathJoin repoPath).
Abbreviation context := (createContext pathJoin repoPath).
Abbreviation byPriorityAscending :=
  (StronglySorted (λ a b, (Registry.priorityOf a ≤ Registry.priorityOf b)%Z)).

Lemma runPlugins_world conflict plugins w :
  (runPlugins' conflict plugins w).2 = w.
Proof.
  induction plugins as [|p plugins IH]; [done|]. simpl.
  destruct (Plugin.supports p conflict); simpl; [|done].
  unfold bind. destruct (Plugin.resolve p conflict (context w)) as [[r|]|e];
    simpl; done.
Qed.

Lemma view_ascending registry :
  byPriorityAscending (Registry.getConflictResolutionPlugins registry).
Proof. apply (sort_ascending Registry.priorityOf). Qed.

Lemma view_perm registry :
  Registry.getConflictResolutionPlugins registry ≡ₚ registry.*2.
Proof. apply (sort_perm Registry.priorityOf). Qed.

Lemma view_stable registry k :
  filter (λ p, Registry.priorityOf p = k)
    (Registry.getConflictResolutionPlugins registry)
  = filter (λ p, Registry.priorityOf p = k) registry.*2.
Proof. apply (sort_stable Registry.priorityOf). Qed.

(** The plugin that resolves a conflict has the least priority among the
    plugins of the list that support the conflict and do not decline. *)
Lemma runPlugins_least conflict plugins w o w' :
  byPriorityAscending plugins →
  runPlugins' conflict plugins w = (Ok (Some o), w') →
  ∀ q, q ∈ plugins →
    Plugin.supports q conflict = true →
    (∃ r, Plugin.resolve q conflict (context w) = Ok (Some r)) →
    (Registry.priorityOf (o_plugin o) ≤ Registry.priorityOf q)%Z.
Proof.
  induction plugins as [|p plugins IH]; intros Hs Hrun q Hq Hsup [r Hr].
  { by apply elem_of_nil in Hq. }
  apply StronglySorted_inv in Hs as [Hs Hp].
  simpl in Hrun.
  destruct (Plugin.supports p conflict) eqn:Esup; simpl in Hrun.
  - unfold bind in Hrun.
    destruct (Plugin.resolve p conflict (context w)) as [[rp|]|e] eqn:Eres;
      simpl in Hrun.
    + injection Hrun as <- <-. simpl.
      apply elem_of_cons in Hq as [->|Hq]; [lia|].
      rewrite Forall_forall in Hp. by apply Hp.
    + apply elem_of_cons in Hq as [->|Hq]; [congruence|].
      by apply IH; [| |  | |exists r].
    + done.
  - apply elem_of_cons in Hq as [->|Hq]; [congruence|].
    by apply IH; [| | | |exists r].
Qed.

(** When exactly two plugins of the list support a conflict, the one of
    lower priority answers, whatever the other would do. *)
Lemma runPlugins_lower_priority conflict plugins w p q r :
  byPriorityAscending plugins →
  p ∈ plugins →
  Plugin.supports p conflict = true →
  (∀ x, x ∈ plugins → Plugin.supports x conflict = true → x = p ∨ x = q) →
  (Registry.priorityOf p < Registry.priorityOf q)%Z →
  Plugin.resolve p conflict (context w) = Ok (Some r) →
  runPlugins' conflict plugins w = (Ok (Some (outcomeOf p r)), w).
Proof.
  intros Hs Hp Hsup Honly Hlt Hres.
  induction plugins as [|x plugins IH]; [by apply elem_of_nil in Hp|].
  apply StronglySorted_inv in Hs as [Hs Hx].
  simpl. destruct (Plugin.supports x conflict) eqn:Ex; simpl.
  - destruct (Honly x) as [->| ->]; [by left|done| |].
    + unfold bind. by rewrite Hres.
    + apply elem_of_cons in Hp as [->|Hp]; [lia|].
      rewrite Forall_forall in Hx. specialize (Hx p Hp). lia.
  - apply elem_of_cons in Hp as [->|Hp]; [congruence|].
    apply IH; [done|done|].
    intros y Hy. apply Honly. by right.
Qed.

End Pipeline.

(** ** One iteration of the resolver loop *)

Section Iteration.
Import Js Resolver.
Variable pathJoin : string → string → string.
Variable repoPath : string.

Abbreviation run := (runPlugins pathJoin repoPath).
Abbreviation fallbackOf := (applyFallbackStrategy pathJoin repoPath).
Abbreviation one := (resolveOne pathJoin repoPath).
Abbreviation step := (Step pathJoin repoPath).

Lemma runPlugins_same_world conflict plugins w :
  run conflict plugins w = ((run conflict plugins w).1, w).
Proof.
  rewrite <- (runPlugins_world pathJoin repoPath conflict plugins w) at 3.
  by destruct (run conflict plugins w).
Qed.

Lemma applyFallbackStrategy_same_world conflict s w :
  fallbackOf conflict s w = ((fallbackOf conflict s w).1, w).
Proof.
  unfold applyFallbackStrategy, bind, readFile.
  by destruct (files w !! pathJoin repoPath (file conflict)).
Qed.

Lemma truthy_false text : truthy text = false → text = "".
Proof. by destruct text. Qed.

(** An iteration never throws, and goes one of the four ways of [Step]. *)
Lemma resolveOne_step plugins dryRun fallbackStrategy conflict result w :
  ∃ result' w',
    one plugins dryRun fallbackStrategy conflict result w = (Ok result', w')
    ∧ step plugins dryRun fallbackStrategy conflict result w result' w'.
Proof.
  unfold resolveOne, tryCatch.
  destruct (tryResolve pathJoin repoPath plugins dryRun fallbackStrategy
              conflict result w) as [[r'|e] w'] eqn:Etry.
  2:{ (* the handler runs; the world is the one the iteration began with *)
    assert (w' = w) as ->.
    { revert Etry. unfold tryResolve, bind, ret.
      rewrite (runPlugins_same_world conflict plugins w).
      destruct (run conflict plugins w).1 as [[o|]|e0]; simpl.
      - destruct dryRun; simpl; [done|].
        unfold writeResolvedFile. case_bool_decide; simpl; congruence.
      - destruct fallbackStrategy as [s|]; [|done].
        rewrite (applyFallbackStrategy_same_world conflict s w).
        destruct (fallbackOf conflict s w).1 as [[text|]|e1]; simpl;
          [|done|congruence].
        destruct (truthy text); [|done].
        destruct dryRun; simpl; [done|].
        unfold writeResolvedFile. case_bool_decide; simpl; congruence.
      - congruence. }
    eexists _, _. split; [done|]. apply Thrown. by rewrite Etry. }
  exists r', w'. split; [done|].
  revert Etry. unfold tryResolve, bind, ret.
  pose proof (runPlugins_same_world conflict plugins w) as Hrun.
  destruct (run conflict plugins w) as [[[o|]|e0] w0] eqn:Erun;
    simpl in Hrun; injection Hrun as ->; simpl; [| |done].
  - (* a plugin answered *)
    destruct dryRun; simpl.
    + intros [= <- <-].
      exact (ByPlugin _ _ _ true _ _ _ _ o Erun (or_introl eq_refl)).
    + unfold writeResolvedFile. case_bool_decide as Hw; simpl; [done|].
      intros [= <- <-].
      exact (ByPlugin _ _ _ false _ _ _ _ o Erun (or_intror Hw)).
  - (* no plugin answered *)
    destruct fallbackStrategy as [s|].
    2:{ intros [= <- <-]. apply NoMatch; [done|by left]. }
    pose proof (applyFallbackStrategy_same_world conflict s w) as Hfb.
    destruct (fallbackOf conflict s w) as [[[text|]|e1] w1] eqn:Efb;
      simpl in Hfb; injection Hfb as ->; simpl; [| |done].
    2:{ intros [= <- <-]. apply NoMatch; [done|]. right. exists s. eauto. }
    destruct (truthy text) eqn:Etext.
    2:{ intros [= <- <-]. apply truthy_false in Etext as ->.
        apply NoMatch; [done|]. right. exists s. eauto. }
    destruct dryRun; simpl.
    + intros [= <- <-].
      exact (ByFallback _ _ _ true _ _ _ _ s text Erun eq_refl Efb Etext
               (or_introl eq_refl)).
    + unfold writeResolvedFile. case_bool_decide as Hw; simpl; [done|].
      intros [= <- <-].
      exact (ByFallback _ _ _ false _ _ _ _ s text Erun eq_refl Efb Etext
               (or_intror Hw)).
Qed.

End Iteration.

(** ** Whole runs *)

Section Runs.
Import Js Resolver.
Variable pathJoin : string → string → string.
Variable repoPath : string.

Abbreviation all := (resolveAll pathJoin repoPath).
Abbreviation stepOf := (Step pathJoin repoPath).
Abbreviation auto := (autoResolveConflicts pathJoin repoPath).

(** A run never throws; whatever the iterations preserve holds of its
    result.  [seen] is the list of the conflicts processed so far. *)
Lemma resolveAll_invariant plugins dryRun fallbackStrategy
    (P : list GitConflict → ResolutionResult → World → Prop) :
  (∀ seen c r w r' w',
     P seen r w →
     stepOf plugins dryRun fallbackStrategy c r w r' w' →
     P (seen ++ [c]) r' w') →
  ∀ conflicts seen r w,
    P seen r w →
    ∃ r' w',
      all plugins dryRun fallbackStrategy conflicts r w = (Ok r', w')
      ∧ P (seen ++ conflicts) r' w'.
Proof.
  intros Hstep conflicts.
  induction conflicts as [|c conflicts IH]; intros seen r w HP.
  - exists r, w. by rewrite app_nil_r.
  - destruct (resolveOne_step pathJoin repoPath plugins dryRun
                fallbackStrategy c r w) as (r1 & w1 & E1 & S1).
    destruct (IH (seen ++ [c]) r1 w1) as (r' & w' & E & HP').
    { by eapply Hstep. }
    exists r', w'. split.
    + cbn [resolveAll]. unfold bind. by rewrite E1.
    + by rewrite <- app_assoc in HP'.
Qed.

Lemma resolveAll_returns plugins dryRun fallbackStrategy conflicts r w :
  ∃ r' w', all plugins dryRun fallbackStrategy conflicts r w = (Ok r', w').
Proof.
  destruct (resolveAll_invariant plugins dryRun fallbackStrategy
              (λ _ _ _, True) (λ _ _ _ _ _ _ _ _, I) conflicts [] r w I)
    as (r' & w' & E & _).
  by exists r', w'.
Qed.

(** A dry run leaves the world as it found it. *)
Lemma resolveAll_dry_world plugins fallbackStrategy conflicts r w :
  (all plugins true fallbackStrategy conflicts r w).2 = w.
Proof.
  destruct (resolveAll_invariant plugins true fallbackStrategy
              (λ _ _ w', w' = w))
    with (conflicts := conflicts) (seen := @nil GitConflict) (r := r) (w := w)
    as (r' & w' & E & ->); [|done|by rewrite E].
  intros seen c r0 w0 r1 w1 -> S. by destruct S.
Qed.

End Runs.

(** ** Plugin outcomes and fallback outcomes *)

Section Outcomes.
Import Js Resolver.
Variable pathJoin : string → string → string.
Variable repoPath : string.

Lemma accounted_step plugins dryRun fallbackStrategy seen c r w r' w' :
  accounted fallbackStrategy seen r →
  Step pathJoin repoPath plugins dryRun fallbackStrategy c r w r' w' →
  accounted fallbackStrategy (seen ++ [c]) r'.
Proof.
  intros (Hw & Hs & Hr & Hall) S. unfold accounted.
  rewrite fmap_app. simpl.
  destruct S as [o _ _|s text _ -> _ _ _| |e _]; simpl.
  - rewrite !fmap_app. simpl. split; [done|]. split; [done|]. split.
    + rewrite Hr. rewrite <- !app_assoc. apply Permutation_app_head.
      apply Permutation_app_comm.
    + rewrite <- Hall. rewrite <- !app_assoc. apply Permutation_app_head.
      simpl. rewrite !app_assoc. apply Permutation_cons_append.
  - rewrite !fmap_app. simpl. split; [by rewrite Hw|]. split.
    { apply Forall_app. split; [done|]. by repeat constructor. }
    split.
    + rewrite Hr. by rewrite !app_assoc.
    + rewrite <- Hall. rewrite <- !app_assoc. apply Permutation_app_head.
      apply Permutation_app_head. simpl. apply Permutation_cons_append.
  - split; [done|]. split; [done|]. split; [done|].
    rewrite <- Hall. by rewrite !app_assoc.
  - split; [done|]. split; [done|]. split; [done|].
    rewrite <- Hall. by rewrite !app_assoc.
Qed.

Lemma strategyOf_Some fallback s :
  strategyOf fallback = Some s → s = fallback ∧ fallback ≠ none.
Proof. unfold strategyOf. case_bool_decide; naive_solver. Qed.

Lemma accounted_empty fallbackStrategy : accounted fallbackStrategy [] emptyResult.
Proof. by repeat split. Qed.

Lemma autoResolveConflicts_accounted registry conflicts dryRun fallback w :
  ∃ r w',
    autoResolveConflicts pathJoin repoPath registry conflicts dryRun fallback w
    = (Ok r, w')
    ∧ warnings r = warningOf <$> fallbackApplied r
    ∧ Forall (λ e, fa_strategy e = fallback ∧ fallback ≠ none)
        (fallbackApplied r)
    ∧ resolvedFiles r
      ≡ₚ (rb_file <$> resolvedBy r) ++ (fa_file <$> fallbackApplied r)
    ∧ (rb_file <$> resolvedBy r) ++ (fa_file <$> fallbackApplied r)
      ++ failedFiles r ≡ₚ file <$> conflicts.
Proof.
  unfold autoResolveConflicts.
  destruct (resolveAll_invariant pathJoin repoPath
              (Registry.getConflictResolutionPlugins registry) dryRun
              (strategyOf fallback)
              (λ seen r _, accounted (strategyOf fallback) seen r))
    with (conflicts := conflicts) (seen := @nil GitConflict)
         (r := emptyResult) (w := w)
    as (r & w' & E & Hw & Hs & Hr & Hall).
  { intros seen c r0 w0 r1 w1 Hacc S. by eapply accounted_step. }
  { apply accounted_empty. }
  exists r, w'. split; [done|]. split; [done|]. split; [|done].
  eapply Forall_impl; [exact Hs|]. simpl. intros e He.
  by apply strategyOf_Some in He.
Qed.


(** When the conflicts name distinct files, no file is both in
    [fallbackApplied] and in [resolvedBy]. *)
Lemma fallback_files_not_plugin_files registry conflicts dryRun fallback w r w' :
  NoDup (file <$> conflicts) →
  autoResolveConflicts pathJoin repoPath registry conflicts dryRun fallback w
  = (Ok r, w') →
  ∀ f, f ∈ fa_file <$> fallbackApplied r → f ∉ rb_file <$> resolvedBy r.
Proof.
  intros Hnd E f Hfa Hrb.
  destruct (autoResolveConflicts_accounted registry conflicts dryRun fallback w)
    as (r0 & w0 & E0 & _ & _ & _ & Hall).
  rewrite E in E0. injection E0 as <- <-.
  rewrite <- Hall in Hnd.
  apply NoDup_app in Hnd as (_ & Hdisj & _).
  apply (Hdisj f Hrb). apply elem_of_app. by left.
Qed.

End Outcomes.

(** ** Dry runs *)

Section DryRun.
Import Js Resolver.
Variable pathJoin : string → string → string.
Variable repoPath : string.

Abbreviation pathOf := (λ c : GitConflict, pathJoin repoPath (file c)).

Lemma runPlugins_local conflict plugins w1 w2 :
  (∀ p, p ∈ plugins → localTo pathJoin repoPath p conflict) →
  files w1 !! pathOf conflict = files w2 !! pathOf conflict →
  (runPlugins pathJoin repoPath conflict plugins w1).1
  = (runPlugins pathJoin repoPath conflict plugins w2).1.
Proof.
  intros Hloc Hagree.
  induction plugins as [|p plugins IH]; [done|]. simpl.
  assert (IH' : (runPlugins pathJoin repoPath conflict plugins w1).1
                = (runPlugins pathJoin repoPath conflict plugins w2).1).
  { apply IH. intros x Hx. apply Hloc. by right. }
  assert (Hp : localTo pathJoin repoPath p conflict) by (apply Hloc; by left).
  destruct (Plugin.supports p conflict); simpl; [|done].
  unfold bind. rewrite (Hp w1 w2 Hagree).
  by destruct (Plugin.resolve p conflict _) as [[r|]|e].
Qed.

Lemma applyFallbackStrategy_local conflict s w1 w2 :
  files w1 !! pathOf conflict = files w2 !! pathOf conflict →
  (applyFallbackStrategy pathJoin repoPath conflict s w1).1
  = (applyFallbackStrategy pathJoin repoPath conflict s w2).1.
Proof.
  intros Hagree. unfold applyFallbackStrategy, bind, readFile.
  rewrite Hagree. by destruct (files w2 !! pathOf conflict).
Qed.

Abbreviation sameElsewhere' := (sameElsewhere pathJoin repoPath).

Lemma sameElsewhere_written conflict text w :
  sameElsewhere' conflict w (written pathJoin repoPath (file conflict) text w).
Proof.
  repeat split. intros path Hne. simpl. by rewrite lookup_insert_ne.
Qed.

Lemma resolveOne_dry_or_not plugins fallbackStrategy conflict r wd wn :
  (∀ p, p ∈ plugins → localTo pathJoin repoPath p conflict) →
  files wd !! pathOf conflict = files wn !! pathOf conflict →
  pathOf conflict ∉ unwritable wn →
  ∃ r' wn',
    resolveOne pathJoin repoPath plugins true fallbackStrategy conflict r wd
    = (Ok r', wd)
    ∧ resolveOne pathJoin repoPath plugins false fallbackStrategy conflict r wn
      = (Ok r', wn')
    ∧ sameElsewhere' conflict wn wn'.
Proof.
  intros Hloc Hagree Hwr.
  unfold resolveOne, tryCatch, tryResolve, bind, ret.
  rewrite (runPlugins_same_world pathJoin repoPath conflict plugins wd).
  rewrite (runPlugins_same_world pathJoin repoPath conflict plugins wn).
  rewrite (runPlugins_local conflict plugins wd wn Hloc Hagree).
  destruct (runPlugins pathJoin repoPath conflict plugins wn).1 as [[o|]|e];
    simpl.
  - unfold writeResolvedFile. rewrite (bool_decide_false _ Hwr). simpl.
    eexists _, _. split; [done|]. split; [done|].
    apply sameElsewhere_written.
  - destruct fallbackStrategy as [s|].
    2:{ eexists _, _. split; [done|]. split; [done|]. done. }
    rewrite (applyFallbackStrategy_same_world pathJoin repoPath conflict s wd).
    rewrite (applyFallbackStrategy_same_world pathJoin repoPath conflict s wn).
    rewrite (applyFallbackStrategy_local conflict s wd wn Hagree).
    destruct (applyFallbackStrategy pathJoin repoPath conflict s wn).1
      as [[text|]|e]; simpl.
    + destruct (truthy text); simpl.
      * unfold writeResolvedFile. rewrite (bool_decide_false _ Hwr). simpl.
        eexists _, _. split; [done|]. split; [done|].
        apply sameElsewhere_written.
      * eexists _, _. split; [done|]. split; [done|]. done.
    + eexists _, _. split; [done|]. split; [done|]. done.
    + eexists _, _. split; [done|]. split; [done|]. done.
  - eexists _, _. split; [done|]. split; [done|]. done.
Qed.

Lemma resolveAll_dry_or_not plugins fallbackStrategy conflicts :
  ∀ r wd wn,
    NoDup (pathOf <$> conflicts) →
    (∀ c p, c ∈ conflicts → p ∈ plugins → localTo pathJoin repoPath p c) →
    (∀ c, c ∈ conflicts → files wd !! pathOf c = files wn !! pathOf c) →
    (∀ c, c ∈ conflicts → pathOf c ∉ unwritable wn) →
    (resolveAll pathJoin repoPath plugins true fallbackStrategy conflicts r wd).1
    = (resolveAll pathJoin repoPath plugins false fallbackStrategy conflicts r wn).1.
Proof.
  induction conflicts as [|c conflicts IH]; intros r wd wn Hnd Hloc Hagree Hwr;
    [done|].
  rewrite fmap_cons in Hnd. apply NoDup_cons in Hnd as [Hc Hnd].
  destruct (resolveOne_dry_or_not plugins fallbackStrategy c r wd wn)
    as (r' & wn' & Ed & En & Hu & Hst & Hfiles).
  { intros p Hp. apply Hloc; [by left|done]. }
  { apply Hagree. by left. }
  { apply Hwr. by left. }
  cbn [resolveAll]. unfold bind. rewrite Ed, En.
  apply IH; [done| | |].
  - intros c' p Hc' Hp. apply Hloc; [by right|done].
  - intros c' Hc'. rewrite Hfiles.
    + apply Hagree. by right.
    + intros Heq. apply Hc. rewrite <- Heq.
      by apply (list_elem_of_fmap_2 pathOf).
  - intros c' Hc'. rewrite Hu. apply Hwr. by right.
Qed.

Abbreviation viewOf := Registry.getConflictResolutionPlugins.
Abbreviation answerIn := (pluginAnswer pathJoin repoPath).
Abbreviation fallbackIn := (fallbackAnswers pathJoin repoPath).
Abbreviation resolvedIn' := (resolvedIn pathJoin repoPath).

(** One dry iteration: the conflict is evaluated in the world as it is,
    which stays as it is. *)
Lemma resolveOne_dry_exact plugins fallbackStrategy conflict r w :
  ∃ r',
    resolveOne pathJoin repoPath plugins true fallbackStrategy conflict r w
    = (Ok r', w)
    ∧ resolvedFiles r'
      = resolvedFiles r
        ++ (if resolvedIn' plugins fallbackStrategy w conflict
            then [file conflict] else [])
    ∧ failedFiles r'
      = failedFiles r
        ++ (if resolvedIn' plugins fallbackStrategy w conflict
            then [] else [file conflict])
    ∧ resolvedBy r'
      = resolvedBy r
        ++ option_list (resolvedByOf conflict <$> answerIn plugins w conflict)
    ∧ fa_file <$> fallbackApplied r'
      = (fa_file <$> fallbackApplied r)
        ++ (if fallbackIn plugins fallbackStrategy w conflict
            then [file conflict] else []).
Proof.
  unfold resolveOne, tryCatch, tryResolve, bind, ret.
  unfold resolvedIn, pluginAnswer, fallbackAnswers.
  rewrite (runPlugins_same_world pathJoin repoPath conflict plugins w).
  destruct (runPlugins pathJoin repoPath conflict plugins w).1 as [[o|]|e];
    cbn [negb fst snd].
  - eexists. split; [reflexivity|].
    cbn [resolvedFiles failedFiles resolvedBy fallbackApplied recordPlugin
         fmap option_fmap option_map option_list].
    by rewrite !app_nil_r.
  - destruct fallbackStrategy as [s|].
    2:{ eexists. split; [reflexivity|].
        cbn [resolvedFiles failedFiles resolvedBy fallbackApplied
             recordFailure fmap option_fmap option_map option_list].
        by rewrite !app_nil_r. }
    rewrite (applyFallbackStrategy_same_world pathJoin repoPath conflict s w).
    destruct (applyFallbackStrategy pathJoin repoPath conflict s w).1
      as [[text|]|e]; cbn [fst snd].
    + destruct (truthy text); cbn [negb].
      * eexists. split; [reflexivity|].
        cbn [resolvedFiles failedFiles resolvedBy fallbackApplied
             recordFallback fmap option_fmap option_map option_list].
        rewrite fmap_app, !app_nil_r. done.
      * eexists. split; [reflexivity|].
        cbn [resolvedFiles failedFiles resolvedBy fallbackApplied
             recordFailure fmap option_fmap option_map option_list].
        by rewrite !app_nil_r.
    + eexists. split; [reflexivity|].
      cbn [resolvedFiles failedFiles resolvedBy fallbackApplied
           recordFailure fmap option_fmap option_map option_list].
      by rewrite !app_nil_r.
    + eexists. split; [reflexivity|].
      cbn [resolvedFiles failedFiles resolvedBy fallbackApplied
           recordFailure fmap option_fmap option_map option_list].
      by rewrite !app_nil_r.
  - eexists. split; [reflexivity|].
    cbn [resolvedFiles failedFiles resolvedBy fallbackApplied
         recordFailure fmap option_fmap option_map option_list].
    by rewrite !app_nil_r.
Qed.

(** A dry run evaluates every conflict in the world it was given. *)
Lemma resolveAll_dry_exact plugins fallbackStrategy w conflicts : ∀ r,
  ∃ r',
    resolveAll pathJoin repoPath plugins true fallbackStrategy conflicts r w
    = (Ok r', w)
    ∧ resolvedFiles r'
      = resolvedFiles r
        ++ (file <$> filter
              (λ c, resolvedIn' plugins fallbackStrategy w c = true) conflicts)
    ∧ failedFiles r'
      = failedFiles r
        ++ (file <$> filter
              (λ c, resolvedIn' plugins fallbackStrategy w c = false) conflicts)
    ∧ resolvedBy r'
      = resolvedBy r
        ++ omap (λ c, resolvedByOf c <$> answerIn plugins w c) conflicts
    ∧ fa_file <$> fallbackApplied r'
      = (fa_file <$> fallbackApplied r)
        ++ (file <$> filter
              (λ c, fallbackIn plugins fallbackStrategy w c = true) conflicts).
Proof.
  induction conflicts as [|c conflicts IH]; intros r.
  { exists r. cbn. by rewrite !app_nil_r. }
  destruct (resolveOne_dry_exact plugins fallbackStrategy c r w)
    as (r1 & E1 & H1 & H2 & H3 & H4).
  destruct (IH r1) as (r' & E & G1 & G2 & G3 & G4).
  exists r'. split.
  { cbn [resolveAll]. unfold bind. by rewrite E1. }
  rewrite G1, G2, G3, G4, H1, H2, H3, H4, <- !app_assoc.
  rewrite !filter_cons. cbn [omap list_omap].
  destruct (resolvedIn' plugins fallbackStrategy w c) eqn:Er;
    destruct (fallbackIn plugins fallbackStrategy w c) eqn:Ef;
    destruct (answerIn plugins w c) as [o|] eqn:Ea;
    cbn [fmap option_fmap option_map option_list];
    repeat case_decide; try congruence; done.
Qed.

(** C7, amended.  With [dryRun = true], [autoResolveConflicts] performs
    the matching and merge computation for every conflict, against the
    working tree as it is at the call: it returns, and a conflict's file
    is in [resolvedFiles] exactly when a plugin answers for the conflict
    or the fallback computes a text that is not empty, in [failedFiles]
    otherwise; [resolvedBy] has the entries of the plugins that answer and
    [fallbackApplied] the files the fallback resolves, all in the order
    of the conflicts.  It writes no file and stages nothing: the world
    is returned as it was.  It returns the result of the run with
    [dryRun = false] when the conflicts name distinct files that can be
    written and the plugins read the conflicted file only. *)
Theorem dry_run_frame registry conflicts fallback w :
  ∃ r,
    autoResolveConflicts pathJoin repoPath registry conflicts true fallback w
    = (Ok r, w)
    ∧ resolvedFiles r
      = file <$> filter
          (λ c, resolvedIn' (viewOf registry) (strategyOf fallback) w c = true)
          conflicts
    ∧ failedFiles r
      = file <$> filter
          (λ c, resolvedIn' (viewOf registry) (strategyOf fallback) w c = false)
          conflicts
    ∧ resolvedBy r
      = omap (λ c, resolvedByOf c <$> answerIn (viewOf registry) w c) conflicts
    ∧ fa_file <$> fallbackApplied r
      = file <$> filter
          (λ c, fallbackIn (viewOf registry) (strategyOf fallback) w c = true)
          conflicts
    ∧ (NoDup (pathOf <$> conflicts) →
       (∀ c, c ∈ conflicts → pathOf c ∉ unwritable w) →
       (∀ c p, c ∈ conflicts → p ∈ viewOf registry →
          localTo pathJoin repoPath p c) →
       (autoResolveConflicts pathJoin repoPath registry conflicts false
          fallback w).1 = Ok r).
Proof.
  unfold autoResolveConflicts.
  destruct (resolveAll_dry_exact (viewOf registry) (strategyOf fallback) w
              conflicts emptyResult) as (r & E & H1 & H2 & H3 & H4).
  exists r. split; [exact E|]. repeat (split; [done|]).
  intros Hnd Hwr Hloc.
  rewrite <- (resolveAll_dry_or_not (viewOf registry) (strategyOf fallback)
                conflicts emptyResult w w Hnd Hloc (λ _ _, eq_refl) Hwr).
  by rewrite E.
Qed.

Lemma builtin_local localeCompare p conflict :
  p ∈ Builtin.builtinPlugins localeCompare →
  localTo pathJoin repoPath p conflict.
Proof.
  unfold Builtin.builtinPlugins. intros Hp w1 w2 Hagree.
  assert (Hread : Plugin.readFile (createContext pathJoin repoPath w1)
                    (file conflict)
                  = Plugin.readFile (createContext pathJoin repoPath w2)
                      (file conflict)).
  { simpl. unfold readFile. rewrite Hagree.
    by destruct (files w2 !! pathJoin repoPath (file conflict)). }
  repeat (apply elem_of_cons in Hp as [->|Hp]);
    [| | |by apply elem_of_nil in Hp];
    simpl; unfold Builtin.replaceConflictBlocks; by rewrite Hread.
Qed.

End DryRun.

(** C7 as stated fails: with the spacing file write-protected the dry run
    lists it in [resolvedFiles], and the run that is not dry lists it in
    [failedFiles]. *)
Lemma dry_run_counterexample :
  ¬ statedDryRun Samples.joinPath "/repo" Samples.builtinRegistry
      Samples.twoConflicts Resolver.current Samples.readOnlyFiles.
Proof.
  intros (dry & real & wd & wr & Ed & Er & Hsame & _).
  assert (Hd : (Resolver.autoResolveConflicts Samples.joinPath "/repo"
                  Samples.builtinRegistry Samples.twoConflicts true
                  Resolver.current Samples.readOnlyFiles).1
               = Ok dry) by (by rewrite Ed).
  assert (Hr : (Resolver.autoResolveConflicts Samples.joinPath "/repo"
                  Samples.builtinRegistry Samples.twoConflicts false
                  Resolver.current Samples.readOnlyFiles).1
               = Ok real) by (by rewrite Er).
  assert (Fd : Resolver.resolvedFiles dry = [ "a.txt"; "area.js" ]).
  { vm_compute in Hd. by injection Hd as <-. }
  assert (Fr : Resolver.resolvedFiles real = [ "area.js" ]).
  { vm_compute in Hr. by injection Hr as <-. }
  rewrite Fd, Fr in Hsame. discriminate.
Qed.

Lemma dry_run_frame_witness :
  (NoDup ((λ c, Samples.joinPath "/repo" (file c)) <$> Samples.twoConflicts)
   ∧ (∀ c, c ∈ Samples.twoConflicts →
        Samples.joinPath "/repo" (file c)
        ∉ Resolver.unwritable Samples.twoFiles)
   ∧ (∀ c p, c ∈ Samples.twoConflicts →
        p ∈ Registry.getConflictResolutionPlugins Samples.builtinRegistry →
        Resolver.localTo Samples.joinPath "/repo" p c))
  ∧ ∃ r,
      Resolver.autoResolveConflicts Samples.joinPath "/repo"
        Samples.builtinRegistry Samples.twoConflicts true Resolver.current
        Samples.twoFiles = (Ok r, Samples.twoFiles)
      ∧ Resolver.resolvedFiles r = [ "a.txt"; "area.js" ]
      ∧ Resolver.failedFiles r = []
      ∧ (Resolver.autoResolveConflicts Samples.joinPath "/repo"
           Samples.builtinRegistry Samples.twoConflicts false Resolver.current
           Samples.twoFiles).1 = Ok r.
Proof.
  assert (H1 : NoDup ((λ c, Samples.joinPath "/repo" (file c))
                      <$> Samples.twoConflicts)).
  { apply (bool_decide_unpack _). by vm_compute. }
  assert (H2 : ∀ c, c ∈ Samples.twoConflicts →
            Samples.joinPath "/repo" (file c)
            ∉ Resolver.unwritable Samples.twoFiles).
  { intros c _. simpl. set_solver. }
  assert (H3 : ∀ c p, c ∈ Samples.twoConflicts →
            p ∈ Registry.getConflictResolutionPlugins Samples.builtinRegistry →
            Resolver.localTo Samples.joinPath "/repo" p c).
  { intros c p _ Hp. apply (builtin_local _ _ Samples.codeOrder).
    rewrite view_perm in Hp. exact Hp. }
  split; [done|].
  destruct (dry_run_frame Samples.joinPath "/repo" Samples.builtinRegistry
              Samples.twoConflicts Resolver.current Samples.twoFiles)
    as (r & E & Hres & Hfail & _ & _ & Hsame).
  exists r. split; [exact E|].
  split; [rewrite Hres; by vm_compute|].
  split; [rewrite Hfail; by vm_compute|].
  exact (Hsame H1 H2 H3).
Defined.

(** ** A plugin that throws *)

Section Throwing.
Import Js Resolver.
Variable pathJoin : string → string → string.
Variable repoPath : string.

(** [runPlugins] throws what the first plugin it calls throws, once the
    plugins before it have been passed over or have declined. *)
Lemma runPlugins_throw conflict skipped p rest w e :
  Forall (λ x, Plugin.supports x conflict = false
               ∨ Plugin.resolve x conflict (createContext pathJoin repoPath w)
                 = Ok None) skipped →
  Plugin.supports p conflict = true →
  Plugin.resolve p conflict (createContext pathJoin repoPath w) = Throw e →
  runPlugins pathJoin repoPath conflict (skipped ++ p :: rest) w = (Throw e, w).
Proof.
  intros Hskip Hsup Hres.
  induction Hskip as [|x skipped Hx _ IH]; simpl.
  - rewrite Hsup. simpl. unfold bind. by rewrite Hres.
  - destruct (Plugin.supports x conflict) eqn:Ex; simpl; [|done].
    destruct Hx as [Hx|Hx]; [done|].
    unfold bind. by rewrite Hx.
Qed.

Lemma resolveOne_throw plugins dryRun fallbackStrategy conflict r w e :
  runPlugins pathJoin repoPath conflict plugins w = (Throw e, w) →
  resolveOne pathJoin repoPath plugins dryRun fallbackStrategy conflict r w
  = (Ok (recordFailure conflict (failedMessage (file conflict) e) r), w).
Proof.
  intros Hrun. unfold resolveOne, tryCatch, tryResolve, bind.
  by rewrite Hrun.
Qed.

Lemma resolveAll_app plugins dryRun fallbackStrategy xs ys r w :
  resolveAll pathJoin repoPath plugins dryRun fallbackStrategy (xs ++ ys) r w
  = bind (resolveAll pathJoin repoPath plugins dryRun fallbackStrategy xs r)
      (λ r', resolveAll pathJoin repoPath plugins dryRun fallbackStrategy ys r')
      w.
Proof.
  revert r w. unfold bind.
  induction xs as [|x xs IH]; intros r w; [done|].
  cbn [app resolveAll]. unfold bind.
  destruct (resolveOne pathJoin repoPath plugins dryRun fallbackStrategy x r w)
    as [[r1|e] w1]; [apply IH|done].
Qed.

(** A recorded failure stays in the result to the end of the run. *)
Lemma resolveAll_keeps_failure plugins dryRun fallbackStrategy conflicts
    f message r w :
  f ∈ failedFiles r → message ∈ errors r → success r = false →
  ∃ r' w',
    resolveAll pathJoin repoPath plugins dryRun fallbackStrategy conflicts r w
    = (Ok r', w')
    ∧ f ∈ failedFiles r' ∧ message ∈ errors r' ∧ success r' = false.
Proof.
  intros Hf Hm Hs.
  apply (resolveAll_invariant pathJoin repoPath plugins dryRun fallbackStrategy
           (λ _ r _, f ∈ failedFiles r ∧ message ∈ errors r ∧ success r = false))
    with (seen := @nil GitConflict); [|by repeat split].
  intros _ c r0 w0 r1 w1 (Hf0 & Hm0 & Hs0) S.
  destruct S; simpl; repeat split; try done; apply elem_of_app; by left.
Qed.

(** C4 as stated fails: with the broken plugin registered, which claims
    the conflict and throws, the run returns; it does not throw.  The
    error is in [errors] and the file in [failedFiles]. *)
Lemma plugin_throw_counterexample :
  Plugin.supports Samples.brokenPlugin Samples.functionConflict = true
  ∧ (∀ context,
       Plugin.resolve Samples.brokenPlugin Samples.functionConflict context
       = Throw "Error: Simple content plugin could not compute replacement")
  ∧ (∃ r,
       autoResolveConflicts Samples.joinPath "/repo" Samples.brokenRegistry
         [Samples.functionConflict] false current Samples.twoFiles
       = (Ok r, Samples.twoFiles)
       ∧ failedFiles r = ["area.js"]
       ∧ errors r
         = ["Failed to resolve area.js: Error: Simple content plugin could not compute replacement"])
  ∧ ¬ ∃ e,
        propagates
          (autoResolveConflicts Samples.joinPath "/repo" Samples.brokenRegistry
             [Samples.functionConflict] false current)
          Samples.twoFiles e.
Proof.
  assert (E : ∃ r,
    autoResolveConflicts Samples.joinPath "/repo" Samples.brokenRegistry
      [Samples.functionConflict] false current Samples.twoFiles
    = (Ok r, Samples.twoFiles)
    ∧ failedFiles r = ["area.js"]
    ∧ errors r
      = ["Failed to resolve area.js: Error: Simple content plugin could not compute replacement"]).
  { eexists. split; [vm_compute; reflexivity|]. by split. }
  split; [reflexivity|]. split; [reflexivity|]. split; [exact E|].
  destruct E as (r & E & _). intros [e He]. unfold propagates in He.
  rewrite E in He. discriminate.
Qed.

(** C4, amended: when a plugin's [supports] returns true for a conflict
    and its [resolve] then throws (the plugins before it having been
    passed over or having declined), the error does not leave the run: the
    iteration's [catch] puts the file in [failedFiles] and the text
    "Failed to resolve <file>: <error>" in [errors], sets [success] to
    false and leaves the world as it was; the run goes on with the next
    conflict and returns its result. *)
Theorem plugin_throw_is_recorded registry before conflict after dryRun fallback
    w r1 w1 skipped p rest e :
  resolveAll pathJoin repoPath (Registry.getConflictResolutionPlugins registry)
    dryRun (strategyOf fallback) before emptyResult w = (Ok r1, w1) →
  Registry.getConflictResolutionPlugins registry = skipped ++ p :: rest →
  Forall (λ x, Plugin.supports x conflict = false
               ∨ Plugin.resolve x conflict (createContext pathJoin repoPath w1)
                 = Ok None) skipped →
  Plugin.supports p conflict = true →
  Plugin.resolve p conflict (createContext pathJoin repoPath w1) = Throw e →
  resolveOne pathJoin repoPath (Registry.getConflictResolutionPlugins registry)
    dryRun (strategyOf fallback) conflict r1 w1
  = (Ok (recordFailure conflict (failedMessage (file conflict) e) r1), w1)
  ∧ ∃ r w',
      autoResolveConflicts pathJoin repoPath registry
        (before ++ conflict :: after) dryRun fallback w = (Ok r, w')
      ∧ file conflict ∈ failedFiles r
      ∧ failedMessage (file conflict) e ∈ errors r
      ∧ success r = false.
Proof.
  intros Hbefore Hview Hskip Hsup Hres.
  assert (Hone : resolveOne pathJoin repoPath
                   (Registry.getConflictResolutionPlugins registry)
                   dryRun (strategyOf fallback) conflict r1 w1
                 = (Ok (recordFailure conflict
                          (failedMessage (file conflict) e) r1), w1)).
  { apply resolveOne_throw. rewrite Hview. by apply runPlugins_throw. }
  split; [done|].
  destruct (resolveAll_keeps_failure
              (Registry.getConflictResolutionPlugins registry) dryRun
              (strategyOf fallback) after (file conflict)
              (failedMessage (file conflict) e)
              (recordFailure conflict (failedMessage (file conflict) e) r1) w1)
    as (r & w' & E & Hf & Hm & Hs).
  { simpl. apply elem_of_app. right. by left. }
  { simpl. apply elem_of_app. right. by left. }
  { done. }
  exists r, w'. split; [|done].
  unfold autoResolveConflicts. rewrite resolveAll_app. unfold bind at 1.
  rewrite Hbefore. cbn [resolveAll]. unfold bind at 1. by rewrite Hone.
Qed.

End Throwing.

Lemma plugin_throw_is_recorded_witness :
  (Resolver.resolveAll Samples.joinPath "/repo"
     (Registry.getConflictResolutionPlugins Samples.brokenRegistry) false
     (Resolver.strategyOf Resolver.current) [Samples.spacingConflict]
     Resolver.emptyResult Samples.twoFiles
   = (Ok Samples.afterSpacingResult, Samples.afterSpacing)
   ∧ Registry.getConflictResolutionPlugins Samples.brokenRegistry
     = [ Builtin.whitespacePlugin; Builtin.importPlugin Samples.codeOrder;
         Builtin.simpleContentPlugin ] ++ Samples.brokenPlugin :: []
   ∧ Forall (λ x, Plugin.supports x Samples.functionConflict = false
                  ∨ Plugin.resolve x Samples.functionConflict
                      (Resolver.createContext Samples.joinPath "/repo"
                         Samples.afterSpacing)
                    = Ok None)
       [ Builtin.whitespacePlugin; Builtin.importPlugin Samples.codeOrder;
         Builtin.simpleContentPlugin ]
   ∧ Plugin.supports Samples.brokenPlugin Samples.functionConflict = true
   ∧ Plugin.resolve Samples.brokenPlugin Samples.functionConflict
       (Resolver.createContext Samples.joinPath "/repo" Samples.afterSpacing)
     = Throw "Error: Simple content plugin could not compute replacement")
  ∧ Resolver.resolveOne Samples.joinPath "/repo"
      (Registry.getConflictResolutionPlugins Samples.brokenRegistry) false
      (Resolver.strategyOf Resolver.current) Samples.functionConflict
      Samples.afterSpacingResult Samples.afterSpacing
    = (Ok (Resolver.recordFailure Samples.functionConflict
             (Resolver.failedMessage (file Samples.functionConflict)
                "Error: Simple content plugin could not compute replacement")
             Samples.afterSpacingResult),
       Samples.afterSpacing)
  ∧ ∃ r w',
      Resolver.autoResolveConflicts Samples.joinPath "/repo"
        Samples.brokenRegistry
        ([Samples.spacingConflict] ++ Samples.functionConflict :: [])
        false Resolver.current Samples.twoFiles = (Ok r, w')
      ∧ file Samples.functionConflict ∈ Resolver.failedFiles r
      ∧ Resolver.failedMessage (file Samples.functionConflict)
          "Error: Simple content plugin could not compute replacement"
        ∈ Resolver.errors r
      ∧ Resolver.success r = false.
Proof.
  assert (H1 : Resolver.resolveAll Samples.joinPath "/repo"
     (Registry.getConflictResolutionPlugins Samples.brokenRegistry) false
     (Resolver.strategyOf Resolver.current) [Samples.spacingConflict]
     Resolver.emptyResult Samples.twoFiles
   = (Ok Samples.afterSpacingResult, Samples.afterSpacing))
    by (vm_compute; reflexivity).
  assert (H2 : Registry.getConflictResolutionPlugins Samples.brokenRegistry
     = [ Builtin.whitespacePlugin; Builtin.importPlugin Samples.codeOrder;
         Builtin.simpleContentPlugin ] ++ Samples.brokenPlugin :: [])
    by reflexivity.
  assert (H3 : Forall (λ x, Plugin.supports x Samples.functionConflict = false
                  ∨ Plugin.resolve x Samples.functionConflict
                      (Resolver.createContext Samples.joinPath "/repo"
                         Samples.afterSpacing)
                    = Ok None)
       [ Builtin.whitespacePlugin; Builtin.importPlugin Samples.codeOrder;
         Builtin.simpleContentPlugin ]).
  { repeat constructor; left; vm_compute; reflexivity. }
  assert (H4 : Plugin.supports Samples.brokenPlugin Samples.functionConflict
               = true) by reflexivity.
  assert (H5 : Plugin.resolve Samples.brokenPlugin Samples.functionConflict
       (Resolver.createContext Samples.joinPath "/repo" Samples.afterSpacing)
     = Throw "Error: Simple content plugin could not compute replacement")
    by reflexivity.
  split; [done|].
  exact (plugin_throw_is_recorded Samples.joinPath "/repo"
           Samples.brokenRegistry [Samples.spacingConflict]
           Samples.functionConflict [] false Resolver.current Samples.twoFiles
           Samples.afterSpacingResult Samples.afterSpacing _ _ _ _
           H1 H2 H3 H4 H5).
Defined.

(** ** Priority *)

Section Priority.
Import Js Resolver.
Variable pathJoin : string → string → string.
Variable repoPath : string.

Lemma resolveOne_by_plugin plugins fallbackStrategy conflict result w o :
  runPlugins pathJoin repoPath conflict plugins w = (Ok (Some o), w) →
  pathJoin repoPath (file conflict) ∉ unwritable w →
  resolveOne pathJoin repoPath plugins false fallbackStrategy conflict result w
  = (Ok (recordPlugin conflict o result),
     written pathJoin repoPath (file conflict) (o_content o) w).
Proof.
  intros Hrun Hw. unfold resolveOne, tryCatch, tryResolve, bind.
  rewrite Hrun. simpl. unfold writeResolvedFile.
  by rewrite (bool_decide_false _ Hw).
Qed.

(** C5.  The ordered view of the registry holds the registered plugins,
    sorted by ascending priority, an unset priority counting as 100, and
    plugins of equal priority in the order of registration.  In a run,
    the plugin that resolves a conflict has the least priority among the
    plugins that support the conflict and do not decline; and when two
    registered plugins support a conflict (no third does), the one of
    lower priority resolves it, and its content is what is written. *)
Theorem lower_priority_plugin_wins registry :
  let view := Registry.getConflictResolutionPlugins registry in
  StronglySorted
    (λ a b, (Registry.priorityOf a ≤ Registry.priorityOf b)%Z) view
  ∧ view ≡ₚ registry.*2
  ∧ (∀ k, filter (λ p, Registry.priorityOf p = k) view
          = filter (λ p, Registry.priorityOf p = k) registry.*2)
  ∧ (∀ p, Plugin.priority p = None → Registry.priorityOf p = 100%Z)
  ∧ (∀ conflict w o w',
       runPlugins pathJoin repoPath conflict view w = (Ok (Some o), w') →
       ∀ q, q ∈ registry.*2 →
         Plugin.supports q conflict = true →
         (∃ r, Plugin.resolve q conflict (createContext pathJoin repoPath w)
               = Ok (Some r)) →
         (Registry.priorityOf (o_plugin o) ≤ Registry.priorityOf q)%Z)
  ∧ (∀ conflict w p q r result fallbackStrategy,
       p ∈ registry.*2 →
       q ∈ registry.*2 →
       Plugin.supports p conflict = true →
       Plugin.supports q conflict = true →
       (∀ x, x ∈ registry.*2 → Plugin.supports x conflict = true →
             x = p ∨ x = q) →
       (Registry.priorityOf p < Registry.priorityOf q)%Z →
       Plugin.resolve p conflict (createContext pathJoin repoPath w)
       = Ok (Some r) →
       runPlugins pathJoin repoPath conflict view w
       = (Ok (Some (outcomeOf p r)), w)
       ∧ (pathJoin repoPath (file conflict) ∉ unwritable w →
          resolveOne pathJoin repoPath view false fallbackStrategy conflict
            result w
          = (Ok (recordPlugin conflict (outcomeOf p r) result),
             written pathJoin repoPath (file conflict) (Plugin.content r) w))).
Proof.
  intros view.
  split; [apply view_ascending|]. split; [apply view_perm|].
  split; [apply view_stable|].
  split; [by intros p; unfold Registry.priorityOf; intros ->|].
  split.
  - intros conflict w o w' Hrun q Hq Hsup Hres.
    apply (runPlugins_least pathJoin repoPath conflict view w o w');
      [apply view_ascending|done| |done|done].
    unfold view. by rewrite view_perm.
  - intros conflict w p q r result fallbackStrategy Hp Hq Hsp Hsq Honly Hlt Hres.
    assert (Hrun : runPlugins pathJoin repoPath conflict view w
                   = (Ok (Some (outcomeOf p r)), w)).
    { apply (runPlugins_lower_priority pathJoin repoPath conflict view w p q r);
        [apply view_ascending| |done| |done|done].
      - unfold view. by rewrite view_perm.
      - intros x Hx. apply Honly. unfold view in Hx. by rewrite view_perm in Hx. }
    split; [done|]. intros Hw.
    by apply (resolveOne_by_plugin view fallbackStrategy conflict result w
                (outcomeOf p r)).
Qed.

End Priority.

Lemma lower_priority_plugin_wins_witness :
  (Builtin.whitespacePlugin ∈ Samples.twoWhitespaceRegistry.*2
   ∧ Samples.keepCurrentPlugin ∈ Samples.twoWhitespaceRegistry.*2
   ∧ Plugin.supports Builtin.whitespacePlugin Samples.spacingConflict = true
   ∧ Plugin.supports Samples.keepCurrentPlugin Samples.spacingConflict = true
   ∧ (∀ x, x ∈ Samples.twoWhitespaceRegistry.*2 →
        Plugin.supports x Samples.spacingConflict = true →
        x = Builtin.whitespacePlugin ∨ x = Samples.keepCurrentPlugin)
   ∧ (Registry.priorityOf Builtin.whitespacePlugin
      < Registry.priorityOf Samples.keepCurrentPlugin)%Z
   ∧ Plugin.resolve Builtin.whitespacePlugin Samples.spacingConflict
       (Resolver.createContext Samples.joinPath "/repo" Samples.twoFiles)
     = Ok (Some Samples.spacingResolution)
   ∧ Samples.joinPath "/repo" (file Samples.spacingConflict)
     ∉ Resolver.unwritable Samples.twoFiles)
  ∧ Resolver.runPlugins Samples.joinPath "/repo" Samples.spacingConflict
      (Registry.getConflictResolutionPlugins Samples.twoWhitespaceRegistry)
      Samples.twoFiles
    = (Ok (Some (Resolver.outcomeOf Builtin.whitespacePlugin
                   Samples.spacingResolution)),
       Samples.twoFiles)
  ∧ Resolver.resolveOne Samples.joinPath "/repo"
      (Registry.getConflictResolutionPlugins Samples.twoWhitespaceRegistry)
      false (Some Resolver.incoming) Samples.spacingConflict
      Resolver.emptyResult Samples.twoFiles
    = (Ok (Resolver.recordPlugin Samples.spacingConflict
             (Resolver.outcomeOf Builtin.whitespacePlugin
                Samples.spacingResolution)
             Resolver.emptyResult),
       Resolver.written Samples.joinPath "/repo"
         (file Samples.spacingConflict)
         (Plugin.content Samples.spacingResolution) Samples.twoFiles).
Proof.
  assert (Hreg : Samples.twoWhitespaceRegistry.*2
                 = [ Builtin.whitespacePlugin;
                     Builtin.importPlugin Samples.codeOrder;
                     Builtin.simpleContentPlugin; Samples.keepCurrentPlugin ])
    by reflexivity.
  assert (H1 : Builtin.whitespacePlugin ∈ Samples.twoWhitespaceRegistry.*2)
    by (rewrite Hreg; by left).
  assert (H2 : Samples.keepCurrentPlugin ∈ Samples.twoWhitespaceRegistry.*2)
    by (rewrite Hreg; do 3 right; by left).
  assert (H3 : Plugin.supports Builtin.whitespacePlugin Samples.spacingConflict
               = true) by (vm_compute; reflexivity).
  assert (H4 : Plugin.supports Samples.keepCurrentPlugin Samples.spacingConflict
               = true) by (vm_compute; reflexivity).
  assert (H5 : ∀ x, x ∈ Samples.twoWhitespaceRegistry.*2 →
             Plugin.supports x Samples.spacingConflict = true →
             x = Builtin.whitespacePlugin ∨ x = Samples.keepCurrentPlugin).
  { intros x Hx Hsup. rewrite Hreg in Hx.
    repeat (apply elem_of_cons in Hx as [->|Hx]).
    - by left.
    - vm_compute in Hsup. discriminate.
    - vm_compute in Hsup. discriminate.
    - by right.
    - by apply elem_of_nil in Hx. }
  assert (H6 : (Registry.priorityOf Builtin.whitespacePlugin
                < Registry.priorityOf Samples.keepCurrentPlugin)%Z)
    by (vm_compute; reflexivity).
  assert (H7 : Plugin.resolve Builtin.whitespacePlugin Samples.spacingConflict
                 (Resolver.createContext Samples.joinPath "/repo"
                    Samples.twoFiles)
               = Ok (Some Samples.spacingResolution))
    by (vm_compute; reflexivity).
  assert (H8 : Samples.joinPath "/repo" (file Samples.spacingConflict)
               ∉ Resolver.unwritable Samples.twoFiles)
    by (simpl; set_solver).
  split; [done|].
  destruct (proj2 (proj2 (proj2 (proj2 (proj2
              (lower_priority_plugin_wins Samples.joinPath "/repo"
                 Samples.twoWhitespaceRegistry)))))
              Samples.spacingConflict Samples.twoFiles
              Builtin.whitespacePlugin Samples.keepCurrentPlugin
              Samples.spacingResolution Resolver.emptyResult
              (Some Resolver.incoming) H1 H2 H3 H4 H5 H6 H7) as [Hrun Hone].
  split; [exact Hrun|exact (Hone H8)].
Defined.

(** ** The fallback *)

Section Fallback.
Import Js Resolver.
Variable pathJoin : string → string → string.
Variable repoPath : string.

Lemma fallbackEach_returns s hs : ∀ text,
  s ≠ none → ∃ out, fallbackEach s hs text = Some out.
Proof.
  induction hs as [|h hs IH]; intros text Hs; simpl; [by eexists|].
  destruct s; try done; by apply IH.
Qed.

(** X25.  For the strategies incoming, current and both,
    [applyFallbackStrategy] returns a string whenever the file can be
    read, also for a conflict without hunks, and leaves the working tree
    as it is. *)
Lemma applyFallbackStrategy_returns conflict s w text :
  s ≠ none →
  files w !! pathJoin repoPath (file conflict) = Some text →
  ∃ out, applyFallbackStrategy pathJoin repoPath conflict s w
         = (Ok (Some out), w).
Proof.
  intros Hs Hread. unfold applyFallbackStrategy, bind, readFile, ret.
  rewrite Hread.
  destruct (fallbackEach_returns s (hunks conflict) text Hs) as [out ->].
  by exists out.
Qed.

(** X26.  With a strategy other than none, when no plugin answers and
    the file can be read, the iteration takes the branch "no automated
    strategy matched" exactly when the text the fallback computed is
    empty. *)
Lemma no_match_iff_empty plugins dryRun conflict s result w text out :
  s ≠ none →
  runPlugins pathJoin repoPath conflict plugins w = (Ok None, w) →
  files w !! pathJoin repoPath (file conflict) = Some text →
  fallbackEach s (hunks conflict) text = Some out →
  resolveOne pathJoin repoPath plugins dryRun (Some s) conflict result w
  = (Ok (recordFailure conflict (noStrategyMessage (file conflict)) result), w)
  ↔ out = "".
Proof.
  intros Hs Hrun Hread Hout.
  unfold resolveOne, tryCatch, tryResolve, bind, ret.
  rewrite Hrun. simpl.
  unfold applyFallbackStrategy, bind, readFile, ret. rewrite Hread, Hout.
  destruct out as [|a out]; simpl; [done|].
  split; [|done].
  destruct dryRun; simpl.
  - intros Heq.
    assert (H' := f_equal (λ x, match x.1 with
                                | Ok r => length (resolvedFiles r)
                                | Throw _ => 0
                                end) Heq).
    simpl in H'. rewrite length_app in H'. simpl in H'. lia.
  - unfold writeResolvedFile. case_bool_decide as Hw; simpl.
    + intros Heq.
      assert (H' := f_equal (λ x, match x.1 with
                                  | Ok r => errors r
                                  | Throw _ => []
                                  end) Heq).
      simpl in H'. apply app_inv_head in H'. discriminate.
    + intros Heq.
      assert (H' := f_equal (λ x, match x.1 with
                                  | Ok r => length (resolvedFiles r)
                                  | Throw _ => 0
                                  end) Heq).
      simpl in H'. rewrite length_app in H'. simpl in H'. lia.
Qed.

End Fallback.

(** C10, where the code departs from it.  [emptiedConflict] is a file
    that is one conflict with an empty incoming side.  No builtin plugin
    supports it (its type is STRUCTURAL), so the fallback runs.  With the
    strategy [incoming] the fallback returns a string, the empty one, and
    throws nothing; the test [if (fallbackContent)] takes the empty string
    for a miss, and the conflict lands in [failedFiles] with "No automated
    strategy matched", although the fallback strategy is not [none]. *)
Theorem fallback_empty_content_is_a_miss :
  type Samples.emptiedConflict = STRUCTURAL
  ∧ autoResolvable Samples.emptiedConflict = true
  ∧ Resolver.runPlugins Samples.joinPath "/repo" Samples.emptiedConflict
      (Registry.getConflictResolutionPlugins Samples.builtinRegistry)
      Samples.emptiedWorld
    = (Ok None, Samples.emptiedWorld)
  ∧ Resolver.applyFallbackStrategy Samples.joinPath "/repo"
      Samples.emptiedConflict Resolver.incoming Samples.emptiedWorld
    = (Ok (Some ""), Samples.emptiedWorld)
  ∧ Resolver.autoResolveConflicts Samples.joinPath "/repo"
      Samples.builtinRegistry [Samples.emptiedConflict] false Resolver.incoming
      Samples.emptiedWorld
    = (Ok {| Resolver.success := false;
             Resolver.resolvedFiles := [];
             Resolver.failedFiles := ["a.ts"];
             Resolver.errors := ["No automated strategy matched a.ts."];
             Resolver.fallbackApplied := [];
             Resolver.warnings := [];
             Resolver.notes := [];
             Resolver.resolvedBy := [] |},
       Samples.emptiedWorld).
Proof. repeat split; vm_compute; reflexivity. Qed.

(* ================================================================== *)
(** * Further properties of the code *)
(* ================================================================== *)

(** ** The parser: shape of the hunks *)

Section ParserShape.
Import Js Parser Layout HunkShape.

(** Whatever holds of a hunk built from a start line, a later separator
    line and a later end line holds of every hunk the loop adds. *)
Lemma scan_emits (P : nat → ConflictHunk → Prop) lines :
  (∀ i i1 i2 l sep e cur base inc,
     lines !! i = Some l → startsWith l "<<<<<<<" = true →
     lines !! i1 = Some sep → startsWith sep "=======" = true →
     lines !! i2 = Some e → startsWith e ">>>>>>>" = true →
     i < i1 → i1 < i2 →
     P i {| startLine := i + 1; endLine := i2 + 1; baseContent := base;
            currentContent := cur; incomingContent := inc;
            conflictMarkers :=
              {| m_start := l; m_separator := sep; m_end := e |} |}) →
  ∀ fuel i acc,
    Forall (λ h, ∃ j, j < i ∧ P j h) acc →
    Forall (λ h, ∃ j, P j h) (scan fuel lines i acc).
Proof.
  intros HP. induction fuel as [|fuel IH]; intros i acc Hacc.
  { simpl. eapply Forall_impl; [exact Hacc|]. intros h (j & _ & Hj). eauto. }
  assert (Hweaken : ∀ k, i ≤ k → Forall (λ h, ∃ j, j < k ∧ P j h) acc).
  { intros k Hk. eapply Forall_impl; [exact Hacc|].
    intros h (j & Hj & Hh). exists j. split; [lia|done]. }
  simpl.
  destruct (lines !! i) as [l|] eqn:El.
  2:{ eapply Forall_impl; [exact Hacc|]. intros h (j & _ & Hj). eauto. }
  destruct (startsWith l "<<<<<<<") eqn:Hl; [|apply IH, Hweaken; lia].
  pose proof (collectCurrent_ge (length lines) lines (i + 1) [] "") as H1.
  destruct (collectCurrent (length lines) lines (i + 1) [] "")
    as [[i1 cur] base]. simpl in H1.
  destruct (lines !! i1) as [sep|] eqn:Esep; [|apply IH, Hweaken; lia].
  destruct (startsWith sep "=======") eqn:Hsep; [|apply IH, Hweaken; lia].
  pose proof (collectUntil_ge (length lines) lines ">>>>>>>" (i1 + 1) []) as H2.
  destruct (collectUntil (length lines) lines ">>>>>>>" (i1 + 1) [])
    as [i2 inc]. simpl in H2.
  destruct (lines !! i2) as [e|] eqn:Ee; [|apply IH, Hweaken; lia].
  destruct (startsWith e ">>>>>>>") eqn:He; [|apply IH, Hweaken; lia].
  apply IH. apply Forall_app. split; [apply Hweaken; lia|].
  constructor; [|constructor].
  exists i. split; [lia|]. apply (HP i i1 i2); try done; lia.
Qed.

(** The hunks are added in the order of the file: each starts after the
    line where the previous one ended. *)
Lemma scan_inOrder lines : ∀ fuel i acc,
  inOrder acc →
  Forall (λ h, endLine h ≤ i) acc →
  inOrder (scan fuel lines i acc).
Proof.
  assert (Hweaken : ∀ (acc : list ConflictHunk) i k,
            i ≤ k → Forall (λ h, endLine h ≤ i) acc →
            Forall (λ h, endLine h ≤ k) acc).
  { intros acc i k Hk Hacc. eapply Forall_impl; [exact Hacc|].
    simpl. intros h Hh. lia. }
  induction fuel as [|fuel IH]; intros i acc Hs Hacc; simpl; [done|].
  destruct (lines !! i) as [l|] eqn:El; [|done].
  destruct (startsWith l "<<<<<<<");
    [|apply IH; [done|apply (Hweaken acc i); [lia|done]]].
  pose proof (collectCurrent_ge (length lines) lines (i + 1) [] "") as H1.
  destruct (collectCurrent (length lines) lines (i + 1) [] "")
    as [[i1 cur] base]. simpl in H1.
  destruct (lines !! i1) as [sep|];
    [|apply IH; [done|apply (Hweaken acc i); [lia|done]]].
  destruct (startsWith sep "=======");
    [|apply IH; [done|apply (Hweaken acc i); [lia|done]]].
  pose proof (collectUntil_ge (length lines) lines ">>>>>>>" (i1 + 1) []) as H2.
  destruct (collectUntil (length lines) lines ">>>>>>>" (i1 + 1) [])
    as [i2 inc]. simpl in H2.
  destruct (lines !! i2) as [e|];
    [|apply IH; [done|apply (Hweaken acc i); [lia|done]]].
  destruct (startsWith e ">>>>>>>");
    [|apply IH; [done|apply (Hweaken acc i); [lia|done]]].
  apply IH.
  - unfold inOrder in *.
    apply StronglySorted_app_2; [|exact Hs|by repeat constructor].
    intros a b Ha Hb. apply list_elem_of_singleton in Hb as ->. simpl.
    rewrite Forall_forall in Hacc. specialize (Hacc a Ha). lia.
  - apply Forall_app. split; [apply (Hweaken acc i); [lia|done]|].
    constructor; [simpl; lia|constructor].
Qed.

(** X1.  For every text, each hunk [parseConflictHunks] returns lies
    inside the file and spans at least three lines, its start, separator
    and end markers begin with [<<<<<<<], [=======] and [>>>>>>>], and
    they are the lines of the file at [startLine], at a line strictly in
    between, and at [endLine]. *)
Theorem parsed_hunks_are_marker_lines content :
  Forall (λ h, within (length (splitLines content)) h
               ∧ markersPrefixed h
               ∧ hunkFaithful (splitLines content) h)
    (parseConflictHunks content).
Proof.
  unfold parseConflictHunks.
  set (lines := splitLines content).
  eapply Forall_impl.
  - apply (scan_emits
      (λ _ h, within (length lines) h ∧ markersPrefixed h
              ∧ hunkFaithful lines h) lines); [|constructor].
    intros i i1 i2 l sep e cur base inc El Hl Esep Hsep Ee He Hi1 Hi2.
    apply lookup_lt_Some in Ee as Hlt.
    unfold within, markersPrefixed, hunkFaithful. simpl.
    split; [lia|]. split; [done|].
    split; [lia|]. split; [by replace (i + 1 - 1) with i by lia|].
    split; [by replace (i2 + 1 - 1) with i2 by lia|].
    exists (i1 + 1). split; [lia|]. by replace (i1 + 1 - 1) with i1 by lia.
  - simpl. by intros h [_ Hh].
Qed.

(** X2.  For every text, the hunks come in the order of the file and do
    not overlap: each hunk starts after the line on which the one before
    it ends. *)
Theorem parsed_hunks_in_order content :
  inOrder (parseConflictHunks content).
Proof.
  apply scan_inOrder; [constructor|constructor].
Qed.

Lemma scan_needs_markers lines fuel i :
  ∀ h, h ∈ scan fuel lines i [] →
    (∃ l, l ∈ lines ∧ startsWith l "<<<<<<<" = true)
    ∧ (∃ l, l ∈ lines ∧ startsWith l "=======" = true)
    ∧ (∃ l, l ∈ lines ∧ startsWith l ">>>>>>>" = true).
Proof.
  pose proof (scan_emits
    (λ _ _, (∃ l, l ∈ lines ∧ startsWith l "<<<<<<<" = true)
            ∧ (∃ l, l ∈ lines ∧ startsWith l "=======" = true)
            ∧ (∃ l, l ∈ lines ∧ startsWith l ">>>>>>>" = true)) lines) as H.
  intros h Hh.
  assert (HF := H (λ i i1 i2 l sep e cur base inc El Hl Esep Hsep Ee He _ _,
    conj (ex_intro _ l (conj (list_elem_of_lookup_2 _ _ _ El) Hl))
      (conj (ex_intro _ sep (conj (list_elem_of_lookup_2 _ _ _ Esep) Hsep))
         (ex_intro _ e (conj (list_elem_of_lookup_2 _ _ _ Ee) He))))
    fuel i [] (Forall_nil_2 _)).
  rewrite Forall_forall in HF. by destruct (HF h Hh) as [_ ?].
Qed.

(** Without a line for each of the three markers there is no hunk. *)
Lemma markers_needed content :
  Forall (λ l, startsWith l "<<<<<<<" = false) (splitLines content)
  ∨ Forall (λ l, startsWith l "=======" = false) (splitLines content)
  ∨ Forall (λ l, startsWith l ">>>>>>>" = false) (splitLines content) →
  parseConflictHunks content = [].
Proof.
  intros Hno. unfold parseConflictHunks.
  destruct (scan _ _ 0 []) as [|h hs] eqn:E; [done|].
  destruct (scan_needs_markers (splitLines content)
              (length (splitLines content)) 0 h)
    as ((l1 & Hl1 & P1) & (l2 & Hl2 & P2) & (l3 & Hl3 & P3)).
  { rewrite E. by left. }
  rewrite !Forall_forall in Hno.
  destruct Hno as [Hno|[Hno|Hno]];
    [specialize (Hno l1 Hl1)|specialize (Hno l2 Hl2)|specialize (Hno l3 Hl3)];
    congruence.
Qed.

(** X4.  A region that is not closed gives no hunk: when no line of the
    text begins with [>>>>>>>], or none with [=======], or none with
    [<<<<<<<], [parseConflictHunks] returns the empty list. *)
Theorem unterminated_regions_dropped content :
  Forall (λ l, startsWith l "<<<<<<<" = false) (splitLines content)
  ∨ Forall (λ l, startsWith l "=======" = false) (splitLines content)
  ∨ Forall (λ l, startsWith l ">>>>>>>" = false) (splitLines content) →
  parseConflictHunks content = [].
Proof. apply markers_needed. Qed.

End ParserShape.

Lemma unterminated_regions_dropped_witness :
  (Forall (λ l, Js.startsWith l "<<<<<<<" = false)
     (Js.splitLines Samples.unterminated)
   ∨ Forall (λ l, Js.startsWith l "=======" = false)
       (Js.splitLines Samples.unterminated)
   ∨ Forall (λ l, Js.startsWith l ">>>>>>>" = false)
       (Js.splitLines Samples.unterminated))
  ∧ Parser.parseConflictHunks Samples.unterminated = [].
Proof.
  assert (H : Forall (λ l, Js.startsWith l "<<<<<<<" = false)
                (Js.splitLines Samples.unterminated)
              ∨ Forall (λ l, Js.startsWith l "=======" = false)
                  (Js.splitLines Samples.unterminated)
              ∨ Forall (λ l, Js.startsWith l ">>>>>>>" = false)
                  (Js.splitLines Samples.unterminated)).
  { right; right. repeat constructor. }
  split; [exact H|].
  exact (unterminated_regions_dropped Samples.unterminated H).
Defined.

(** ** Strings: reversal and the ends of a text *)

Section StringFacts.
Import Js.

Lemma append_String x (a b : string) : String x a +:+ b = String x (a +:+ b).
Proof. reflexivity. Qed.

Lemma append_assoc (a b c : string) : (a +:+ b) +:+ c = a +:+ b +:+ c.
Proof.
  induction a as [|x a IH]; [done|]. by rewrite !append_String, IH.
Qed.

Lemma append_nil_r (a : string) : a +:+ "" = a.
Proof. induction a as [|x a IH]; [done|]. by rewrite append_String, IH. Qed.

Lemma rev_app_spec s t : String.rev_app s t = String.rev s +:+ t.
Proof.
  unfold String.rev. revert t.
  induction s as [|c s IH]; intros t; simpl; [done|].
  rewrite (IH (String c t)), (IH (String c "")). by rewrite append_assoc.
Qed.

Lemma rev_String c s : String.rev (String c s) = String.rev s +:+ String c "".
Proof. unfold String.rev at 1. simpl. apply rev_app_spec. Qed.

Lemma rev_append a b : String.rev (a +:+ b) = String.rev b +:+ String.rev a.
Proof.
  induction a as [|c a IH].
  - by rewrite append_nil_r.
  - rewrite append_String, !rev_String, IH. by rewrite append_assoc.
Qed.

Lemma rev_involutive s : String.rev (String.rev s) = s.
Proof.
  induction s as [|c s IH]; [done|].
  rewrite rev_String, rev_append, IH. done.
Qed.

Lemma trimStart_clean s :
  match trimStart s with
  | String c _ => isWhiteSpace c = false
  | "" => True
  end.
Proof.
  induction s as [|c s IH]; simpl; [done|].
  destruct (isWhiteSpace c) eqn:E; [done|]. done.
Qed.

Lemma trimEnd_endsClean s : endsClean (trimEnd s).
Proof.
  unfold endsClean, trimEnd. rewrite rev_involutive. apply trimStart_clean.
Qed.

Lemma trim_endsClean s : endsClean (trim s).
Proof. apply trimEnd_endsClean. Qed.

Lemma rev_nonempty c s : ∃ d t, String.rev (String c s) = String d t.
Proof.
  rewrite rev_String. destruct (String.rev s); simpl; eauto.
Qed.

Lemma endsClean_tail c d s : endsClean (String c (String d s)) → endsClean (String d s).
Proof.
  unfold endsClean. rewrite (rev_String c).
  destruct (rev_nonempty d s) as (x & t & ->). done.
Qed.

Lemma endsClean_single c : endsClean (String c "") → isWhiteSpace c = false.
Proof. done. Qed.

End StringFacts.
(** ** White space: what normalizing keeps *)

Section WhitespaceFacts.
Import Js Builtin.

Lemma copies_shift c n s : copies c n (String c s) = copies c (S n) s.
Proof. induction n as [|n IH]; simpl; [done|by rewrite IH]. Qed.

Lemma collapseFrom_ws r c s :
  isWhiteSpace c = true →
  collapseFrom r (String c s)
  = (if r then "" else String SPACE "") +:+ collapseFrom true s.
Proof. intros H. simpl. rewrite H. by destruct r. Qed.

(** A run of white space counts as one space, however long. *)
Lemma collapseFrom_copies r c d n s :
  isWhiteSpace c = true → isWhiteSpace d = true →
  collapseFrom r (copies c n (String d s)) = collapseFrom r (String d s).
Proof.
  intros Hc Hd. revert r. induction n as [|n IH]; intros r; [done|].
  cbn [copies]. rewrite collapseFrom_ws by done. rewrite IH.
  rewrite !collapseFrom_ws by done. by destruct r.
Qed.

Lemma collapseFrom_copies_cong r c n x s t :
  collapseFrom false s = collapseFrom false t →
  isWhiteSpace x = false →
  collapseFrom r (copies c n (String x s))
  = collapseFrom r (copies c n (String x t)).
Proof.
  intros Hst Hx. revert r. induction n as [|n IH]; intros r.
  - simpl. rewrite Hx. by rewrite Hst.
  - cbn [copies]. cbn [collapseFrom].
    destruct (isWhiteSpace c); [destruct r|]; by rewrite ?IH.
Qed.

Lemma collapseFrom_expandTabs r s :
  collapseFrom r (expandTabs s) = collapseFrom r s.
Proof.
  revert r. induction s as [|c s IH]; intros r; [done|].
  cbn [expandTabs].
  destruct (Ascii.eqb_spec c TAB) as [->|Hc].
  - change (String SPACE (String SPACE (expandTabs s)))
      with (copies SPACE 1 (String SPACE (expandTabs s))).
    rewrite collapseFrom_copies by done.
    rewrite !collapseFrom_ws by done. by rewrite IH.
  - cbn [collapseFrom]. by rewrite !IH.
Qed.

Lemma collapseFrom_stripTrailingSpaces s : ∀ r pending,
  endsClean (copies SPACE pending s) →
  collapseFrom r (stripTrailingSpaces pending s)
  = collapseFrom r (copies SPACE pending s).
Proof.
  induction s as [|c s IH]; intros r pending Hclean.
  - destruct pending as [|p]; [done|].
    exfalso. clear -Hclean. revert Hclean.
    induction p as [|p IH]; [done|].
    intros H. apply IH. cbn [copies] in H. by apply endsClean_tail in H.
  - cbn [stripTrailingSpaces].
    destruct (Ascii.eqb_spec c SPACE) as [->|Hc].
    { rewrite copies_shift. apply IH. by rewrite <- copies_shift. }
    assert (Hs : endsClean (copies SPACE 0 s)).
    { clear -Hclean Hc. induction pending as [|p IHp].
      - simpl in *. destruct s; [done|]. by apply endsClean_tail in Hclean.
      - apply IHp. cbn [copies] in Hclean.
        destruct p; by apply endsClean_tail in Hclean. }
    destruct (isLineTerminator c) eqn:Hlt.
    + assert (Hws : isWhiteSpace c = true).
      { clear -Hlt. unfold isLineTerminator, isWhiteSpace in *.
        destruct (code c) as [|p]; [done|].
        repeat (destruct p as [p|p|]; try done). }
      rewrite collapseFrom_copies by done.
      rewrite !collapseFrom_ws by done. by rewrite (IH _ 0 Hs).
    + destruct (isWhiteSpace c) eqn:Hws.
      * rewrite collapseFrom_copies by done.
        rewrite <- (collapseFrom_copies r SPACE c pending) by done.
        clear Hclean. revert r. induction pending as [|p IHp]; intros r.
        -- simpl. rewrite Hws. by rewrite !(IH _ 0 Hs).
        -- cbn [copies]. rewrite !(collapseFrom_ws _ SPACE) by done.
           by rewrite IHp.
      * apply collapseFrom_copies_cong; [|done]. by rewrite (IH _ 0 Hs).
Qed.

Lemma collapseFrom_squeezeBlankLines s : ∀ r run,
  collapseFrom r (squeezeBlankLines run s) = collapseFrom r (copies LF run s).
Proof.
  assert (Hmin : ∀ r run t,
    collapseFrom r (copies LF (run `min` 2) t) = collapseFrom r (copies LF run t)).
  { intros r run t. destruct run as [|[|[|n]]]; try done.
    change (S (S (S n)) `min` 2) with 2.
    revert r. induction n as [|n IHn]; intros r.
    - cbn [copies]. rewrite !(collapseFrom_ws _ LF) by done. by destruct r.
    - rewrite IHn. cbn [copies]. rewrite !(collapseFrom_ws _ LF) by done.
      by destruct r. }
  induction s as [|c s IH]; intros r run.
  - cbn [squeezeBlankLines]. apply Hmin.
  - cbn [squeezeBlankLines].
    destruct (Ascii.eqb_spec c LF) as [->|Hc].
    + rewrite IH. by rewrite copies_shift.
    + rewrite Hmin. clear Hmin. revert r.
      induction run as [|n IHn]; intros r.
      * cbn [copies collapseFrom]. by rewrite !IH.
      * cbn [copies]. rewrite !(collapseFrom_ws _ LF) by done. by rewrite IHn.
Qed.

(** Collapsing the runs of white space gives the same text before and
    after [normalizeWhitespace], provided the text does not end in white
    space. *)
Lemma collapseSpaces_normalizeWhitespace s :
  endsClean s →
  collapseSpaces (normalizeWhitespace s) = collapseSpaces s.
Proof.
  intros Hs. unfold collapseSpaces, normalizeWhitespace.
  rewrite collapseFrom_squeezeBlankLines. cbn [copies].
  rewrite collapseFrom_stripTrailingSpaces;
    [cbn [copies]; apply collapseFrom_expandTabs|].
  cbn [copies]. unfold endsClean in *.
  revert Hs. generalize s. clear s.
  assert (Happ : ∀ a b, expandTabs (a +:+ b) = expandTabs a +:+ expandTabs b).
  { induction a as [|c a IH]; intros b; [done|].
    rewrite append_String. cbn [expandTabs].
    destruct (Ascii.eqb c TAB); by rewrite ?append_String, IH. }
  intros s. destruct s as [|c s]; [done|].
  destruct (String.rev (String c s)) as [|d t] eqn:E.
  { destruct (rev_nonempty c s) as (? & ? & ?). congruence. }
  intros Hd.
  assert (E' : String c s = String.rev t +:+ String d "").
  { rewrite <- (rev_involutive (String c s)), E. by rewrite rev_String. }
  rewrite E', Happ, rev_append. cbn [expandTabs].
  destruct (Ascii.eqb_spec d TAB) as [->|_]; [done|]. by simpl.
Qed.

End WhitespaceFacts.
(** ** The classifier *)

Section Classifier.
Import Js Lines Shared Analyzer Builtin.

Lemma analyzeConflictComplexity_sym a b :
  analyzeConflictComplexity a b = analyzeConflictComplexity b a.
Proof.
  unfold analyzeConflictComplexity, isWhitespaceOnly. cbn zeta.
  rewrite (Nat.max_comm (length (splitLines b))).
  rewrite (bool_decide_ext (trim (collapseSpaces b) = trim (collapseSpaces a))
             (trim (collapseSpaces a) = trim (collapseSpaces b)))
    by (split; congruence).
  destruct (_ || _); [done|].
  destruct (hasComplexLogic a), (hasComplexLogic b);
    by rewrite ?andb_false_r, ?andb_true_r.
Qed.

Lemma isSimpleContentPattern_swap h :
  isSimpleContentPattern (swapSides h) = isSimpleContentPattern h.
Proof.
  unfold isSimpleContentPattern, swapSides. cbn [currentContent incomingContent].
  cbn zeta.
  rewrite (orb_comm (isEmpty (trim (incomingContent h)))).
  destruct (_ || _); [done|].
  rewrite (bool_decide_ext (trim (incomingContent h) = trim (currentContent h))
             (trim (currentContent h) = trim (incomingContent h)))
    by (split; congruence).
  destruct (bool_decide (trim (currentContent h) = _)); [done|].
  rewrite (bool_decide_ext
             (collapseSpaces (trim (incomingContent h))
              = collapseSpaces (trim (currentContent h)))
             (collapseSpaces (trim (currentContent h))
              = collapseSpaces (trim (incomingContent h))))
    by (split; congruence).
  destruct (bool_decide (collapseSpaces _ = _)); [done|].
  rewrite (orb_comm (isSubsetLines (splitLines (incomingContent h)) _)).
  destruct (_ || _); [done|].
  rewrite (andb_comm (isLikelyList (splitLines (incomingContent h)))).
  destruct (_ && _); [done|].
  by rewrite (andb_comm (isKeyValueBlock (splitLines (incomingContent h)))).
Qed.

(** X6.  The classification does not depend on which side is called
    current: exchanging the two sides of every hunk leaves the overall
    complexity and the answer of [canAutoResolveContent] unchanged. *)
Theorem classification_ignores_sides hunks :
  determineOverallComplexity (swapSides <$> hunks)
  = determineOverallComplexity hunks
  ∧ canAutoResolveContent (swapSides <$> hunks) = canAutoResolveContent hunks.
Proof.
  split.
  - unfold determineOverallComplexity. rewrite length_fmap.
    rewrite <- list_fmap_compose.
    replace ((λ hunk, analyzeConflictComplexity (currentContent hunk)
                (incomingContent hunk)) ∘ swapSides <$> hunks)
      with ((λ hunk, analyzeConflictComplexity (currentContent hunk)
               (incomingContent hunk)) <$> hunks); [done|].
    apply list_fmap_ext. intros i h _. simpl.
    apply analyzeConflictComplexity_sym.
  - unfold canAutoResolveContent.
    induction hunks as [|h hs IH]; [done|].
    cbn [fmap list_fmap forallb]. fold (fmap swapSides hs).
    by rewrite isSimpleContentPattern_swap, IH.
Qed.

(** X7.  The overall complexity is the greatest complexity of a hunk, in
    the order TRIVIAL, SIMPLE, MODERATE, COMPLEX: no hunk exceeds it, some
    hunk attains it unless there is no hunk, and without hunks it is
    TRIVIAL. *)
Theorem overall_complexity_is_maximum hunks :
  (∀ h, h ∈ hunks →
        rank (hunkComplexity h) ≤ rank (determineOverallComplexity hunks))
  ∧ (hunks ≠ [] →
     ∃ h, h ∈ hunks ∧ hunkComplexity h = determineOverallComplexity hunks)
  ∧ (hunks = [] → determineOverallComplexity hunks = TRIVIAL).
Proof.
  unfold determineOverallComplexity. fold hunkComplexity.
  assert (Hin : ∀ c, c ∈ hunkComplexity <$> hunks →
                     ∃ h, h ∈ hunks ∧ hunkComplexity h = c).
  { intros c (h & -> & Hh)%list_elem_of_fmap. eauto. }
  assert (Hout : ∀ h, h ∈ hunks → hunkComplexity h ∈ hunkComplexity <$> hunks).
  { intros h Hh. by apply list_elem_of_fmap_2. }
  split; [|split].
  - intros h Hh. specialize (Hout h Hh).
    destruct hunks as [|h0 hs]; [by apply elem_of_nil in Hh|]. cbn [length Nat.eqb].
    repeat case_bool_decide; simpl; destruct (hunkComplexity h); simpl; try lia;
      done.
  - intros Hne. destruct hunks as [|h0 hs]; [done|]. cbn [length Nat.eqb].
    repeat case_bool_decide; auto.
    exists h0. split; [by left|].
    assert (H3 := Hout h0 (list_elem_of_here _ _)).
    destruct (hunkComplexity h0); done.
  - by intros ->.
Qed.

Lemma detectConflictType_not_semantic f content :
  detectConflictType f content ≠ SEMANTIC.
Proof.
  unfold detectConflictType.
  repeat match goal with |- context [if ?b then _ else _] => destruct b end;
    done.
Qed.

(** X8.  A file in which the parser finds no hunk is reported with
    complexity TRIVIAL and flagged auto-resolvable, whatever its text; and
    the type of an analysed conflict is never SEMANTIC. *)
Theorem no_hunks_auto_resolvable f content :
  Parser.parseConflictHunks content = [] →
  type (analyzeFileConflict f content) ≠ SEMANTIC
  ∧ complexity (analyzeFileConflict f content) = TRIVIAL
  ∧ autoResolvable (analyzeFileConflict f content) = true.
Proof.
  intros Hno. unfold analyzeFileConflict. cbn [type complexity autoResolvable].
  rewrite Hno. cbn zeta.
  split; [apply detectConflictType_not_semantic|]. split; [done|].
  pose proof (detectConflictType_not_semantic f content) as Hs.
  change (determineOverallComplexity []) with TRIVIAL.
  destruct (detectConflictType f content); done.
Qed.

(** A replacement is computed only for hunks that pass the analyser's
    simple-content test. *)
Lemma replacement_is_simple hunk :
  computeContentReplacement hunk ≠ None →
  isSimpleContentPattern hunk = true.
Proof.
  unfold computeContentReplacement, isSimpleContentPattern. cbn zeta.
  destruct (isEmpty (trim (currentContent hunk))) eqn:E1.
  { done. }
  destruct (isEmpty (trim (incomingContent hunk))) eqn:E2.
  { done. }
  cbn [andb orb].
  case_bool_decide as Heq; [done|].
  case_bool_decide as Hn.
  { intros _. rewrite bool_decide_eq_true_2; [done|].
    rewrite <- (collapseSpaces_normalizeWhitespace (trim (currentContent hunk)))
      by apply trim_endsClean.
    rewrite <- (collapseSpaces_normalizeWhitespace (trim (incomingContent hunk)))
      by apply trim_endsClean.
    by rewrite Hn. }
  case_bool_decide; [done|].
  destruct (isSubsetLines (splitLines (currentContent hunk)) _); [done|].
  destruct (isSubsetLines (splitLines (incomingContent hunk)) _); [done|].
  cbn [orb].
  destruct (_ && _); [done|].
  destruct (_ && _); done.
Qed.

(** X9.  Whenever the simple-content plugin supports the conflict the
    analyser reports for a file, the analyser has flagged that conflict
    auto-resolvable. *)
Theorem simple_content_supports_flagged f content :
  Plugin.supports simpleContentPlugin (analyzeFileConflict f content) = true →
  autoResolvable (analyzeFileConflict f content) = true.
Proof.
  cbn [Plugin.supports simpleContentPlugin].
  unfold analyzeFileConflict. cbn [type complexity autoResolvable hunks].
  cbn zeta.
  case_bool_decide as Ht; [|done]. cbn [negb].
  case_bool_decide as Hc; [done|]. cbn [negb andb].
  intros Hall. apply orb_true_iff. right.
  unfold canAutoResolveContent.
  apply forallb_forall. intros h Hh.
  rewrite forallb_forall in Hall. specialize (Hall h Hh).
  apply replacement_is_simple. by apply bool_decide_eq_true in Hall.
Qed.

End Classifier.

Lemma no_hunks_auto_resolvable_witness :
  Parser.parseConflictHunks Samples.threeWay = []
  ∧ type (Analyzer.analyzeFileConflict "a.txt" Samples.threeWay) ≠ SEMANTIC
  ∧ complexity (Analyzer.analyzeFileConflict "a.txt" Samples.threeWay) = TRIVIAL
  ∧ autoResolvable (Analyzer.analyzeFileConflict "a.txt" Samples.threeWay)
    = true.
Proof.
  assert (H : Parser.parseConflictHunks Samples.threeWay = [])
    by (by vm_compute).
  split; [exact H|].
  exact (no_hunks_auto_resolvable "a.txt" Samples.threeWay H).
Defined.

Lemma simple_content_supports_flagged_witness :
  Plugin.supports Builtin.simpleContentPlugin
    (Analyzer.analyzeFileConflict "list.md" Samples.notesContent) = true
  ∧ autoResolvable (Analyzer.analyzeFileConflict "list.md" Samples.notesContent)
    = true.
Proof.
  assert (H : Plugin.supports Builtin.simpleContentPlugin
                (Analyzer.analyzeFileConflict "list.md" Samples.notesContent)
              = true) by (by vm_compute).
  split; [exact H|].
  exact (simple_content_supports_flagged "list.md" Samples.notesContent H).
Defined.

(** ** The builtin plugins *)

Section BuiltinContract.
Import Js Lines Builtin.

Lemma replaceEach_ok replacer hs : ∀ text,
  Forall (λ h, ∃ s, replacer h = Ok s) hs →
  ∃ out, replaceEach replacer hs text = Ok out.
Proof.
  induction hs as [|h hs IH]; intros text Hall; [by eexists|].
  apply Forall_cons in Hall as [[s Hs] Hall].
  cbn [replaceEach]. rewrite Hs. by apply IH.
Qed.

Lemma replaceConflictBlocks_ok conflict context replacer :
  Forall (λ h, ∃ s, replacer h = Ok s) (hunks conflict) →
  match Plugin.readFile context (file conflict) with
  | Throw e => replaceConflictBlocks conflict context replacer = Throw e
  | Ok _ => ∃ out, replaceConflictBlocks conflict context replacer = Ok out
  end.
Proof.
  intros Hall. unfold replaceConflictBlocks.
  destruct (Plugin.readFile context (file conflict)) as [text|e]; [|done].
  by apply replaceEach_ok.
Qed.

Lemma omap_all_some {A B} (f : A → option B) l :
  Forall (λ a, f a ≠ None) l → length (omap f l) = length l.
Proof.
  induction 1 as [|a l Ha _ IH]; [done|].
  cbn [omap list_omap]. destruct (f a) eqn:E; [|done].
  cbn [length]. f_equal. exact IH.
Qed.

(** X10.  A builtin plugin that supports a conflict never declines it.
    If the conflicted file can be read, the plugin answers with a
    resolution that carries a note; if reading throws, the plugin throws
    that error and no other.  In particular the simple-content plugin
    never throws its own "could not compute replacement" error for a
    conflict it supports. *)
Theorem builtin_plugins_answer localeCompare p conflict context :
  p ∈ builtinPlugins localeCompare →
  Plugin.supports p conflict = true →
  match Plugin.readFile context (file conflict) with
  | Throw e => Plugin.resolve p conflict context = Throw e
  | Ok _ =>
      ∃ text note,
        Plugin.resolve p conflict context
        = Ok (Some {| Plugin.content := text; Plugin.notes := Some [note] |})
  end.
Proof.
  intros Hp Hsup. unfold builtinPlugins in Hp.
  apply elem_of_cons in Hp as [->|Hp];
    [|apply elem_of_cons in Hp as [->|Hp];
      [|apply list_elem_of_singleton in Hp as ->]].
  - cbn [Plugin.resolve whitespacePlugin].
    pose proof (replaceConflictBlocks_ok conflict context
      (λ hunk, Ok (normalizeWhitespace (incomingContent hunk)))) as H.
    destruct (Plugin.readFile context (file conflict)) as [text|e].
    + destruct H as [out ->]; [|by eexists _, _].
      apply Forall_forall. intros h _. by eexists.
    + rewrite H; [done|]. apply Forall_forall. intros h _. by eexists.
  - cbn [Plugin.resolve importPlugin].
    pose proof (replaceConflictBlocks_ok conflict context
      (λ hunk, Ok (join NL (sortImports localeCompare
         (mergeImports (extractImports (currentContent hunk))
            (extractImports (incomingContent hunk))))))) as H.
    destruct (Plugin.readFile context (file conflict)) as [text|e].
    + destruct H as [out ->]; [|by eexists _, _].
      apply Forall_forall. intros h _. by eexists.
    + rewrite H; [done|]. apply Forall_forall. intros h _. by eexists.
  - cbn [Plugin.supports simpleContentPlugin] in Hsup.
    destruct (negb (bool_decide (type conflict = CONTENT))); [done|].
    destruct (bool_decide (complexity conflict = COMPLEX)); [done|].
    assert (Hall : Forall (λ h, computeContentReplacement h ≠ None)
                     (hunks conflict)).
    { apply Forall_forall. intros h Hh.
      rewrite forallb_forall in Hsup. specialize (Hsup h).
      apply list_elem_of_In in Hh. apply Hsup in Hh.
      by apply bool_decide_eq_true in Hh. }
    cbn [Plugin.resolve simpleContentPlugin].
    pose proof (replaceConflictBlocks_ok conflict context
      (λ hunk, match computeContentReplacement hunk with
               | None =>
                   Throw "Error: Simple content plugin could not compute replacement"
               | Some replacement => Ok replacement
               end)) as H.
    rewrite (omap_all_some _ _ Hall), Nat.eqb_refl.
    destruct (Plugin.readFile context (file conflict)) as [text|e].
    + destruct H as [out ->]; [|by eexists _, _].
      eapply Forall_impl; [exact Hall|]. simpl. intros h Hh.
      destruct (computeContentReplacement h); [by eexists|done].
    + rewrite H; [done|].
      eapply Forall_impl; [exact Hall|]. simpl. intros h Hh.
      destruct (computeContentReplacement h); [by eexists|done].
Qed.

End BuiltinContract.

Lemma builtin_plugins_answer_witness :
  (Builtin.simpleContentPlugin ∈ Builtin.builtinPlugins Samples.codeOrder
   ∧ Plugin.supports Builtin.simpleContentPlugin Samples.notesConflict = true)
  ∧ match Plugin.readFile Samples.notesContext (file Samples.notesConflict) with
    | Throw e =>
        Plugin.resolve Builtin.simpleContentPlugin Samples.notesConflict
          Samples.notesContext = Throw e
    | Ok _ =>
        ∃ text note,
          Plugin.resolve Builtin.simpleContentPlugin Samples.notesConflict
            Samples.notesContext
          = Ok (Some {| Plugin.content := text;
                        Plugin.notes := Some [note] |})
    end.
Proof.
  assert (Hp : Builtin.simpleContentPlugin
               ∈ Builtin.builtinPlugins Samples.codeOrder).
  { unfold Builtin.builtinPlugins. do 2 right. left. }
  assert (Hs : Plugin.supports Builtin.simpleContentPlugin
                 Samples.notesConflict = true) by (by vm_compute).
  split; [done|].
  exact (builtin_plugins_answer Samples.codeOrder Builtin.simpleContentPlugin
           Samples.notesConflict Samples.notesContext Hp Hs).
Defined.

(** ** Imports: merging and sorting *)

Section Imports.
Import Js Builtin.

Lemma mergeSeen_spec imports : ∀ seen merged,
  ∃ added,
    mergeSeen imports seen merged = merged ++ added
    ∧ sublist added imports
    ∧ NoDup (importKey <$> added)
    ∧ (∀ imp, imp ∈ added → importKey imp ∉ seen)
    ∧ (∀ imp, imp ∈ imports →
         importKey imp ∈ seen ∨ importKey imp ∈ importKey <$> added).
Proof.
  induction imports as [|imp imports IH]; intros seen merged.
  { exists []. rewrite app_nil_r. repeat split; try done.
    - constructor.
    - by intros ? ?%elem_of_nil.
    - by intros ? ?%elem_of_nil. }
  cbn [mergeSeen]. fold (importKey imp). case_bool_decide as Hin.
  - destruct (IH seen merged) as (added & E & Hsub & Hnd & Hfresh & Hcov).
    exists added. repeat split; try done.
    + by apply sublist_cons.
    + intros x [->|Hx]%elem_of_cons; [by left|by apply Hcov].
  - destruct (IH ({[importKey imp]} ∪ seen) (merged ++ [imp]))
      as (added & E & Hsub & Hnd & Hfresh & Hcov).
    exists (imp :: added). repeat split.
    + by rewrite E, <- app_assoc.
    + by apply sublist_skip.
    + cbn [fmap list_fmap]. constructor; [|done].
      intros (x & Hk & Hx)%list_elem_of_fmap.
      apply (Hfresh x Hx). rewrite <- Hk. set_solver.
    + intros x [->|Hx]%elem_of_cons; [done|].
      specialize (Hfresh x Hx). set_solver.
    + intros x [->|Hx]%elem_of_cons.
      * right. cbn [fmap list_fmap]. by left.
      * destruct (Hcov x Hx) as [Hs|Ha].
        -- apply elem_of_union in Hs as [Hs|Hs]; [|by left].
           apply elem_of_singleton in Hs. right. cbn [fmap list_fmap].
           rewrite Hs. by left.
        -- right. cbn [fmap list_fmap]. by right.
Qed.

End Imports.

Section SortAny.
Context {A : Type} (compare : A → A → Z).
Hypothesis compare_ok : consistent compare.

Abbreviation notAfter := (λ a b, (compare a b ≤ 0)%Z).

Lemma insertSorted_perm_any x l : JsArray.insertSorted compare x l ≡ₚ x :: l.
Proof.
  induction l as [|y l IH]; [done|]. simpl.
  destruct (compare x y <=? 0)%Z; [done|].
  rewrite IH. apply Permutation_swap.
Qed.

Lemma sort_perm_any l : JsArray.sort compare l ≡ₚ l.
Proof.
  induction l as [|x l IH]; [done|]. simpl.
  by rewrite insertSorted_perm_any, IH.
Qed.

Lemma insertSorted_sorted x l :
  StronglySorted notAfter l →
  StronglySorted notAfter (JsArray.insertSorted compare x l).
Proof.
  destruct compare_ok as (_ & Hgt & _ & Htrans).
  induction l as [|y l IH]; intros Hl; simpl.
  - by repeat constructor.
  - apply StronglySorted_inv in Hl as [Hl Hy].
    destruct (compare x y <=? 0)%Z eqn:E.
    + apply Z.leb_le in E.
      constructor; [by constructor|].
      constructor; [done|].
      eapply Forall_impl; [exact Hy|]. simpl. intros z Hz. by eapply Htrans.
    + apply Z.leb_gt in E. apply Hgt in E.
      constructor; [by apply IH|].
      rewrite insertSorted_perm_any. constructor; [lia|done].
Qed.

Lemma sort_sorted l : StronglySorted notAfter (JsArray.sort compare l).
Proof.
  induction l as [|x l IH]; simpl; [constructor|].
  by apply insertSorted_sorted.
Qed.

End SortAny.

Lemma StronglySorted_weaken {A} (R S : A → A → Prop) l :
  (∀ a b, R a b → S a b) → StronglySorted R l → StronglySorted S l.
Proof.
  intros HRS. induction 1 as [|a l _ IH Ha]; constructor; [done|].
  eapply Forall_impl; [exact Ha|]. intros b. apply HRS.
Qed.

Section ImportOrder.
Import Js Builtin.
Variable localeCompare : string → string → Z.
Hypothesis localeCompare_ok : consistent localeCompare.

Lemma importOrder_external a b :
  importOrder localeCompare a b
  = if isExternal a && negb (isExternal b) then (-1)%Z
    else if negb (isExternal a) && isExternal b then 1%Z
    else localeCompare a b.
Proof. reflexivity. Qed.

Lemma importOrder_consistent : consistent (importOrder localeCompare).
Proof.
  destruct localeCompare_ok as (Hrefl & Hgt & Hlt & Htrans).
  repeat split.
  - intros a. rewrite importOrder_external.
    destruct (isExternal a); simpl; apply Hrefl.
  - intros a b. rewrite !importOrder_external.
    destruct (isExternal a), (isExternal b); simpl; try lia; apply Hgt.
  - intros a b. rewrite !importOrder_external.
    destruct (isExternal a), (isExternal b); simpl; try lia; apply Hlt.
  - intros a b c. rewrite !importOrder_external.
    destruct (isExternal a), (isExternal b), (isExternal c); simpl;
      try lia; apply Htrans.
Qed.

(** X12.  With a consistent [localeCompare], [sortImports] returns the
    imports it was given, each as often as it was given, in an order
    that its comparison agrees with; no import that contains [./] or
    [../] comes before one that contains neither. *)
Theorem sortImports_spec imports :
  sortImports localeCompare imports ≡ₚ imports
  ∧ StronglySorted (λ a b, (importOrder localeCompare a b ≤ 0)%Z)
      (sortImports localeCompare imports)
  ∧ StronglySorted (λ a b, isExternal b = true → isExternal a = true)
      (sortImports localeCompare imports).
Proof.
  pose proof (sort_sorted (importOrder localeCompare) importOrder_consistent
                imports) as Hs.
  split; [apply sort_perm_any|]. split; [exact Hs|].
  unfold sortImports.
  eapply StronglySorted_weaken; [|exact Hs].
  intros a b. simpl. rewrite importOrder_external.
  destruct (isExternal a), (isExternal b); simpl; try done; lia.
Qed.

End ImportOrder.

Lemma codeOrder_consistent : consistent Samples.codeOrder.
Proof.
  unfold consistent, Samples.codeOrder. repeat split.
  - intros a. pose proof (@reflexivity _ String.le _ a) as H.
    unfold String.le, String.leb in H.
    pose proof (String.compare_antisym a a) as Ha.
    destruct (String.compare a a); simpl in *; done.
  - intros a b. rewrite (String.compare_antisym b a).
    destruct (String.compare a b); simpl; lia.
  - intros a b. rewrite (String.compare_antisym b a).
    destruct (String.compare a b); simpl; lia.
  - intros a b c Hab Hbc.
    assert (H1 : String.le a b).
    { unfold String.le, String.leb. destruct (String.compare a b); simpl; try done; lia. }
    assert (H2 : String.le b c).
    { unfold String.le, String.leb. destruct (String.compare b c); simpl; try done; lia. }
    pose proof (@transitivity _ String.le _ a b c H1 H2) as H.
    unfold String.le, String.leb in H.
    destruct (String.compare a c); simpl in *; done || lia.
Qed.

Lemma sortImports_spec_witness :
  consistent Samples.codeOrder
  ∧ Builtin.sortImports Samples.codeOrder Samples.someImports
    ≡ₚ Samples.someImports
  ∧ StronglySorted
      (λ a b, (Builtin.importOrder Samples.codeOrder a b ≤ 0)%Z)
      (Builtin.sortImports Samples.codeOrder Samples.someImports)
  ∧ StronglySorted (λ a b, isExternal b = true → isExternal a = true)
      (Builtin.sortImports Samples.codeOrder Samples.someImports).
Proof.
  split; [exact codeOrder_consistent|].
  exact (sortImports_spec Samples.codeOrder codeOrder_consistent
           Samples.someImports).
Defined.

(** ** [normalizeWhitespace] applied twice *)

Section NormalizeTwice.
Import Js Builtin.

Lemma lineTerminator_cases c :
  isLineTerminator c = true → c = LF ∨ c = "013"%char.
Proof.
  destruct c as [[] [] [] [] [] [] [] []]; vm_compute; auto; discriminate.
Qed.

Lemma expandTabs_copies c n s :
  c ≠ TAB → expandTabs (copies c n s) = copies c n (expandTabs s).
Proof.
  intros Hc. induction n as [|n IH]; [done|]. cbn [copies expandTabs].
  destruct (Ascii.eqb_spec c TAB); [done|]. by rewrite IH.
Qed.

Lemma strip_copies_space p q s :
  stripTrailingSpaces p (copies SPACE q s) = stripTrailingSpaces (q + p) s.
Proof.
  revert p. induction q as [|q IH]; intros p; [done|].
  cbn [copies stripTrailingSpaces]. rewrite Ascii.eqb_refl, IH.
  f_equal. lia.
Qed.

Lemma strip_copies_LF n s :
  stripTrailingSpaces 0 (copies LF n s) = copies LF n (stripTrailingSpaces 0 s).
Proof.
  induction n as [|n IH]; [done|]. cbn [copies stripTrailingSpaces].
  change (Ascii.eqb LF SPACE) with false. change (isLineTerminator LF) with true.
  cbv iota. by rewrite IH.
Qed.

Lemma squeeze_copies_LF k n s :
  squeezeBlankLines k (copies LF n s) = squeezeBlankLines (n + k) s.
Proof.
  revert k. induction n as [|n IH]; intros k; [done|].
  cbn [copies squeezeBlankLines]. rewrite Ascii.eqb_refl, IH. f_equal. lia.
Qed.

Lemma squeeze_copies_space q c s :
  c ≠ LF →
  squeezeBlankLines 0 (copies SPACE q (String c s))
  = copies SPACE q (String c (squeezeBlankLines 0 s)).
Proof.
  intros Hc. induction q as [|q IH]; cbn [copies squeezeBlankLines].
  - by destruct (Ascii.eqb_spec c LF).
  - change (Ascii.eqb SPACE LF) with false. cbv iota. cbn [Nat.min copies].
    by rewrite IH.
Qed.

Lemma passes_cons run pending c s :
  passes run pending (String c s)
  = if Ascii.eqb c TAB then passes run (S (S pending)) s
    else if Ascii.eqb c SPACE then passes run (S pending) s
    else if Ascii.eqb c LF then passes (S run) 0 s
    else if isLineTerminator c
    then copies LF (run `min` 2) (String c (passes 0 0 s))
    else copies LF (run `min` 2)
           (copies SPACE pending (String c (passes 0 0 s))).
Proof.
  unfold passes. cbn [expandTabs].
  destruct (Ascii.eqb_spec c TAB) as [->|Htab].
  { cbn [stripTrailingSpaces]. by rewrite !Ascii.eqb_refl. }
  cbn [stripTrailingSpaces].
  destruct (Ascii.eqb_spec c SPACE) as [->|Hsp]; [done|].
  destruct (Ascii.eqb_spec c LF) as [->|Hlf].
  { change (isLineTerminator LF) with true. cbv iota.
    cbn [squeezeBlankLines]. by rewrite Ascii.eqb_refl. }
  destruct (isLineTerminator c) eqn:Hlt.
  - cbn [squeezeBlankLines]. by destruct (Ascii.eqb_spec c LF).
  - destruct pending as [|q].
    + cbn [copies squeezeBlankLines]. by destruct (Ascii.eqb_spec c LF).
    + cbn [copies squeezeBlankLines]. change (Ascii.eqb SPACE LF) with false.
      cbv iota. by rewrite squeeze_copies_space.
Qed.

Lemma passes_fixed s : ∀ run pending,
  expandTabs (passes run pending s) = passes run pending s
  ∧ stripTrailingSpaces 0 (passes run pending s) = passes run pending s.
Proof.
  assert (HLF : LF ≠ TAB) by done.
  assert (HSP : SPACE ≠ TAB) by done.
  induction s as [|c s IH]; intros run pending.
  { unfold passes. cbn [expandTabs stripTrailingSpaces squeezeBlankLines].
    split; [by rewrite expandTabs_copies|by rewrite strip_copies_LF]. }
  rewrite passes_cons.
  destruct (Ascii.eqb_spec c TAB) as [->|Htab]; [apply IH|].
  destruct (Ascii.eqb_spec c SPACE) as [->|Hsp]; [apply IH|].
  destruct (Ascii.eqb_spec c LF) as [->|Hlf]; [apply IH|].
  destruct (IH 0 0) as [IH1 IH2].
  destruct (isLineTerminator c) eqn:Hlt.
  - split.
    + rewrite expandTabs_copies by done. cbn [expandTabs].
      destruct (Ascii.eqb_spec c TAB); [done|]. by rewrite IH1.
    + rewrite strip_copies_LF. cbn [stripTrailingSpaces].
      destruct (Ascii.eqb_spec c SPACE); [done|]. rewrite Hlt.
      by rewrite IH2.
  - split.
    + rewrite !expandTabs_copies by done. cbn [expandTabs].
      destruct (Ascii.eqb_spec c TAB); [done|]. by rewrite IH1.
    + rewrite strip_copies_LF, strip_copies_space. cbn [stripTrailingSpaces].
      destruct (Ascii.eqb_spec c SPACE); [done|]. rewrite Hlt.
      rewrite IH2. by rewrite Nat.add_0_r.
Qed.

Lemma squeeze_squeeze s : ∀ k run,
  squeezeBlankLines k (squeezeBlankLines run s) = squeezeBlankLines (k + run) s.
Proof.
  induction s as [|c s IH]; intros k run.
  - cbn [squeezeBlankLines]. rewrite squeeze_copies_LF.
    cbn [squeezeBlankLines]. f_equal. lia.
  - cbn [squeezeBlankLines]. destruct (Ascii.eqb_spec c LF) as [->|Hc].
    + rewrite IH. f_equal. lia.
    + rewrite squeeze_copies_LF. cbn [squeezeBlankLines].
      destruct (Ascii.eqb_spec c LF); [done|].
      rewrite (IH 0 0). cbn [Nat.add]. f_equal. lia.
Qed.

(** X13.  [normalizeWhitespace] is idempotent: normalizing a text that
    has been normalized changes nothing. *)
Theorem normalizeWhitespace_idempotent content :
  normalizeWhitespace (normalizeWhitespace content)
  = normalizeWhitespace content.
Proof.
  unfold normalizeWhitespace. fold (passes 0 0 content).
  destruct (passes_fixed content 0 0) as [-> ->].
  unfold passes. by rewrite squeeze_squeeze.
Qed.

End NormalizeTwice.

(** ** Lines: splitting, joining, comparing *)

Section LineFacts.
Import Js Lines Builtin.

Lemma splitLines_nonempty s : splitLines s ≠ [].
Proof.
  destruct s as [|c s]; [done|]. cbn [splitLines].
  destruct (Ascii.eqb c LF); [done|]. by destruct (splitLines s).
Qed.

Lemma join_cons sep p q ps :
  join sep (p :: q :: ps) = p +:+ sep +:+ join sep (q :: ps).
Proof. reflexivity. Qed.

Lemma join_splitLines s : join NL (splitLines s) = s.
Proof.
  induction s as [|c s IH]; [done|]. cbn [splitLines].
  destruct (Ascii.eqb_spec c LF) as [->|Hc].
  - pose proof (splitLines_nonempty s) as Hne.
    destruct (splitLines s) as [|l ls]; [done|].
    rewrite join_cons, IH. done.
  - pose proof (splitLines_nonempty s) as Hne.
    destruct (splitLines s) as [|l ls]; [done|].
    destruct ls as [|l' ls].
    + cbn [join] in *. by rewrite IH.
    + rewrite join_cons in *. rewrite append_String. by rewrite IH.
Qed.

Lemma oneLine_String c s :
  oneLine (String c s) ↔ c ≠ LF ∧ oneLine s.
Proof.
  unfold oneLine, NL. cbn [includes startsWith].
  destruct (Ascii.eqb_spec LF c) as [<-|Hc]; cbn [orb].
  - assert (startsWith s "" = true) as -> by (by destruct s).
    split; [done|]. by intros [? _].
  - split; [intros H; split; [congruence|done]|by intros [_ H]].
Qed.

Lemma splitLines_oneLine l : oneLine l → splitLines l = [l].
Proof.
  induction l as [|c l IH]; [done|].
  intros [Hc Hl]%oneLine_String. cbn [splitLines].
  destruct (Ascii.eqb_spec c LF); [done|]. by rewrite IH.
Qed.

Lemma splitLines_line_then l rest :
  oneLine l →
  splitLines (l +:+ NL +:+ rest) = l :: splitLines rest.
Proof.
  induction l as [|c l IH].
  - intros _. change ("" +:+ NL +:+ rest) with (String LF rest).
    cbn [splitLines]. by rewrite Ascii.eqb_refl.
  - intros [Hc Hl]%oneLine_String. rewrite append_String. cbn [splitLines].
    destruct (Ascii.eqb_spec c LF); [done|]. by rewrite IH.
Qed.

Lemma splitLines_join lines :
  lines ≠ [] → Forall oneLine lines → splitLines (join NL lines) = lines.
Proof.
  induction lines as [|l ls IH]; [done|]. intros _ Hall.
  apply Forall_cons in Hall as [Hl Hls].
  destruct ls as [|l' ls]; [by apply splitLines_oneLine|].
  rewrite join_cons, splitLines_line_then by done.
  by rewrite IH.
Qed.

(** X14.  Splitting and joining are inverse to each other: joining the
    lines of a text gives the text back, and splitting the join of a
    non-empty list of lines, none of which contains a line feed, gives
    the list back. *)
Theorem split_join_round_trip :
  (∀ content, join NL (splitLines content) = content)
  ∧ (∀ lines, lines ≠ [] → Forall oneLine lines →
              splitLines (join NL lines) = lines).
Proof. split; [apply join_splitLines|apply splitLines_join]. Qed.

(** [isSubsetLines source target] holds exactly when every line of
    [source] that is not blank occurs, trimmed, among the trimmed lines
    of [target]; blank lines, order and repetitions do not count. *)
Lemma isSubsetLines_inclusion source target :
  isSubsetLines source target = true
  ↔ ∀ l, l ∈ meaningful source → l ∈ meaningful target.
Proof.
  unfold isSubsetLines. cbn zeta.
  destruct (meaningful source) as [|x xs] eqn:E.
  { cbn [length Nat.eqb]. split; [|done]. by intros _ l ?%elem_of_nil. }
  cbn [length Nat.eqb]. rewrite forallb_forall. split.
  - intros H l Hl. apply list_elem_of_In, H in Hl.
    apply bool_decide_eq_true in Hl. by apply elem_of_list_to_set in Hl.
  - intros H l Hl. apply list_elem_of_In, H in Hl.
    apply bool_decide_eq_true. by apply elem_of_list_to_set.
Qed.

(** X15.  The side that contains the other wins, untouched.  For a hunk
    whose two sides are not blank and differ, also after
    [normalizeWhitespace]: if every line of the current side that is not
    blank occurs, trimmed, among the trimmed lines of the incoming side,
    the replacement is the incoming content as it stands; if that fails
    and the incoming side is contained in the current side in the same
    way, the replacement is the current content as it stands. *)
Theorem superset_side_wins hunk :
  isEmpty (trim (currentContent hunk)) = false →
  isEmpty (trim (incomingContent hunk)) = false →
  trim (currentContent hunk) ≠ trim (incomingContent hunk) →
  normalizeWhitespace (trim (currentContent hunk))
  ≠ normalizeWhitespace (trim (incomingContent hunk)) →
  ((∀ l, l ∈ meaningful (splitLines (currentContent hunk)) →
         l ∈ meaningful (splitLines (incomingContent hunk))) →
   computeContentReplacement hunk = Some (incomingContent hunk))
  ∧ (¬ (∀ l, l ∈ meaningful (splitLines (currentContent hunk)) →
             l ∈ meaningful (splitLines (incomingContent hunk))) →
     (∀ l, l ∈ meaningful (splitLines (incomingContent hunk)) →
           l ∈ meaningful (splitLines (currentContent hunk))) →
     computeContentReplacement hunk = Some (currentContent hunk)).
Proof.
  intros Hc Hi Hne Hnorm. unfold computeContentReplacement. cbn zeta.
  rewrite Hc, Hi. cbn [andb].
  rewrite (bool_decide_eq_false_2 _ Hne), (bool_decide_eq_false_2 _ Hnorm).
  split.
  - intros Hsub. apply isSubsetLines_inclusion in Hsub. rewrite Hsub.
    by rewrite join_splitLines.
  - intros Hnot Hsub.
    destruct (isSubsetLines (splitLines (currentContent hunk)) _) eqn:E.
    { exfalso. apply Hnot. by apply isSubsetLines_inclusion. }
    apply isSubsetLines_inclusion in Hsub. rewrite Hsub.
    by rewrite join_splitLines.
Qed.

Lemma pushLines_spec lines : ∀ seen merged,
  ∃ kept,
    pushLines lines seen merged
    = (list_to_set (trim <$> filter (λ l, ¬ blank l) kept) ∪ seen,
       merged ++ (keptLine <$> kept))
    ∧ sublist kept lines
    ∧ filter blank kept = filter blank lines
    ∧ NoDup (trim <$> filter (λ l, ¬ blank l) kept)
    ∧ (∀ l, l ∈ kept → ¬ blank l → trim l ∉ seen)
    ∧ (∀ l, l ∈ lines → ¬ blank l →
         trim l ∈ seen ∨ trim l ∈ trim <$> filter (λ l, ¬ blank l) kept).
Proof.
  induction lines as [|line lines IH]; intros seen merged.
  { exists []. cbn [pushLines fmap list_fmap filter list_filter list_to_set].
    rewrite app_nil_r, (left_id_L ∅ (∪)). repeat split; try done.
    - constructor.
    - by intros ? ?%elem_of_nil.
    - by intros ? ?%elem_of_nil. }
  cbn [pushLines]. destruct (isEmpty (trim line)) eqn:Eb.
  - destruct (IH seen (merged ++ [line]))
      as (kept & E & Hsub & Hbl & Hnd & Hfresh & Hcov).
    assert (Hb : blank line) by done.
    exists (line :: kept). rewrite E.
    rewrite (filter_cons_False (λ l, ¬ blank l)) by (by intros H; apply H).
    repeat split.
    + f_equal. rewrite <- app_assoc. cbn [fmap list_fmap app].
      unfold keptLine at 2. by rewrite Eb.
    + by apply sublist_skip.
    + rewrite !filter_cons_True by done. by rewrite Hbl.
    + done.
    + intros l [->|Hl]%elem_of_cons Hnb; [done|by apply Hfresh].
    + intros l [->|Hl]%elem_of_cons Hnb; [done|by apply Hcov].
  - assert (Hnb : ¬ blank line) by (unfold blank; congruence).
    case_bool_decide as Hseen.
    + destruct (IH seen merged)
        as (kept & E & Hsub & Hbl & Hnd & Hfresh & Hcov).
      exists kept. rewrite E. repeat split; try done.
      * by apply sublist_cons.
      * by rewrite (filter_cons_False blank).
      * intros l [->|Hl]%elem_of_cons Hl'; [by left|by apply Hcov].
    + destruct (IH ({[trim line]} ∪ seen) (merged ++ [trimEnd line]))
        as (kept & E & Hsub & Hbl & Hnd & Hfresh & Hcov).
      exists (line :: kept). rewrite E.
      rewrite (filter_cons_True (λ l, ¬ blank l)) by done.
      cbn [fmap list_fmap list_to_set].
      repeat split.
      * f_equal;
          [by rewrite (comm_L (∪) {[trim line]} (list_to_set _)),
                <- (assoc_L (∪))|].
        rewrite <- app_assoc. cbn [app].
        unfold keptLine at 2. by rewrite Eb.
      * by apply sublist_skip.
      * by rewrite !(filter_cons_False blank).
      * constructor; [|done].
        intros (x & Hk & Hx)%list_elem_of_fmap.
        apply list_elem_of_filter in Hx as [Hx1 Hx2].
        apply (Hfresh x Hx2 Hx1). rewrite <- Hk. set_solver.
      * intros l [->|Hl]%elem_of_cons Hl'; [done|].
        specialize (Hfresh l Hl Hl'). set_solver.
      * intros l [->|Hl]%elem_of_cons Hl'; [right; by left|].
        destruct (Hcov l Hl Hl') as [Hs|Hk].
        -- apply elem_of_union in Hs as [Hs|Hs]; [|by left].
           apply elem_of_singleton in Hs. right. rewrite Hs. by left.
        -- right. by right.
Qed.

End LineFacts.

(** ** Key-value lines *)

Section KeyValueFacts.
Import Js Lines Builtin.

Lemma takeWhile_dropWhile p s : takeWhile p s +:+ Re.dropWhile p s = s.
Proof.
  induction s as [|c s IH]; [done|]. cbn [takeWhile Re.dropWhile].
  destruct (p c); [|done]. by rewrite append_String, IH.
Qed.

Lemma takeWhile_all p s : Re.dropWhile p (takeWhile p s) = "".
Proof.
  induction s as [|c s IH]; [done|]. cbn [takeWhile].
  destruct (p c) eqn:E; [|done]. cbn [Re.dropWhile]. by rewrite E.
Qed.

Lemma optionalQuote_split s :
  takeOptionalQuote s +:+ Re.dropOptionalQuote s = s.
Proof.
  destruct s as [|c s]; [done|]. cbn [takeOptionalQuote Re.dropOptionalQuote].
  by destruct (Re.isQuote c).
Qed.

Lemma splitValue_spec rest : ∀ v sfx,
  splitValue rest = Some (v, sfx) →
  v +:+ sfx = rest ∧ isSuffixText sfx = true ∧ Re.dropWhile (λ c, negb (isLineTerminator c)) v = "".
Proof.
  induction rest as [|c rest IH]; intros v sfx.
  - cbn [splitValue]. change (isSuffixText "") with true. cbv iota.
    by intros [= <- <-].
  - cbn [splitValue]. destruct (isSuffixText (String c rest)) eqn:E.
    { by intros [= <- <-]. }
    destruct (isLineTerminator c) eqn:Hc; [done|].
    destruct (splitValue rest) as [[v' s']|]; [|done].
    intros [= <- <-]. destruct (IH v' s' eq_refl) as (H1 & H2 & H3).
    rewrite append_String, H1. cbn [Re.dropWhile]. by rewrite Hc.
Qed.

(** X17.  What [parseKeyValueLine] returns for a line takes the line
    apart without loss: prefix, value and suffix, put together again,
    are the line.  The key is a non-empty run of key characters, the
    value contains no line terminator, and the suffix is white space
    with at most one comma in it. *)
Theorem parseKeyValueLine_round_trip text entry :
  parseKeyValueLine text = Some entry →
  prefix entry +:+ value entry +:+ suffix entry = text
  ∧ line entry = text
  ∧ raw entry = false
  ∧ key entry ≠ ""
  ∧ Re.dropWhile Re.isKeyChar (key entry) = ""
  ∧ Re.dropWhile (λ c, negb (isLineTerminator c)) (value entry) = ""
  ∧ isSuffixText (suffix entry) = true.
Proof.
  unfold parseKeyValueLine. cbn zeta.
  set (s1 := Re.dropWhile isWhiteSpace text).
  set (s2 := Re.dropOptionalQuote s1).
  set (s3 := Re.dropWhile Re.isKeyChar s2).
  set (s4 := Re.dropOptionalQuote s3).
  destruct (isEmpty (takeWhile Re.isKeyChar s2)) eqn:Ek; [done|].
  destruct (Re.dropWhile isWhiteSpace s4) as [|a s6] eqn:E5; [done|].
  destruct (Re.isAssign a); [|done].
  destruct (splitValue (Re.dropWhile isWhiteSpace s6)) as [[v sfx]|] eqn:Ev;
    [|done].
  intros [= <-]. cbn [prefix value suffix line raw key].
  destruct (splitValue_spec _ _ _ Ev) as (Hv & Hsfx & Hval).
  repeat split; try done.
  - rewrite !append_assoc, Hv. cbn [String.append].
    rewrite append_String. change ("" +:+ ?x) with x.
    rewrite takeWhile_dropWhile.
    rewrite <- E5, takeWhile_dropWhile. unfold s4.
    rewrite optionalQuote_split. unfold s3. rewrite takeWhile_dropWhile.
    unfold s2. rewrite optionalQuote_split. unfold s1.
    apply takeWhile_dropWhile.
  - intros Hk. by rewrite Hk in Ek.
  - apply takeWhile_all.
Qed.

Lemma processLine_fails text preferIncoming st :
  processLine text preferIncoming st = None
  ↔ ¬ blank text ∧ parseKeyValueLine text = None.
Proof.
  unfold processLine, blank. destruct st as [entries order].
  destruct (isEmpty (trim text)).
  - split; [|by intros [? _]].
    destruct (entries !! _); [destruct preferIncoming|]; done.
  - destruct (parseKeyValueLine text) as [parsed|]; [|done].
    split; [|by intros [_ ?]].
    destruct (entries !! _); [destruct preferIncoming|]; done.
Qed.

Lemma processLines_fails lines preferIncoming : ∀ st,
  processLines lines preferIncoming st = None
  ↔ ∃ text, text ∈ lines ∧ ¬ blank text ∧ parseKeyValueLine text = None.
Proof.
  induction lines as [|text lines IH]; intros st.
  { split; [done|]. by intros (? & ?%elem_of_nil & _). }
  cbn [processLines].
  destruct (processLine text preferIncoming st) as [st'|] eqn:E.
  - rewrite IH. split.
    + intros (x & Hx & H). exists x. split; [by right|done].
    + intros (x & [->|Hx]%elem_of_cons & H); [|by exists x].
      apply (processLine_fails _ preferIncoming st) in H. congruence.
  - split; [|done]. intros _. exists text. split; [by left|].
    by apply processLine_fails in E.
Qed.

(** X18.  [mergeKeyValueLines] gives up, returning [undefined], exactly
    when some line of either side is not blank and is not a key-value
    line for [parseKeyValueLine]; otherwise it returns a text. *)
Theorem mergeKeyValueLines_fails_iff currentLines incomingLines :
  mergeKeyValueLines currentLines incomingLines = None
  ↔ ∃ text, text ∈ currentLines ++ incomingLines
            ∧ ¬ blank text ∧ parseKeyValueLine text = None.
Proof.
  unfold mergeKeyValueLines.
  destruct (processLines currentLines false (∅, [])) as [st|] eqn:E1.
  - destruct (processLines incomingLines true st) as [[entries order]|] eqn:E2.
    + split; [done|].
      intros (x & [Hx|Hx]%elem_of_app & H).
      * assert (processLines currentLines false (∅, []) = None)
          by (apply processLines_fails; by exists x).
        congruence.
      * assert (processLines incomingLines true st = None)
          by (apply processLines_fails; by exists x).
        congruence.
    + split; [|done]. intros _.
      apply processLines_fails in E2 as (x & Hx & H).
      exists x. split; [|done]. apply elem_of_app. by right.
  - split; [|done]. intros _.
    apply processLines_fails in E1 as (x & Hx & H).
    exists x. split; [|done]. apply elem_of_app. by left.
Qed.

End KeyValueFacts.

Lemma parseKeyValueLine_round_trip_witness :
  ∃ entry,
    Builtin.parseKeyValueLine Samples.settingLine = Some entry
    ∧ Builtin.prefix entry = "  name = "
    ∧ Builtin.value entry = "smugit"
    ∧ Builtin.suffix entry = " ,"
    ∧ Builtin.prefix entry +:+ Builtin.value entry +:+ Builtin.suffix entry
      = Samples.settingLine.
Proof.
  eexists. split; [by vm_compute|]. do 3 (split; [reflexivity|]).
  exact (proj1 (parseKeyValueLine_round_trip Samples.settingLine _ eq_refl)).
Defined.

(** ** Replacing a span *)

Section SpanFacts.
Import Js Span.

Lemma startsWith_drop s p :
  startsWith s p = true → s = p +:+ drop (String.length p) s.
Proof.
  revert s. induction p as [|a p IH]; intros s H.
  - by destruct s.
  - destruct s as [|b s]; [done|]. cbn [startsWith] in H.
    destruct (Ascii.eqb_spec a b) as [->|]; [|done].
    rewrite append_String. cbn [String.length drop]. f_equal. by apply IH.
Qed.

(** [cut] splits the text around an occurrence of the pattern. *)
Lemma cut_sound s p : ∀ before after,
  cut s p = Some (before, after) → s = before +:+ p +:+ after.
Proof.
  induction s as [|c s IH]; intros before after; cbn [cut].
  - destruct (startsWith "" p) eqn:E; [|done].
    intros [= <- <-]. by apply startsWith_drop.
  - destruct (startsWith (String c s) p) eqn:E.
    + intros [= <- <-]. by apply startsWith_drop.
    + destruct (cut s p) as [[b a]|]; [|done].
      intros [= <- <-]. rewrite append_String. f_equal. by apply IH.
Qed.

Lemma includes_dollar_String c s :
  includes (String c s) "$" = false → c ≠ "$"%char ∧ includes s "$" = false.
Proof.
  cbn [includes startsWith].
  destruct (Ascii.eqb_spec "$" c) as [<-|Hc].
  - by destruct s.
  - cbn [orb]. intros H. split; [congruence|done].
Qed.

Lemma substitute_plain_cons matched before after c r :
  c ≠ "$"%char →
  substitute matched before after (String c r)
  = String c (substitute matched before after r).
Proof.
  intros Hc. cbn [substitute].
  destruct c as [[] [] [] [] [] [] [] []]; done.
Qed.

Lemma substitute_append matched before after x r :
  includes x "$" = false →
  substitute matched before after (x +:+ r)
  = x +:+ substitute matched before after r.
Proof.
  induction x as [|c x IH]; [done|].
  intros [Hc Hx]%includes_dollar_String.
  rewrite !append_String, substitute_plain_cons by done. by rewrite IH.
Qed.

Lemma substitute_plain matched before after replacement :
  includes replacement "$" = false →
  substitute matched before after replacement = replacement.
Proof.
  intros H. rewrite <- (append_nil_r replacement) at 1.
  rewrite substitute_append by done. cbn [substitute]. apply append_nil_r.
Qed.

Lemma startsWith_append p a : startsWith (p +:+ a) p = true.
Proof.
  induction p as [|c p IH]; [by destruct a|].
  rewrite append_String. cbn [startsWith]. by rewrite Ascii.eqb_refl.
Qed.

(** [cut] takes the first occurrence. *)
Lemma cut_leftmost s p : ∀ before after,
  cut s p = Some (before, after) →
  ∀ before' after', s = before' +:+ p +:+ after' →
    String.length before ≤ String.length before'.
Proof.
  induction s as [|c s IH]; intros before after; cbn [cut].
  - destruct (startsWith "" p); [|done]. intros [= <- <-] ? ? _. simpl. lia.
  - destruct (startsWith (String c s) p) eqn:E.
    { intros [= <- <-] ? ? _. simpl. lia. }
    destruct (cut s p) as [[b a]|] eqn:Ec; [|done].
    intros [= <- <-] before' after' Hs.
    destruct before' as [|c' b'].
    { change ("" +:+ p +:+ after') with (p +:+ after') in Hs.
      rewrite Hs, startsWith_append in E. done. }
    rewrite append_String in Hs. injection Hs as -> Hs.
    cbn [String.length]. specialize (IH b a eq_refl b' after' Hs). lia.
Qed.

(** X19.  [replaceSpan] replaces the text from the first occurrence of
    the start marker up to the first occurrence of the end marker after
    it.  When the replacement contains no dollar sign, it stands in the
    result as it is, between what came before the span and what came
    after. *)
Theorem replaceSpan_plain text startMarker endMarker replacement
    before rest middle after :
  includes replacement "$" = false →
  cut text startMarker = Some (before, rest) →
  cut rest endMarker = Some (middle, after) →
  text = before +:+ startMarker +:+ middle +:+ endMarker +:+ after
  ∧ (∀ before' after', text = before' +:+ startMarker +:+ after' →
       String.length before ≤ String.length before')
  ∧ (∀ middle' after', rest = middle' +:+ endMarker +:+ after' →
       String.length middle ≤ String.length middle')
  ∧ replaceSpan text startMarker endMarker replacement
    = before +:+ replacement +:+ after.
Proof.
  intros Hplain Hstart Hend. repeat split.
  - rewrite (cut_sound _ _ _ _ Hstart) at 1.
    by rewrite (cut_sound _ _ _ _ Hend) at 1.
  - by apply (cut_leftmost _ _ _ _ Hstart).
  - by apply (cut_leftmost _ _ _ _ Hend).
  - unfold replaceSpan. rewrite Hstart, Hend.
    by rewrite substitute_plain.
Qed.

(** X20.  The replacement is not always inserted as it is: where it
    contains [$&], the text that was to be replaced, markers included,
    is put back in that place. *)
Theorem replaceSpan_restores_block text startMarker endMarker x y
    before rest middle after :
  includes x "$" = false →
  includes y "$" = false →
  cut text startMarker = Some (before, rest) →
  cut rest endMarker = Some (middle, after) →
  replaceSpan text startMarker endMarker (x +:+ "$&" +:+ y)
  = before +:+ x +:+ (startMarker +:+ middle +:+ endMarker) +:+ y +:+ after.
Proof.
  intros Hx Hy Hstart Hend. unfold replaceSpan. rewrite Hstart, Hend.
  rewrite substitute_append by done.
  change ("$&" +:+ y) with (String "$" (String "&" y)).
  cbn [substitute]. rewrite substitute_plain by done.
  by rewrite !append_assoc.
Qed.

End SpanFacts.

Lemma replaceSpan_plain_witness :
  Span.replaceSpan Samples.blockText "<<<<<<< HEAD" ">>>>>>> other" "b"
  = Js.join Js.NL [ "x"; "b"; "y" ].
Proof.
  exact (proj2 (proj2 (proj2
    (replaceSpan_plain Samples.blockText "<<<<<<< HEAD" ">>>>>>> other" "b"
       (String "x" Js.NL)
       (Js.join Js.NL [ ""; "a"; "======="; "b"; ">>>>>>> other"; "y" ])
       (Js.join Js.NL [ ""; "a"; "======="; "b"; "" ])
       (String Js.LF "y")
       eq_refl eq_refl eq_refl)))).
Defined.

Lemma replaceSpan_restores_block_witness :
  Span.replaceSpan Samples.blockText "<<<<<<< HEAD" ">>>>>>> other" "$&"
  = Samples.blockText.
Proof.
  exact (replaceSpan_restores_block Samples.blockText "<<<<<<< HEAD"
           ">>>>>>> other" "" ""
           (String "x" Js.NL)
           (Js.join Js.NL [ ""; "a"; "======="; "b"; ">>>>>>> other"; "y" ])
           (Js.join Js.NL [ ""; "a"; "======="; "b"; "" ])
           (String Js.LF "y")
           eq_refl eq_refl eq_refl eq_refl).
Defined.

(** ** The registry *)

Section RegistryFacts.
Import Registry.

Lemma mapSet_keys {V} k (v : V) m :
  (mapSet k v m).*1 = if bool_decide (k ∈ m.*1) then m.*1 else m.*1 ++ [k].
Proof.
  induction m as [|[k' v'] m IH]; [done|]. cbn [mapSet].
  destruct (bool_decide_reflect (k' = k)) as [Hk|Hk].
  - subst k'. cbn [fmap list_fmap fst].
    rewrite bool_decide_eq_true_2; [done|by left].
  - cbn [fmap list_fmap fst]. fold (fmap (M:=list) (@fst string V)).
    rewrite IH. destruct (bool_decide_reflect (k ∈ m.*1)) as [Hin|Hin].
    + rewrite bool_decide_eq_true_2; [done|by right].
    + rewrite bool_decide_eq_false_2; [done|].
      intros [->|H]%elem_of_cons; done.
Qed.

Lemma mapSet_elem {V} k (v : V) m k' v' :
  NoDup m.*1 →
  (k', v') ∈ mapSet k v m ↔ (k' = k ∧ v' = v) ∨ (k' ≠ k ∧ (k', v') ∈ m).
Proof.
  induction m as [|[k0 v0] m IH]; intros Hnd; cbn [mapSet].
  - rewrite list_elem_of_singleton. split.
    + intros [= -> ->]. by left.
    + intros [[-> ->]|[_ ?%elem_of_nil]]; done.
  - apply NoDup_cons in Hnd as [Hk0 Hnd]. specialize (IH Hnd).
    destruct (bool_decide_reflect (k0 = k)) as [Hk|Hk].
    + subst k0. rewrite !elem_of_cons. split.
      * intros [[= -> ->]|H]; [by left|].
        right. split; [|by right]. intros ->. apply Hk0.
        apply list_elem_of_fmap. by exists (k, v').
      * intros [[-> ->]|[Hne [[= -> ->]|H]]]; [by left|done|by right].
    + rewrite !elem_of_cons, IH. split.
      * intros [[= -> ->]|[H|[Hne H]]]; [right; split; [done|by left]|by left|].
        right. split; [done|by right].
      * intros [H|[Hne [[= -> ->]|H]]]; [right; by left|by left|].
        right. right. done.
Qed.

Lemma mapSet_keyed k (p : Plugin.ConflictResolutionPlugin) m :
  k = Plugin.name p → keyed m → keyed (mapSet k p m).
Proof.
  intros Hk [Hall Hnd]. split.
  - apply Forall_forall. intros [k' v'] Hin.
    apply mapSet_elem in Hin as [[-> ->]|[_ Hin]]; [done| |done].
    rewrite Forall_forall in Hall. by apply (Hall (k', v')).
  - rewrite mapSet_keys.
    destruct (bool_decide_reflect (k ∈ m.*1)) as [Hin|Hin]; [done|].
    apply NoDup_app. repeat split; [done| |apply NoDup_singleton].
    intros x Hx ->%list_elem_of_singleton. done.
Qed.

(** X21.  Registering a plugin files it under its name: afterwards the
    plugin is among the registered plugins, a plugin that was registered
    under the same name is gone, and the plugins of other names are
    there as before.  A name that was registered keeps its place in the
    order of registration, a new name goes to the end; and the registry
    still holds every plugin under its own name, once. *)
Theorem register_replaces_by_name plugin registry :
  keyed registry →
  keyed (registerConflictResolutionPlugin plugin registry)
  ∧ (∀ q, q ∈ getConflictResolutionPlugins
                (registerConflictResolutionPlugin plugin registry)
          ↔ q = plugin
            ∨ (q ∈ getConflictResolutionPlugins registry
               ∧ Plugin.name q ≠ Plugin.name plugin))
  ∧ (registerConflictResolutionPlugin plugin registry).*1
    = if bool_decide (Plugin.name plugin ∈ registry.*1) then registry.*1
      else registry.*1 ++ [Plugin.name plugin].
Proof.
  intros Hkeyed. split; [by apply mapSet_keyed|]. split; [|apply mapSet_keys].
  intros q. rewrite !view_perm. unfold registerConflictResolutionPlugin.
  destruct Hkeyed as [Hall Hnd]. rewrite Forall_forall in Hall.
  rewrite !list_elem_of_fmap. split.
  - intros ([k' v'] & -> & Hin). cbn [snd].
    apply mapSet_elem in Hin as [[-> ->]|[Hne Hin]]; [by left| |done].
    right. split; [by exists (k', v')|].
    specialize (Hall (k', v') Hin). simpl in Hall. congruence.
  - intros [->|[([k' v'] & -> & Hin) Hne]].
    + exists (Plugin.name plugin, plugin). split; [done|].
      apply mapSet_elem; [done|by left].
    + exists (k', v'). split; [done|].
      apply mapSet_elem; [done|]. right. split; [|done].
      specialize (Hall (k', v') Hin). simpl in Hall, Hne. congruence.
Qed.

End RegistryFacts.

Lemma register_replaces_by_name_witness :
  keyed Samples.builtinRegistry
  ∧ keyed (Registry.registerConflictResolutionPlugin Samples.keepCurrentPlugin
             Samples.builtinRegistry)
  ∧ (Registry.registerConflictResolutionPlugin Samples.keepCurrentPlugin
       Samples.builtinRegistry).*1
    = [ "whitespace-normalizer"; "import-merge"; "simple-content-merge";
        "keep-current" ].
Proof.
  assert (H : keyed Samples.builtinRegistry).
  { split; [by repeat constructor|].
    apply (bool_decide_unpack _). by vm_compute. }
  split; [exact H|].
  destruct (register_replaces_by_name Samples.keepCurrentPlugin
              Samples.builtinRegistry H) as (H1 & _ & H3).
  split; [exact H1|]. exact H3.
Defined.

(** ** The resolver: plugins in turn, the report, the files *)

Section ResolverFacts.
Import Js Resolver.
Variable pathJoin : string → string → string.
Variable repoPath : string.

Abbreviation run := (runPlugins pathJoin repoPath).
Abbreviation contextAt := (createContext pathJoin repoPath).

Lemma runPlugins_skip conflict skipped rest w :
  Forall (passesOn (contextAt w) conflict) skipped →
  run conflict (skipped ++ rest) w = run conflict rest w.
Proof.
  induction 1 as [|p skipped [Hp|Hp] _ IH]; [done| |]; cbn [app runPlugins].
  - by rewrite Hp.
  - destruct (Plugin.supports p conflict); [|done]. cbn [negb].
    unfold bind. by rewrite Hp.
Qed.

Lemma runPlugins_first conflict plugins w :
  Forall (passesOn (contextAt w) conflict) plugins
  ∨ ∃ skipped p rest,
      plugins = skipped ++ p :: rest
      ∧ Forall (passesOn (contextAt w) conflict) skipped
      ∧ Plugin.supports p conflict = true
      ∧ Plugin.resolve p conflict (contextAt w) ≠ Ok None.
Proof.
  induction plugins as [|p plugins IH]; [by left|].
  destruct (Plugin.supports p conflict) eqn:Es.
  - destruct (Plugin.resolve p conflict (contextAt w)) as [[r|]|e] eqn:Er.
    + right. exists [], p, plugins. rewrite Er. by repeat split.
    + destruct IH as [IH|(skipped & q & rest & -> & Hsk & Hq & Hr)].
      * left. constructor; [by right|done].
      * right. exists (p :: skipped), q, rest. repeat split; try done.
        constructor; [by right|done].
    + right. exists [], p, plugins. rewrite Er. by repeat split.
  - destruct IH as [IH|(skipped & q & rest & -> & Hsk & Hq & Hr)].
    + left. constructor; [by left|done].
    + right. exists (p :: skipped), q, rest. repeat split; try done.
      constructor; [by left|done].
Qed.

(** X22.  [runPlugins] asks the plugins in the order of the list and
    stops at the first that supports the conflict and does not decline
    it: it returns that plugin's resolution, or throws what that plugin
    throws, and the plugins after it are not asked.  It returns
    [undefined] exactly when every plugin passes the conflict on. *)
Theorem runPlugins_first_answer conflict plugins w :
  (run conflict plugins w = (Ok None, w)
   ↔ Forall (passesOn (contextAt w) conflict) plugins)
  ∧ (∀ skipped p rest,
       plugins = skipped ++ p :: rest →
       Forall (passesOn (contextAt w) conflict) skipped →
       Plugin.supports p conflict = true →
       match Plugin.resolve p conflict (contextAt w) with
       | Ok (Some r) => run conflict plugins w = (Ok (Some (outcomeOf p r)), w)
       | Ok None => run conflict plugins w = run conflict rest w
       | Throw e => run conflict plugins w = (Throw e, w)
       end).
Proof.
  assert (Hat : ∀ skipped p rest,
    Forall (passesOn (contextAt w) conflict) skipped →
    Plugin.supports p conflict = true →
    match Plugin.resolve p conflict (contextAt w) with
    | Ok (Some r) =>
        run conflict (skipped ++ p :: rest) w = (Ok (Some (outcomeOf p r)), w)
    | Ok None => run conflict (skipped ++ p :: rest) w = run conflict rest w
    | Throw e => run conflict (skipped ++ p :: rest) w = (Throw e, w)
    end).
  { intros skipped p rest Hsk Hp. rewrite runPlugins_skip by done.
    cbn [runPlugins]. rewrite Hp. cbn [negb]. unfold bind.
    by destruct (Plugin.resolve p conflict (contextAt w)) as [[r|]|e]. }
  split.
  - split.
    + intros Hrun.
      destruct (runPlugins_first conflict plugins w)
        as [H|(skipped & p & rest & -> & Hsk & Hp & Hr)]; [done|].
      specialize (Hat skipped p rest Hsk Hp).
      destruct (Plugin.resolve p conflict (contextAt w)) as [[r|]|e];
        congruence.
    + intros Hall. rewrite <- (app_nil_r plugins).
      by rewrite runPlugins_skip.
  - intros skipped p rest -> Hsk Hp. by apply Hat.
Qed.

(** X23.  [autoResolveConflicts] never throws, and its report is
    consistent: [success] is true exactly when no file failed, there is
    one error message per failed file, and [resolvedFiles] and
    [failedFiles] list files of the given conflicts in the order of the
    conflicts. *)
Theorem report_is_consistent registry conflicts dryRun fallback w :
  ∃ r w',
    autoResolveConflicts pathJoin repoPath registry conflicts dryRun fallback w
    = (Ok r, w')
    ∧ (success r = true ↔ failedFiles r = [])
    ∧ length (errors r) = length (failedFiles r)
    ∧ sublist (resolvedFiles r) (file <$> conflicts)
    ∧ sublist (failedFiles r) (file <$> conflicts).
Proof.
  unfold autoResolveConflicts.
  destruct (resolveAll_invariant pathJoin repoPath
              (Registry.getConflictResolutionPlugins registry) dryRun
              (strategyOf fallback)
              (λ seen r _,
                 (success r = true ↔ failedFiles r = [])
                 ∧ length (errors r) = length (failedFiles r)
                 ∧ sublist (resolvedFiles r) (file <$> seen)
                 ∧ sublist (failedFiles r) (file <$> seen)))
    with (conflicts := conflicts) (seen := @nil GitConflict)
         (r := emptyResult) (w := w)
    as (r & w' & E & H); [| |by exists r, w'].
  - intros seen c r0 w0 r1 w1 (Hs & Hlen & Hres & Hfail) S.
    rewrite fmap_app. cbn [fmap list_fmap].
    destruct S; cbn [success failedFiles errors resolvedFiles recordPlugin
                       recordFallback recordFailure].
    + repeat split; try tauto; try done.
      * by apply sublist_app.
      * by apply sublist_inserts_r.
    + repeat split; try tauto; try done.
      * by apply sublist_app.
      * by apply sublist_inserts_r.
    + repeat split; try done.
      * by intros [_ ?]%app_eq_nil.
      * rewrite !length_app. cbn [length]. lia.
      * by apply sublist_inserts_r.
      * by apply sublist_app.
    + repeat split; try done.
      * by intros [_ ?]%app_eq_nil.
      * rewrite !length_app. cbn [length]. lia.
      * by apply sublist_inserts_r.
      * by apply sublist_app.
  - by repeat split.
Qed.

(** X24.  A run writes to the files it reports as resolved and to
    nothing else: every other path of the working tree holds what it
    held before, and so do the index and the write permissions; in
    particular the file of a conflict that failed, and that no other
    conflict resolved, is left as it was.  A run that is not dry leaves
    every file it reports as resolved present in the working tree. *)
Theorem run_writes_resolved_files_only registry conflicts dryRun fallback w :
  ∃ r w',
    autoResolveConflicts pathJoin repoPath registry conflicts dryRun fallback w
    = (Ok r, w')
    ∧ unwritable w' = unwritable w
    ∧ staged w' = staged w
    ∧ (∀ path, path ∉ pathJoin repoPath <$> resolvedFiles r →
         files w' !! path = files w !! path)
    ∧ (dryRun = false →
       ∀ f, f ∈ resolvedFiles r →
         is_Some (files w' !! pathJoin repoPath f)).
Proof.
  unfold autoResolveConflicts.
  destruct (resolveAll_invariant pathJoin repoPath
              (Registry.getConflictResolutionPlugins registry) dryRun
              (strategyOf fallback)
              (λ _ r w',
                 unwritable w' = unwritable w
                 ∧ staged w' = staged w
                 ∧ (∀ path, path ∉ pathJoin repoPath <$> resolvedFiles r →
                      files w' !! path = files w !! path)
                 ∧ (dryRun = false →
                    ∀ f, f ∈ resolvedFiles r →
                      is_Some (files w' !! pathJoin repoPath f))))
    with (conflicts := conflicts) (seen := @nil GitConflict)
         (r := emptyResult) (w := w)
    as (r & w' & E & H); [| |by exists r, w'].
  - intros seen c r0 w0 r1 w1 (Hu & Hst & Hframe & Hpresent) S.
    assert (Hwrite : ∀ text,
      unwritable (afterWrite pathJoin repoPath dryRun c text w0) = unwritable w
      ∧ staged (afterWrite pathJoin repoPath dryRun c text w0) = staged w
      ∧ (∀ path, path ∉ pathJoin repoPath <$> (resolvedFiles r0 ++ [file c]) →
           files (afterWrite pathJoin repoPath dryRun c text w0) !! path
           = files w !! path)
      ∧ (dryRun = false →
         ∀ f, f ∈ resolvedFiles r0 ++ [file c] →
           is_Some (files (afterWrite pathJoin repoPath dryRun c text w0)
                      !! pathJoin repoPath f))).
    { intros text. unfold afterWrite. destruct dryRun.
      - repeat split; try done.
        intros path Hpath. apply Hframe. intros Hin. apply Hpath.
        rewrite fmap_app. apply elem_of_app. by left.
      - cbn [unwritable staged files written]. repeat split; try done.
        + intros path Hpath. rewrite fmap_app in Hpath.
          rewrite lookup_insert_ne.
          * apply Hframe. intros Hin. apply Hpath. apply elem_of_app. by left.
          * intros <-. apply Hpath. apply elem_of_app. right.
            cbn [fmap list_fmap]. by left.
        + intros _ f [Hf|Hf%list_elem_of_singleton]%elem_of_app.
          * destruct (decide (pathJoin repoPath (file c) = pathJoin repoPath f))
              as [Heq|Hne].
            -- rewrite Heq, lookup_insert_eq. by eexists.
            -- rewrite lookup_insert_ne by done. by apply Hpresent.
          * subst f. rewrite lookup_insert_eq. by eexists. }
    destruct S; cbn [resolvedFiles recordPlugin recordFallback recordFailure];
      [apply Hwrite|apply Hwrite|done|done].
  - repeat split; try done. by intros _ f ?%elem_of_nil.
Qed.

End ResolverFacts.

(** ** Two-way files, and the fallback on a sample *)

Section TwoWayFiles.
Import Js Parser Layout.

(** X3.  On a file that is a sequence of well-formed two-way regions
    with text around them, the parser returns exactly one hunk per
    region, in the order of the file; each hunk has the line numbers of
    its region, the lines of its two sides joined by line feeds, an empty
    base, and the three marker lines of the region. *)
Theorem two_way_layout_parsed content f :
  wfFile f →
  splitLines content = fileLines f →
  parseConflictHunks content = hunksFrom 0 f.1.
Proof. apply parse_two_way_layout. Qed.

End TwoWayFiles.

Lemma two_way_layout_parsed_witness :
  Layout.wfFile Samples.twoWayFile
  ∧ Parser.parseConflictHunks Samples.twoWay
    = Layout.hunksFrom 0 Samples.twoWayFile.1.
Proof.
  assert (Hwf : Layout.wfFile Samples.twoWayFile).
  { split; [|repeat constructor].
    repeat first [ apply Forall_nil_2 | apply Forall_cons_2 ];
      (split; [repeat constructor|]); split; repeat constructor. }
  split; [exact Hwf|].
  exact (two_way_layout_parsed Samples.twoWay Samples.twoWayFile Hwf eq_refl).
Defined.

Lemma applyFallbackStrategy_returns_witness :
  ∃ out,
    Resolver.applyFallbackStrategy Samples.joinPath "/repo"
      Samples.spacingConflict Resolver.current Samples.twoFiles
    = (Ok (Some out), Samples.twoFiles).
Proof.
  refine (applyFallbackStrategy_returns Samples.joinPath "/repo"
            Samples.spacingConflict Resolver.current Samples.twoFiles
            Samples.spacingContent _ _); [done|by vm_compute].
Defined.

Lemma no_match_iff_empty_witness :
  Resolver.resolveOne Samples.joinPath "/repo"
    (Registry.getConflictResolutionPlugins Samples.builtinRegistry) false
    (Some Resolver.incoming) Samples.emptiedConflict Resolver.emptyResult
    Samples.emptiedWorld
  = (Ok (Resolver.recordFailure Samples.emptiedConflict
           (Resolver.noStrategyMessage (file Samples.emptiedConflict))
           Resolver.emptyResult),
     Samples.emptiedWorld).
Proof.
  refine (proj2 (no_match_iff_empty Samples.joinPath "/repo"
            (Registry.getConflictResolutionPlugins Samples.builtinRegistry)
            false Samples.emptiedConflict Resolver.incoming
            Resolver.emptyResult Samples.emptiedWorld Samples.emptiedContent
            "" _ _ _ _) eq_refl); [done|by vm_compute..].
Defined.

(** ** The builtin plugins do not compete *)

Section BuiltinExclusive.
Import Builtin.

(** X27.  At most one builtin plugin supports a given conflict, so the
    priorities of the builtin plugins never decide between them; and no
    builtin plugin supports a conflict of type STRUCTURAL or SEMANTIC. *)
Theorem builtin_plugins_exclusive localeCompare conflict :
  (∀ p q, p ∈ builtinPlugins localeCompare →
          q ∈ builtinPlugins localeCompare →
          Plugin.supports p conflict = true →
          Plugin.supports q conflict = true →
          p = q)
  ∧ (type conflict = STRUCTURAL ∨ type conflict = SEMANTIC →
     Forall (λ p, Plugin.supports p conflict = false)
       (builtinPlugins localeCompare)).
Proof.
  split.
  - intros p q Hp Hq. unfold builtinPlugins in *.
    repeat (apply elem_of_cons in Hp as [->|Hp]);
      [| | |by apply elem_of_nil in Hp];
      (repeat (apply elem_of_cons in Hq as [->|Hq]);
       [| | |by apply elem_of_nil in Hq]);
      cbn [Plugin.supports whitespacePlugin importPlugin simpleContentPlugin];
      try done;
      destruct (type conflict); cbn; try done.
  - intros Ht. unfold builtinPlugins.
    repeat constructor;
      cbn [Plugin.supports whitespacePlugin importPlugin simpleContentPlugin];
      destruct Ht as [-> | ->]; done.
Qed.

End BuiltinExclusive.

(** ** Commit helpers *)

Section CommitFacts.
Import Js Commits.

Lemma cut_empty_before s p after :
  cut s p = Some ("", after) → startsWith s p = true.
Proof.
  destruct s as [|c s]; cbn [cut].
  - by destruct (startsWith "" p).
  - destruct (startsWith (String c s) p); [done|].
    by destruct (cut s p) as [[b a]|].
Qed.

Lemma cut_startsWith s p :
  startsWith s p = true → cut s p = Some ("", drop (String.length p) s).
Proof. intros H. destruct s; cbn [cut]; by rewrite H. Qed.

Lemma afterFirst_split alternatives next s rest :
  afterFirst alternatives next s = Some rest →
  ∃ a, a ∈ alternatives ∧ s = (a +:+ next) +:+ rest.
Proof.
  induction alternatives as [|a alternatives IH]; [done|].
  cbn [afterFirst]. destruct (startsWith s (a +:+ next)) eqn:E.
  - intros [= <-]. exists a. split; [by left|]. by apply startsWith_drop.
  - intros H. destruct (IH H) as (b & Hb & Hs). exists b. split; [by right|done].
Qed.

Lemma prefixed_has_slash s rest :
  afterFirst scopePrefixes "/" s = Some rest →
  ∃ segment after, cut s "/" = Some (segment, after) ∧ segment ≠ "".
Proof.
  intros (a & Ha & ->)%afterFirst_split. unfold scopePrefixes in Ha.
  repeat (apply elem_of_cons in Ha as [->|Ha]);
    [| | | | |by apply elem_of_nil in Ha];
    match goal with
    | |- ∃ _ _, cut ((?a +:+ _) +:+ _) _ = _ ∧ _ =>
        exists a, rest; split; [by destruct rest; vm_compute|done]
    end.
Qed.

(** X28.  [extractScopeFromBranch] returns [undefined] exactly for the
    branch names that contain no slash or begin with one; the scope it
    returns otherwise is never empty. *)
Theorem extractScopeFromBranch_undefined_iff branchName :
  (extractScopeFromBranch branchName = None
   ↔ includes branchName "/" = false ∨ startsWith branchName "/" = true)
  ∧ extractScopeFromBranch branchName ≠ Some "".
Proof.
  assert (Hinc : includes branchName "/" = false ↔ cut branchName "/" = None).
  { induction branchName as [|c s IH]; [done|]. cbn [includes cut].
    destruct (startsWith (String c s) "/"); [done|]. cbn [orb].
    rewrite IH. by destruct (cut s "/") as [[b a]|]. }
  unfold extractScopeFromBranch, prefixedScope, leadingSegment. split.
  - rewrite Hinc. split.
    + destruct (afterFirst scopePrefixes "/" branchName) as [rest|] eqn:E.
      * cbn zeta.
        destruct (isEmpty (Builtin.takeWhile notDash rest)); [|done].
        destruct (cut branchName "/") as [[[|c seg] after]|] eqn:Ec;
          [|done|by left].
        intros _. right. by apply cut_empty_before in Ec.
      * destruct (cut branchName "/") as [[[|c seg] after]|] eqn:Ec;
          [|done|by left].
        intros _. right. by apply cut_empty_before in Ec.
    + intros Hno.
      destruct (afterFirst scopePrefixes "/" branchName) as [rest|] eqn:E.
      * destruct (prefixed_has_slash _ _ E) as (seg & after & Ec & Hseg).
        destruct Hno as [Hno|Hno]; [congruence|].
        rewrite (cut_startsWith _ _ Hno) in Ec. congruence.
      * destruct Hno as [->|Hno]; [done|].
        by rewrite (cut_startsWith _ _ Hno).
  - destruct (afterFirst scopePrefixes "/" branchName) as [rest|].
    + cbn zeta.
      destruct (Builtin.takeWhile notDash rest) as [|c scope] eqn:Es;
        cbn [isEmpty]; [|done].
      destruct (cut branchName "/") as [[[|c seg] after]|]; done.
    + destruct (cut branchName "/") as [[[|c seg] after]|]; done.
Qed.

Lemma append_String_l c s e : String c s +:+ e = String c (s +:+ e).
Proof. reflexivity. Qed.

Lemma colonDescription_append s e :
  colonDescription s = true → colonDescription (s +:+ e) = true.
Proof.
  destruct s as [|a [|b [|c s]]]; try done;
    rewrite ?append_String_l; try done.
  - cbn [colonDescription]. by repeat case_match.
  - cbn [colonDescription]. by repeat case_match.
Qed.

Lemma scopeThenColon_append s e : ∀ seen,
  scopeThenColon seen s = true → scopeThenColon seen (s +:+ e) = true.
Proof.
  induction s as [|c s IH]; intros seen.
  - cbn [scopeThenColon]. by rewrite andb_false_r.
  - rewrite append_String_l. cbn [scopeThenColon].
    intros [H|H]%orb_true_iff; apply orb_true_iff.
    + left. apply andb_true_iff in H as [-> H]. cbn [andb].
      destruct (Ascii.eqb_spec c ")") as [->|Hc].
      * by apply colonDescription_append.
      * destruct c as [[] [] [] [] [] [] [] []]; done.
    + right. apply andb_true_iff in H as [-> H]. by apply IH.
Qed.

Lemma afterFirst_commitTypes_append s rest more :
  afterFirst commitTypes "" s = Some rest →
  afterFirst commitTypes "" (s +:+ more) = Some (rest +:+ more).
Proof.
  intros (a & Ha & ->)%afterFirst_split. unfold commitTypes in Ha.
  repeat (apply elem_of_cons in Ha as [->|Ha]);
    [| | | | | | |by apply elem_of_nil in Ha];
    (destruct rest; [destruct more|]; by vm_compute).
Qed.

(** X29.  The pattern of [isValidConventionalCommit] is anchored at the
    start only: a message that is valid stays valid whatever is written
    after it, so the bound of fifty characters on the description bounds
    nothing; and a valid message begins with one of the seven types. *)
Theorem valid_commit_stays_valid message more :
  isValidConventionalCommit message = true →
  isValidConventionalCommit (message +:+ more) = true
  ∧ ∃ type rest, type ∈ commitTypes ∧ message = type +:+ rest.
Proof.
  unfold isValidConventionalCommit.
  destruct (afterFirst commitTypes "" message) as [rest|] eqn:E; [|done].
  rewrite (afterFirst_commitTypes_append _ _ more E).
  intros H. split.
  - apply orb_true_iff in H as [H|H]; apply orb_true_iff.
    + left. by apply colonDescription_append.
    + right. destruct rest as [|c rest]; [done|].
      rewrite append_String_l.
      destruct (Ascii.eqb_spec c "(") as [->|Hc].
      * by apply scopeThenColon_append.
      * destruct c as [[] [] [] [] [] [] [] []]; done.
  - apply afterFirst_split in E as (a & Ha & ->).
    exists a, rest. by rewrite append_nil_r.
Qed.

End CommitFacts.

Lemma valid_commit_stays_valid_witness :
  Commits.isValidConventionalCommit "fix(parser): keep the separator" = true
  ∧ Commits.isValidConventionalCommit Samples.longMessage = true.
Proof.
  split; [reflexivity|].
  exact (proj1 (valid_commit_stays_valid "fix(parser): keep the separator"
                  " line of a region that has a base section" eq_refl)).
Defined.

(** ** The fallback on a file with one region *)

Section FallbackOnRegion.
Import Js Parser Layout Resolver.
Variable pathJoin : string → string → string.
Variable repoPath : string.













End FallbackOnRegion.


Lemma superset_side_wins_witness :
  Builtin.computeContentReplacement Samples.growingHunk
  = Some (incomingContent Samples.growingHunk).
Proof.
  refine (proj1 (superset_side_wins Samples.growingHunk _ _ _ _) _);
    [reflexivity|reflexivity|by vm_compute|by vm_compute|].
  intros l Hl.
  assert (Hcur : Lines.meaningful
                   (Js.splitLines (currentContent Samples.growingHunk))
                 = [ "alpha" ]) by (by vm_compute).
  assert (Hinc : Lines.meaningful
                   (Js.splitLines (incomingContent Samples.growingHunk))
                 = [ "alpha"; "beta" ]) by (by vm_compute).
  rewrite Hcur in Hl. rewrite Hinc.
  apply list_elem_of_singleton in Hl as ->. by left.
Defined.

(** ** Which duplicate is kept *)

Section KeptPositions.
Import Js Lines Builtin.

Lemma elementsAt_cons {A} (l : list A) i idx x :
  l !! i = Some x → elementsAt l (i :: idx) = x :: elementsAt l idx.
Proof. intros H. unfold elementsAt. cbn [omap list_omap]. by rewrite H. Qed.

(** Positions from [n] on, for a list read from position [n]. *)
Lemma positions_from {A} (keep : list A → A → Prop) (l : list A) idx :
  StronglySorted lt idx →
  (∀ i, i ∈ idx ↔ 0 ≤ i ∧ ∃ x, l !! i = Some x ∧ keep (take i l) x) →
  keptPositions keep l idx.
Proof.
  intros Hs Hm. split; [done|]. intros i. rewrite Hm. split.
  - by intros [_ H].
  - intros H. split; [lia|done].
Qed.

Lemma mergeSeen_exact imports : ∀ before seen merged,
  (∀ k, k ∈ seen ↔ k ∈ importKey <$> before) →
  ∃ idx,
    StronglySorted lt idx
    ∧ (∀ i, i ∈ idx ↔
         length before ≤ i
         ∧ ∃ x, (before ++ imports) !! i = Some x
                ∧ importKey x ∉ importKey <$> take i (before ++ imports))
    ∧ mergeSeen imports seen merged
      = merged ++ elementsAt (before ++ imports) idx.
Proof.
  induction imports as [|imp imports IH]; intros before seen merged Hseen.
  { exists []. split; [constructor|]. split; [|by rewrite app_nil_r].
    intros i. split; [by intros ?%elem_of_nil|].
    intros (Hi & x & Hx & _). rewrite app_nil_r in Hx.
    apply lookup_lt_Some in Hx. lia. }
  assert (Hhere : (before ++ imp :: imports) !! length before = Some imp).
  { by rewrite lookup_app_r, Nat.sub_diag by lia. }
  assert (Htake : take (length before) (before ++ imp :: imports) = before).
  { by rewrite take_app_length. }
  assert (El : before ++ imp :: imports = (before ++ [imp]) ++ imports).
  { by rewrite <- app_assoc. }
  cbn [mergeSeen]. fold (importKey imp).
  destruct (bool_decide_reflect (importKey imp ∈ seen)) as [Hin|Hin].
  - destruct (IH (before ++ [imp]) seen merged)
      as (idx & Hs & Hm & E).
    { intros k. rewrite fmap_app, elem_of_app, Hseen. cbn [fmap list_fmap].
      rewrite list_elem_of_singleton. split; [by left|].
      intros [H| ->]; [done|]. by apply Hseen. }
    exists idx. rewrite El. split; [done|]. split; [|done].
    intros i. rewrite Hm, length_app. cbn [length]. split.
    + intros [Hi H]. split; [lia|done].
    + intros [Hi (x & Hx & Hk)]. split; [|by exists x].
      destruct (decide (i = length before)) as [->|]; [|lia].
      exfalso. rewrite <- El in Hx, Hk. rewrite Hhere in Hx.
      injection Hx as <-. rewrite Htake in Hk. by apply Hk, Hseen.
  - destruct (IH (before ++ [imp]) ({[importKey imp]} ∪ seen) (merged ++ [imp]))
      as (idx & Hs & Hm & E).
    { intros k. rewrite fmap_app, elem_of_app, elem_of_union, Hseen.
      cbn [fmap list_fmap].
      rewrite list_elem_of_singleton, elem_of_singleton. tauto. }
    exists (length before :: idx). rewrite E, <- El. split; [|split].
    + constructor; [done|]. apply Forall_forall. intros i Hi.
      apply Hm in Hi as [Hi _]. rewrite length_app in Hi. cbn [length] in Hi.
      lia.
    + intros i. rewrite elem_of_cons, Hm, length_app, <- El. cbn [length].
      split.
      * intros [->|[Hi H]]; [|split; [lia|done]].
        split; [done|]. exists imp. split; [done|].
        rewrite Htake. by intros ?%Hseen.
      * intros [Hi H].
        destruct (decide (i = length before)) as [->|]; [by left|].
        right. split; [lia|done].
    + rewrite (elementsAt_cons _ _ _ imp) by done.
      by rewrite <- app_assoc.
Qed.

Lemma pushLines_app a : ∀ b seen merged,
  pushLines (a ++ b) seen merged
  = pushLines b (pushLines a seen merged).1 (pushLines a seen merged).2.
Proof.
  induction a as [|x a IH]; intros b seen merged; [done|].
  cbn [app pushLines].
  destruct (isEmpty (trim x)); [apply IH|].
  destruct (bool_decide (trim x ∈ seen)); apply IH.
Qed.

Lemma pushLines_exact lines : ∀ before seen merged,
  (∀ k, k ∈ seen ↔ ∃ d, d ∈ before ∧ ¬ blank d ∧ trim d = k) →
  ∃ idx,
    StronglySorted lt idx
    ∧ (∀ i, i ∈ idx ↔
         length before ≤ i
         ∧ ∃ x, (before ++ lines) !! i = Some x
                ∧ (blank x ∨ trim x ∉ trim <$> take i (before ++ lines)))
    ∧ (pushLines lines seen merged).2
      = merged ++ (keptLine <$> elementsAt (before ++ lines) idx).
Proof.
  assert (Hkey : ∀ (before : list string) (seen : gset string) x,
    (∀ k, k ∈ seen ↔ ∃ d, d ∈ before ∧ ¬ blank d ∧ trim d = k) →
    ¬ blank x → (trim x ∈ seen ↔ trim x ∈ trim <$> before)).
  { intros before seen x Hseen Hx. rewrite Hseen, list_elem_of_fmap. split.
    - intros (d & Hd & _ & E). by exists d.
    - intros (d & E & Hd). exists d. split; [done|]. split; [|done].
      unfold blank in *. by rewrite <- E. }
  induction lines as [|x lines IH]; intros before seen merged Hseen.
  { exists []. split; [constructor|]. split; [|by rewrite app_nil_r].
    intros i. split; [by intros ?%elem_of_nil|].
    intros (Hi & y & Hy & _). rewrite app_nil_r in Hy.
    apply lookup_lt_Some in Hy. lia. }
  assert (Hhere : (before ++ x :: lines) !! length before = Some x).
  { by rewrite lookup_app_r, Nat.sub_diag by lia. }
  assert (Htake : take (length before) (before ++ x :: lines) = before).
  { by rewrite take_app_length. }
  assert (El : before ++ x :: lines = (before ++ [x]) ++ lines).
  { by rewrite <- app_assoc. }
  cbn [pushLines]. destruct (isEmpty (trim x)) eqn:Eb.
  - assert (Hb : blank x) by done.
    destruct (IH (before ++ [x]) seen (merged ++ [x])) as (idx & Hs & Hm & E).
    { intros k. rewrite Hseen. split.
      - intros (d & Hd & H). exists d. split; [|done].
        apply elem_of_app. by left.
      - intros (d & [Hd| ->%list_elem_of_singleton]%elem_of_app & Hnb & H);
          [by exists d|done]. }
    exists (length before :: idx). rewrite E, <- El. split; [|split].
    + constructor; [done|]. apply Forall_forall. intros i Hi.
      apply Hm in Hi as [Hi _]. rewrite length_app in Hi. cbn [length] in Hi.
      lia.
    + intros i. rewrite elem_of_cons, Hm, length_app, <- El. cbn [length].
      split.
      * intros [->|[Hi H]]; [|split; [lia|done]].
        split; [done|]. exists x. split; [done|by left].
      * intros [Hi H].
        destruct (decide (i = length before)) as [->|]; [by left|].
        right. split; [lia|done].
    + rewrite (elementsAt_cons _ _ _ x) by done. cbn [fmap list_fmap].
      change (keptLine x) with (if isEmpty (trim x) then x else trimEnd x).
        rewrite Eb. by rewrite <- app_assoc.
  - assert (Hnb : ¬ blank x) by (unfold blank; congruence).
    destruct (bool_decide_reflect (trim x ∈ seen)) as [Hin|Hin].
    + destruct (IH (before ++ [x]) seen merged) as (idx & Hs & Hm & E).
      { intros k. rewrite Hseen. split.
        - intros (d & Hd & H). exists d. split; [|done].
          apply elem_of_app. by left.
        - intros (d & [Hd| ->%list_elem_of_singleton]%elem_of_app & Hd' & H);
            [by exists d|].
          subst k. by apply Hseen. }
      exists idx. rewrite El. split; [done|]. split; [|done].
      intros i. rewrite Hm, length_app. cbn [length]. split.
      * intros [Hi H]. split; [lia|done].
      * intros [Hi (y & Hy & Hk)]. split; [|by exists y].
        destruct (decide (i = length before)) as [->|]; [|lia].
        exfalso. rewrite <- El in Hy, Hk. rewrite Hhere in Hy.
        injection Hy as <-. rewrite Htake in Hk.
        destruct Hk as [Hk|Hk]; [done|].
        by apply Hk, (Hkey before seen x Hseen Hnb).
    + destruct (IH (before ++ [x]) ({[trim x]} ∪ seen) (merged ++ [trimEnd x]))
        as (idx & Hs & Hm & E).
      { intros k. rewrite elem_of_union, elem_of_singleton, Hseen. split.
        - intros [->|(d & Hd & H)].
          + exists x. split; [|done]. apply elem_of_app. right. by left.
          + exists d. split; [|done]. apply elem_of_app. by left.
        - intros (d & [Hd| ->%list_elem_of_singleton]%elem_of_app & Hd' & H).
          + right. by exists d.
          + by left. }
      exists (length before :: idx). rewrite E, <- El. split; [|split].
      * constructor; [done|]. apply Forall_forall. intros i Hi.
        apply Hm in Hi as [Hi _]. rewrite length_app in Hi.
        cbn [length] in Hi. lia.
      * intros i. rewrite elem_of_cons, Hm, length_app, <- El. cbn [length].
        split.
        -- intros [->|[Hi H]]; [|split; [lia|done]].
           split; [done|]. exists x. split; [done|]. right.
           rewrite Htake. by intros ?%(Hkey before seen x Hseen Hnb).
        -- intros [Hi H].
           destruct (decide (i = length before)) as [->|]; [by left|].
           right. split; [lia|done].
      * rewrite (elementsAt_cons _ _ _ x) by done. cbn [fmap list_fmap].
        change (keptLine x) with (if isEmpty (trim x) then x else trimEnd x).
        rewrite Eb. by rewrite <- app_assoc.
Qed.

(** X11.  [mergeImports] returns the imports of the current side
    followed by those of the incoming side at exactly the positions where
    no earlier import is equal up to white space: of imports that are
    equal up to white space the first is kept, with its spelling, and the
    later ones are dropped.  So the result is a sublist of the
    concatenation, no two of its imports are equal up to white space, and
    every given import is equal up to white space to one that is kept. *)
Theorem mergeImports_spec current incoming :
  ∃ idx,
    keptPositions (λ earlier imp, importKey imp ∉ importKey <$> earlier)
      (current ++ incoming) idx
    ∧ mergeImports current incoming = elementsAt (current ++ incoming) idx
    ∧ sublist (mergeImports current incoming) (current ++ incoming)
    ∧ NoDup (importKey <$> mergeImports current incoming)
    ∧ ∀ imp, imp ∈ current ++ incoming →
        importKey imp ∈ importKey <$> mergeImports current incoming.
Proof.
  unfold mergeImports.
  destruct (mergeSeen_exact (current ++ incoming) [] ∅ [])
    as (idx & Hs & Hm & E).
  { intros k. cbn [fmap list_fmap]. set_solver. }
  destruct (mergeSeen_spec (current ++ incoming) ∅ [])
    as (added & E' & Hsub & Hnd & _ & Hcov).
  exists idx. split; [by apply positions_from|]. split; [exact E|].
  rewrite E'. cbn [app]. repeat split; try done.
  intros imp Himp. destruct (Hcov imp Himp) as [H|H]; [set_solver|done].
Qed.

(** X16.  [mergeListLines] joins the lines of the current side followed
    by those of the incoming side at exactly the positions where the line
    is blank or no earlier line is equal to it once trimmed: every blank
    line is kept, as it is, and of the other lines that are equal once
    trimmed the first is kept, without its trailing white space, and the
    later ones are dropped. *)
Theorem mergeListLines_spec currentLines incomingLines :
  ∃ idx,
    keptPositions
      (λ earlier line, blank line ∨ trim line ∉ trim <$> earlier)
      (currentLines ++ incomingLines) idx
    ∧ mergeListLines currentLines incomingLines
      = join NL (keptLine <$> elementsAt (currentLines ++ incomingLines) idx).
Proof.
  destruct (pushLines_exact (currentLines ++ incomingLines) [] ∅ [])
    as (idx & Hs & Hm & E).
  { intros k. split; [by intros ?%elem_of_empty|].
    by intros (d & ?%elem_of_nil & _). }
  exists idx. split; [by apply positions_from|].
  cbn [app] in E. rewrite <- E, pushLines_app.
  unfold mergeListLines.
  destruct (pushLines currentLines ∅ []) as [seen merged]. cbn [fst snd].
  by destruct (pushLines incomingLines seen merged) as [seen' merged'].
Qed.

End KeptPositions.
